(** * yart: recursive ray caster (src/main.cpp)

    A shallow embedding of the rendering core of [main.cpp]: [Bulb::power],
    [Sphere::intersects], [allBut] and [cast].

    The program computes with C++ [float] (and, inside [Bulb::power], with
    [double]).  The code is translated once, over an interface [FloatOps] that
    lists the scalar operations the source uses and assumes no law about
    them.  Two implementations of the interface follow:

    - [Binary32.ops]: IEEE 754 single precision, with the double-precision
      steps in binary64, both through the Standard Library's executable
      specification [SpecFloat] (round to nearest even, every operation
      rounded to its type).  This is what the compiled program computes, NaN,
      infinities and signed zeros included.  Two functions come from
      libraries whose code is not part of the repository: Qt's
      [QVector3D::normalized] and libm's [acos]; the instance takes them as
      arguments, and [Binary32.normalized_qt5] and [Binary32.acosf] give what
      is known of them.
    - [Exact.ops]: the real numbers, that is the same formulas read without
      rounding, overflow or NaN; it is used for the geometry of
      [Sphere::intersects].

    A theorem stated over the interface holds for both.  A theorem stated for
    one instance says so.  The order of binary32 results ([Bulb::power] lies
    in [0, 1] and decreases with the angle) rests on a proof that the rounding
    of [SpecFloat] yields a nearest number of the format.  *)

From Stdlib Require Import List Bool ZArith Lia PeanoNat.
From Stdlib Require Import Floats.SpecFloat.
From Stdlib Require Import Reals Lra.
Import ListNotations.

Set Implicit Arguments.

(** ** QVector3D *)

(** [QVector3D] holds three [float]s; [Color] is an alias of it
    ([using Color = QVector3D]). *)
Record QVector3D (F : Type) : Type := vec3 { xp : F; yp : F; zp : F }.

(** ** The scalar operations used by the source *)

(** [F] stands for [float], [D] for [double].  Every field is an operation that
    occurs in [main.cpp]; the comment gives the C++ form. *)
Class FloatOps (F D : Type) : Type := {
  of_int : Z -> F;             (* int to float: [0.0f], [return 0], [1 - m], [2 * v] *)
  FLT_MAX : F;                 (* std::numeric_limits<float>::max() *)
  fadd : F -> F -> F;          (* a + b *)
  fsub : F -> F -> F;          (* a - b *)
  fmul : F -> F -> F;          (* a * b *)
  fneg : F -> F;               (* -a *)
  flt : F -> F -> bool;        (* a < b *)
  fle : F -> F -> bool;        (* a <= b *)
  fsqrt : F -> F;              (* std::sqrt(float) *)
  fabs : F -> F;               (* std::abs(float) *)
  facos : F -> F;              (* std::acos(float) *)
  to_double : F -> D;          (* promotion float to double *)
  of_double : D -> F;          (* conversion double to float (the [return]) *)
  d_of_int : Z -> D;           (* int to double *)
  M_PI_2 : D;                  (* the double constant pi/2 *)
  dsub : D -> D -> D;          (* a - b on double *)
  ddiv : D -> D -> D;          (* a / b on double *)
  dlt : D -> D -> bool;        (* a < b on double *)
  normalized : QVector3D F -> QVector3D F   (* QVector3D::normalized() *)
}.

Section Code.

Context {F D : Type} {ops : FloatOps F D}.

#[local] Abbreviation Vec := (QVector3D F).
#[local] Abbreviation Color := (QVector3D F).

(** [a > b] and [a >= b] are [b < a] and [b <= a] (also on NaN, where all four
    are false). *)
Definition fgt (a b : F) : bool := flt b a.
Definition fge (a b : F) : bool := fle b a.
Definition dgt (a b : D) : bool := dlt b a.

(** [std::max(a, b)] is [(a < b) ? b : a]. *)
Definition fmax (a b : F) : F := if flt a b then b else a.

(** *** QVector3D arithmetic *)

(** [QVector3D()] is the null vector. *)
Definition vnull : Vec := vec3 (of_int 0) (of_int 0) (of_int 0).

(** [v1 + v2], [v1 - v2], [v1 * v2] are componentwise. *)
Definition vadd (v1 v2 : Vec) : Vec :=
  vec3 (fadd (xp v1) (xp v2)) (fadd (yp v1) (yp v2)) (fadd (zp v1) (zp v2)).
Definition vsub (v1 v2 : Vec) : Vec :=
  vec3 (fsub (xp v1) (xp v2)) (fsub (yp v1) (yp v2)) (fsub (zp v1) (zp v2)).
Definition vmul (v1 v2 : Vec) : Vec :=
  vec3 (fmul (xp v1) (xp v2)) (fmul (yp v1) (yp v2)) (fmul (zp v1) (zp v2)).

(** [v * factor] and [factor * v] both multiply each component by [factor]. *)
Definition vscale (v : Vec) (factor : F) : Vec :=
  vec3 (fmul (xp v) factor) (fmul (yp v) factor) (fmul (zp v) factor).

(** [QVector3D::dotProduct(v1, v2)] is [v1.x*v2.x + v1.y*v2.y + v1.z*v2.z]. *)
Definition dotProduct (v1 v2 : Vec) : F :=
  fadd (fadd (fmul (xp v1) (xp v2)) (fmul (yp v1) (yp v2))) (fmul (zp v1) (zp v2)).

(** [v.lengthSquared()] is [x*x + y*y + z*z]. *)
Definition lengthSquared (v : Vec) : F :=
  fadd (fadd (fmul (xp v) (xp v)) (fmul (yp v) (yp v))) (fmul (zp v) (zp v)).

(** *** Light and Bulb *)

(** [class Light]: two data members and the pure virtual [power]. *)
Record Light : Type := {
  Light_color : Color;
  Light_center : Vec;
  Light_power : Vec -> Vec -> F
}.

(** The angle computed by [Bulb::power]: [rad]. *)
Definition Bulb_rad (center origin normalDirection : Vec) : F :=
  let v1 := normalized (vsub origin center) in
  let v2 := normalDirection in
  facos (dotProduct v1 v2).

(** The two [return]s of [Bulb::power] as a function of [rad].  [M_PI_2] is a
    [double], so the comparison and the quotient are computed in [double] and
    the result is converted back by the [return]. *)
Definition Bulb_falloff (rad : F) : F :=
  if dgt (to_double (fabs rad)) M_PI_2 then of_int 0
  else of_double (dsub (d_of_int 1) (ddiv (to_double (fabs rad)) M_PI_2)).

(** [Bulb::power]. *)
Definition Bulb_power (center origin normalDirection : Vec) : F :=
  Bulb_falloff (Bulb_rad center origin normalDirection).

(** The constructor [Bulb(center, color)]. *)
Definition Bulb (center : Vec) (color : Color) : Light :=
  {| Light_color := color; Light_center := center; Light_power := Bulb_power center |}.

(** *** Shape and Sphere *)

(** What [intersects] writes through its three out-pointers when it returns
    [true]. *)
Record Hit : Type := {
  intersection : Vec;
  normal : Vec;
  reflection : Vec
}.

(** [class Shape]: two data members and the pure virtual [intersects].  The
    result [None] is [return false]; [Some h] is [return true] with the
    out-parameters [h].  A call with null out-pointers runs the same code and
    only the [bool] is observed ([hits] below). *)
Record Shape : Type := {
  Shape_color : Color;
  Shape_mirror : F;
  Shape_intersects : Vec -> Vec -> option Hit
}.

Definition hits (shape : Shape) (origin direction : Vec) : bool :=
  match Shape_intersects shape origin direction with
  | Some _ => true
  | None => false
  end.

(** [Sphere::intersects]. *)
Definition Sphere_intersects (center_ : Vec) (radius_ : F) (origin direction : Vec)
  : option Hit :=
  let m := vsub origin center_ in
  let b := dotProduct direction m in
  let c := fsub (dotProduct m m) (fmul radius_ radius_) in
  if fgt c (of_int 0) && fgt b (of_int 0) then None
  else
    let discr := fsub (fmul b b) c in
    if flt discr (of_int 0) then None
    else
      let t := fmax (of_int 0) (fsub (fneg b) (fsqrt discr)) in
      let intersection := vadd origin (vscale direction t) in
      let normal := normalized (vsub intersection center_) in
      let reflection :=
        vsub direction (vscale (vscale normal (of_int 2)) (dotProduct direction normal)) in
      Some {| intersection := intersection; normal := normal; reflection := reflection |}.

(** The constructor [Sphere(center, radius, color, mirror)]. *)
Definition Sphere (center : Vec) (radius : F) (color : Color) (mirror : F) : Shape :=
  {| Shape_color := color; Shape_mirror := mirror;
     Shape_intersects := Sphere_intersects center radius |}.

(** *** allBut *)

(** [QVector::removeAt(i)] for [0 <= i < size].  Outside that range Qt asserts;
    here the list is returned unchanged, and [cast] only calls it in range
    (lemma [nearest_index_range]). *)
Definition removeAt {T : Type} (l : list T) (i : nat) : list T :=
  firstn i l ++ skipn (S i) l.

(** [allBut(vector, index)]: a copy of the vector without the element at
    [index]. *)
Definition allBut {T : Type} (vector : list T) (index : Z) : list T :=
  removeAt vector (Z.to_nat index).

(** *** cast *)

(** The local variables of [cast] that its first loop updates. *)
Record Nearest : Type := {
  shortestDistanceSquared : F;
  shapeIndex : Z;
  intersectionOrigin : Vec;
  normalDirection : Vec;
  reflectionDirection : Vec
}.

(** Their values before the loop. *)
Definition nearest_init : Nearest :=
  {| shortestDistanceSquared := FLT_MAX; shapeIndex := (-1)%Z;
     intersectionOrigin := vnull; normalDirection := vnull;
     reflectionDirection := vnull |}.

(** One iteration of the first loop, for [shape = shapes.at(index)]. *)
Definition nearest_step (origin direction : Vec) (st : Nearest) (index : Z)
  (shape : Shape) : Nearest :=
  match Shape_intersects shape origin direction with
  | None => st
  | Some h =>
      let distanceSquared := lengthSquared (vsub (intersection h) origin) in
      if fge distanceSquared (shortestDistanceSquared st) then st
      else {| shortestDistanceSquared := distanceSquared; shapeIndex := index;
              intersectionOrigin := intersection h; normalDirection := normal h;
              reflectionDirection := reflection h |}
  end.

(** The first loop, from [index] on; [shapes] is what remains of the vector. *)
Fixpoint nearest_loop (origin direction : Vec) (index : Z) (shapes : list Shape)
  (st : Nearest) : Nearest :=
  match shapes with
  | [] => st
  | shape :: rest =>
      nearest_loop origin direction (index + 1) rest
        (nearest_step origin direction st index shape)
  end.

(** The inner loop over [otherShapes]: [isBlocked].  The shadow ray starts at
    the hit point with direction [(intersectionOrigin - light->center).normalized()]. *)
Definition isBlocked (otherShapes : list Shape) (intersectionOrigin : Vec)
  (light : Light) : bool :=
  existsb
    (fun otherShape =>
       hits otherShape intersectionOrigin
         (normalized (vsub intersectionOrigin (Light_center light))))
    otherShapes.

(** One iteration of the loop over [lights]. *)
Definition light_step (otherShapes : list Shape) (intersectionOrigin normalDirection : Vec)
  (colorMask : Color) (light : Light) : Color :=
  if isBlocked otherShapes intersectionOrigin light then colorMask
  else
    let power := Light_power light intersectionOrigin normalDirection in
    if fle power (of_int 0) then colorMask
    else vadd colorMask (vscale (Light_color light) power).

(** The loop over [lights], starting from [colorMask = colorOnFullShade]. *)
Definition light_loop (otherShapes : list Shape) (lights : list Light)
  (intersectionOrigin normalDirection : Vec) (colorOnFullShade : Color) : Color :=
  fold_left (light_step otherShapes intersectionOrigin normalDirection) lights
    colorOnFullShade.

(** [colorSelf * (1 - shape->mirror) + colorMirrored * shape->mirror]. *)
Definition blend (colorSelf colorMirrored : Color) (mirror : F) : Color :=
  vadd (vscale colorSelf (fsub (of_int 1) mirror)) (vscale colorMirrored mirror).

(** [cast].  The C++ function calls itself; here [fuel] bounds the nesting of
    calls and [None] means that the bound was reached or that [shapes.at] was
    called out of range ([cast_fuel_enough] shows that neither happens with more
    fuel than surfaces).  Next to the colour the function records the surface
    sets it passed to the nested invocations of [cast], outermost first: the
    empty list when this invocation made no recursive call.  The record is
    bookkeeping for the statements below; no colour depends on it. *)
Fixpoint cast_fuel (fuel : nat) (shapes : list Shape) (lights : list Light)
  (origin direction : Vec) (colorOnMiss colorOnFullShade : Color)
  : option (Color * list (list Shape)) :=
  match fuel with
  | O => None
  | S fuel' =>
      let st := nearest_loop origin direction 0 shapes nearest_init in
      if (shapeIndex st <? 0)%Z then Some (colorOnMiss, [])
      else
        match nth_error shapes (Z.to_nat (shapeIndex st)) with
        | None => None
        | Some shape =>
            let otherShapes := allBut shapes (shapeIndex st) in
            let colorSelf :=
              if fgt (Shape_mirror shape) (of_int 0) then
                match cast_fuel fuel' otherShapes lights (intersectionOrigin st)
                        (reflectionDirection st) colorOnMiss colorOnFullShade with
                | None => None
                | Some (colorMirrored, calls) =>
                    Some (blend (Shape_color shape) colorMirrored (Shape_mirror shape),
                          otherShapes :: calls)
                end
              else Some (Shape_color shape, []) in
            match colorSelf with
            | None => None
            | Some (colorSelf, calls) =>
                let colorMask :=
                  light_loop otherShapes lights (intersectionOrigin st)
                    (normalDirection st) colorOnFullShade in
                Some (vmul colorSelf colorMask, calls)
            end
        end
  end.

(** [cast] with the fuel that always suffices, with and without the record of
    nested invocations. *)
Definition cast_calls (shapes : list Shape) (lights : list Light)
  (origin direction : Vec) (colorOnMiss colorOnFullShade : Color)
  : option (Color * list (list Shape)) :=
  cast_fuel (S (length shapes)) shapes lights origin direction colorOnMiss colorOnFullShade.

Definition cast (shapes : list Shape) (lights : list Light)
  (origin direction : Vec) (colorOnMiss colorOnFullShade : Color) : option Color :=
  option_map fst
    (cast_calls shapes lights origin direction colorOnMiss colorOnFullShade).

End Code.

Arguments Light : clear implicits.
Arguments Hit : clear implicits.
Arguments Shape : clear implicits.
Arguments Nearest : clear implicits.

(** ** The program in IEEE 754 arithmetic *)

Module Binary32.

(** [float] is binary32 and [double] is binary64; both are values of
    [spec_float], told apart by the precision the operations round to. *)
Definition float : Type := spec_float.
Definition double : Type := spec_float.

Definition prec32 : Z := 24.
Definition emax32 : Z := 128.
Definition prec64 : Z := 53.
Definition emax64 : Z := 1024.

Definition float_of_Z (z : Z) : float := binary_normalize prec32 emax32 z 0 false.
Definition double_of_Z (z : Z) : double := binary_normalize prec64 emax64 z 0 false.

(** Conversions between the two formats: exact from [float] to [double],
    rounded to nearest even from [double] to [float]. *)
Definition float_to_double (x : float) : double :=
  match x with
  | S754_finite s m e => binary_round prec64 emax64 s m e
  | _ => x
  end.
Definition double_to_float (x : double) : float :=
  match x with
  | S754_finite s m e => binary_round prec32 emax32 s m e
  | _ => x
  end.

(** [M_PI_2] is the [double] 0x1.921fb54442d18p+0. *)
Definition double_M_PI_2 : double := S754_finite false 7074237752028440 (-52).

(** [qFuzzyIsNull(double d)] of Qt: [qAbs(d) <= 0.000000000001]; the constant is
    the [double] 0x1.19799812dea11p-40. *)
Definition qFuzzyIsNull (d : double) : bool :=
  SFleb (SFabs d) (S754_finite false 4951760157141521 (-92)).

(** [QVector3D::normalized()] as Qt 5.15 implements it: the squared length is
    accumulated in [double]; a vector of squared length within 1e-12 of 1 is
    returned as it is, one of squared length at most 1e-12 gives the null
    vector, any other is divided by its length in [double] and converted
    back. *)
Definition normalized_qt5 (v : QVector3D float) : QVector3D float :=
  let dmul := SFmul prec64 emax64 in
  let dadd := SFadd prec64 emax64 in
  let x := float_to_double (xp v) in
  let y := float_to_double (yp v) in
  let z := float_to_double (zp v) in
  let len := dadd (dadd (dmul x x) (dmul y y)) (dmul z z) in
  if qFuzzyIsNull (SFsub prec64 emax64 len (float_to_double (float_of_Z 1))) then v
  else if negb (qFuzzyIsNull len) then
    let sqrtLen := SFsqrt prec64 emax64 len in
    vec3 (double_to_float (SFdiv prec64 emax64 x sqrtLen))
         (double_to_float (SFdiv prec64 emax64 y sqrtLen))
         (double_to_float (SFdiv prec64 emax64 z sqrtLen))
  else vec3 (float_of_Z 0) (float_of_Z 0) (float_of_Z 0).

(** [std::acos] on [float] is libm's.  ISO C (Annex F) fixes it at the special
    arguments: NaN for a NaN argument and for [|x| > 1], [+0] at [1].  On the
    other arguments libm's rounding of the arc cosine is not reproduced here:
    it is the parameter [acos_in_domain]. *)
Definition acosf (acos_in_domain : float -> float) (x : float) : float :=
  match SFcompare (SFabs x) (float_of_Z 1) with
  | None => S754_nan
  | Some Gt => S754_nan
  | Some _ => if SFeqb x (float_of_Z 1) then S754_zero false else acos_in_domain x
  end.

(** The interface over binary32, for a given [normalized] and a given libm. *)
Definition ops (normalized : QVector3D float -> QVector3D float)
  (acos_in_domain : float -> float) : FloatOps float double :=
  {| of_int := float_of_Z;
     FLT_MAX := SFmax_float prec32 emax32;
     fadd := SFadd prec32 emax32;
     fsub := SFsub prec32 emax32;
     fmul := SFmul prec32 emax32;
     fneg := SFopp;
     flt := SFltb;
     fle := SFleb;
     fsqrt := SFsqrt prec32 emax32;
     fabs := SFabs;
     facos := acosf acos_in_domain;
     to_double := float_to_double;
     of_double := double_to_float;
     d_of_int := double_of_Z;
     M_PI_2 := double_M_PI_2;
     dsub := SFsub prec64 emax64;
     ddiv := SFdiv prec64 emax64;
     dlt := SFltb;
     normalized := normalized |}.

(** The instance of the examples: Qt 5.15's [normalized], and no libm.  The
    examples evaluate [acos] at the arguments that Annex F fixes or not at
    all, so that they hold whatever libm does elsewhere. *)
Definition no_libm (x : float) : float := S754_nan.
Definition ops_qt5 : FloatOps float double := ops normalized_qt5 no_libm.

(** The vector [QVector3D(a, b, c)] for integers [a], [b], [c]. *)
Definition vec3_of_Z (a b c : Z) : QVector3D float :=
  vec3 (float_of_Z a) (float_of_Z b) (float_of_Z c).

End Binary32.

(** ** The program in exact arithmetic *)

Module Exact.

Definition Rltb (a b : R) : bool := if Rlt_dec a b then true else false.
Definition Rleb (a b : R) : bool := if Rle_dec a b then true else false.

(** The value of [FLT_MAX]: (2^24 - 1) * 2^104. *)
Definition R_FLT_MAX : R := IZR ((2 ^ 24 - 1) * 2 ^ 104).

(** [QVector3D::normalized()] of Qt 5.15 read over the reals: the same three
    cases, with the thresholds of [qFuzzyIsNull]. *)
Definition normalized_qt5 (v : QVector3D R) : QVector3D R :=
  let len := (xp v * xp v + yp v * yp v + zp v * zp v)%R in
  if Rleb (Rabs (len - 1)) (1 / 1000000000000) then v
  else if negb (Rleb (Rabs len) (1 / 1000000000000)) then
    let sqrtLen := sqrt len in
    vec3 (xp v / sqrtLen)%R (yp v / sqrtLen)%R (zp v / sqrtLen)%R
  else vec3 0%R 0%R 0%R.

(** The interface over the reals, for a given [normalized]: [float] and
    [double] are both [R] and the conversions do nothing.  The arc cosine is
    the total function [acos] of the Standard Library, which is the arc cosine
    on [-1, 1] only (outside of it [std::acos] is NaN): no statement below is
    about [Bulb::power] over the reals. *)
Definition ops (normalized : QVector3D R -> QVector3D R) : FloatOps R R :=
  {| of_int := IZR;
     FLT_MAX := R_FLT_MAX;
     fadd := Rplus;
     fsub := Rminus;
     fmul := Rmult;
     fneg := Ropp;
     flt := Rltb;
     fle := Rleb;
     fsqrt := sqrt;
     fabs := Rabs;
     facos := acos;
     to_double := fun x => x;
     of_double := fun x => x;
     d_of_int := IZR;
     M_PI_2 := (PI / 2)%R;
     dsub := Rminus;
     ddiv := Rdiv;
     dlt := Rltb;
     normalized := normalized |}.

End Exact.

(** ** Predicates used in the statements *)

(** [one_removed prev next]: [next] is [prev] without one of its elements. *)
Definition one_removed {T : Type} (prev next : list T) : Prop :=
  exists before x after, prev = before ++ x :: after /\ next = before ++ after.

(** [narrowing shapes calls]: each surface set of [calls] is the previous one
    (the first: [shapes]) without one element. *)
Fixpoint narrowing {T : Type} (prev : list T) (calls : list (list T)) : Prop :=
  match calls with
  | [] => True
  | next :: rest => one_removed prev next /\ narrowing next rest
  end.

(** [x] is NaN, or has the sign [s]. *)
Definition nan_or_sign (s : bool) (x : spec_float) : Prop :=
  match x with
  | S754_nan => True
  | S754_zero sx | S754_infinity sx | S754_finite sx _ _ => sx = s
  end.

(** [x] is NaN, or a zero of either sign, or negative. *)
Definition nan_or_nonpos (x : spec_float) : Prop :=
  match x with
  | S754_nan | S754_zero _ => True
  | S754_infinity sx | S754_finite sx _ _ => sx = true
  end.

(** [x] is NaN, or a zero of either sign. *)
Definition nan_or_zero (x : spec_float) : Prop :=
  match x with
  | S754_nan | S754_zero _ => True
  | _ => False
  end.

(** [x] is NaN or [+0]. *)
Definition nan_or_pzero (x : spec_float) : Prop :=
  match x with
  | S754_nan | S754_zero false => True
  | _ => False
  end.

(** [x] is a zero or a finite number. *)
Definition finite (x : spec_float) : Prop :=
  match x with
  | S754_zero _ | S754_finite _ _ _ => True
  | _ => False
  end.

(** The three coordinates are zeros or finite numbers. *)
Definition finite3 (v : QVector3D spec_float) : Prop :=
  finite (xp v) /\ finite (yp v) /\ finite (zp v).

(** ** Small scenes *)

Module Scene.

Import Binary32.

#[local] Existing Instance ops_qt5.

(** Two spheres of radius 5 with colour (1, 0, 0) and no mirror, the second
    one behind the point (3, 4, 0) of the first as seen from the light; the
    same first sphere with the mirror fraction 1/2. *)
Definition sphereA : Shape float :=
  Sphere (vec3_of_Z 0 0 0) (float_of_Z 5) (vec3_of_Z 1 0 0) (float_of_Z 0).
Definition sphereB : Shape float :=
  Sphere (vec3_of_Z 12 16 0) (float_of_Z 5) (vec3_of_Z 1 0 0) (float_of_Z 0).
Definition mirrorA : Shape float :=
  Sphere (vec3_of_Z 0 0 0) (float_of_Z 5) (vec3_of_Z 1 0 0)
    (SFdiv prec32 emax32 (float_of_Z 1) (float_of_Z 2)).

(** A white bulb on the line through (3, 4, 0) and the centre of [sphereA]. *)
Definition bulb : Light float := Bulb (vec3_of_Z (-27) (-36) 0) (vec3_of_Z 1 1 1).

(** The ray from (10, 4, 0) in direction (-1, 0, 0): it meets [sphereA] at
    (3, 4, 0) and misses [sphereB]. *)
Definition rayOrigin : QVector3D float := vec3_of_Z 10 4 0.
Definition rayDirection : QVector3D float := vec3_of_Z (-1) 0 0.

(** The colours of [main]: [colorOnMiss = (0, 0, 1)] and
    [colorOnFullShade = (0.1, 0.1, 0.1)]. *)
Definition colorOnMiss : QVector3D float := vec3_of_Z 0 0 1.
Definition tenth : float := SFdiv prec32 emax32 (float_of_Z 1) (float_of_Z 10).
Definition colorOnFullShade : QVector3D float := vec3 tenth tenth tenth.

End Scene.

(** The same kind of scene over the reals: the sphere of radius 1 at the
    origin and the ray from (2, 0, 0) in direction (-1, 0, 0), which meets it at
    (1, 0, 0). *)
Module SceneR.

Definition ops : FloatOps R R := Exact.ops Exact.normalized_qt5.
Definition center : QVector3D R := vec3 0%R 0%R 0%R.
Definition rayOrigin : QVector3D R := vec3 2%R 0%R 0%R.
Definition rayDirection : QVector3D R := vec3 (-1)%R 0%R 0%R.
Definition pole : QVector3D R := vec3 1%R 0%R 0%R.

End SceneR.

(** * Definitions for the further properties *)

Section MoreCode.

Context {F D : Type} {ops : FloatOps F D}.

#[local] Abbreviation Vec := (QVector3D F).
#[local] Abbreviation Color := (QVector3D F).
#[local] Abbreviation Shape := (Shape F).
#[local] Abbreviation Light := (Light F).
#[local] Abbreviation Nearest := (Nearest F).

(** The squared distance that the first loop of [cast] computes for a hit. *)
Definition hit_distance (origin : Vec) (h : Hit F) : F :=
  lengthSquared (vsub (intersection h) origin).

(** What the state of the first loop records about the shapes [pre] that it
    has gone through: nothing, and then every hit among them was skipped
    against [FLT_MAX]; or the hit of the shape at [shapeIndex]. *)
Definition nearest_invariant (origin direction : Vec) (pre : list Shape) (st : Nearest)
  : Prop :=
  (st = nearest_init /\
   forall shape h, In shape pre -> Shape_intersects shape origin direction = Some h ->
     fge (hit_distance origin h) FLT_MAX = true) \/
  (exists shape h,
     (0 <= shapeIndex st)%Z /\
     nth_error pre (Z.to_nat (shapeIndex st)) = Some shape /\
     Shape_intersects shape origin direction = Some h /\
     shortestDistanceSquared st = hit_distance origin h /\
     intersectionOrigin st = intersection h /\
     normalDirection st = normal h /\
     reflectionDirection st = reflection h).

(** The state after the shapes [pre], for distances in a set [ok]: its
    distance is at most the one of every hit among them, and less than the one
    of every hit before [shapeIndex]. *)
Definition nearest_order (ok : F -> Prop) (origin direction : Vec) (pre : list Shape)
  (st : Nearest) : Prop :=
  ok (shortestDistanceSquared st) /\
  (shapeIndex st < Z.of_nat (length pre))%Z /\
  forall j shape h,
    nth_error pre j = Some shape -> Shape_intersects shape origin direction = Some h ->
    fle (shortestDistanceSquared st) (hit_distance origin h) = true /\
    ((Z.of_nat j < shapeIndex st)%Z ->
     fle (hit_distance origin h) (shortestDistanceSquared st) = false).

(** A light adds to the colour mask when it is not blocked and [power <= 0] is
    false for it. *)
Definition contributes (otherShapes : list Shape) (intersectionOrigin normalDirection : Vec)
  (light : Light) : bool :=
  negb (isBlocked otherShapes intersectionOrigin light) &&
  negb (fle (Light_power light intersectionOrigin normalDirection) (of_int 0)).

(** What a light that contributes adds: [colorMask += power * light->color]. *)
Definition add_light (intersectionOrigin normalDirection : Vec) (colorMask : Color)
  (light : Light) : Color :=
  vadd colorMask
    (vscale (Light_color light) (Light_power light intersectionOrigin normalDirection)).

(** The point of the ray at the parameter [s]. *)
Definition ray_point (origin direction : Vec) (s : F) : Vec :=
  vadd origin (vscale direction s).

(** The opposite direction. *)
Definition vopp (v : Vec) : Vec := vec3 (fneg (xp v)) (fneg (yp v)) (fneg (zp v)).

End MoreCode.

(** ** The order of binary32 *)

(** [SFleb] compares two numbers other than NaN as it would compare these
    keys lexicographically. *)
Definition order_key (x : spec_float) : Z * Z * Z :=
  match x with
  | S754_nan | S754_zero _ => (0, 0, 0)%Z
  | S754_infinity true => (-2, 0, 0)%Z
  | S754_infinity false => (2, 0, 0)%Z
  | S754_finite true m e => (-1, - e, Z.neg m)%Z
  | S754_finite false m e => (1, e, Z.pos m)%Z
  end.

Definition key_le (a b : Z * Z * Z) : Prop :=
  let '(a1, a2, a3) := a in
  let '(b1, b2, b3) := b in
  (a1 < b1 \/ (a1 = b1 /\ (a2 < b2 \/ (a2 = b2 /\ a3 <= b3))))%Z.

Definition not_nan (x : spec_float) : Prop := x <> S754_nan.

(** ** toRgb *)

(** [static_cast<int>(float)]: the value truncated toward zero; [None] where
    C++ leaves the conversion undefined (NaN, infinities, and values whose
    truncation is not an [int]). *)
Class IntCast (F : Type) : Type := { to_int : F -> option Z }.

Definition INT_MIN : Z := - 2 ^ 31.
Definition INT_MAX : Z := 2 ^ 31 - 1.

Definition int_range (z : Z) : option Z :=
  if (INT_MIN <=? z)%Z && (z <=? INT_MAX)%Z then Some z else None.

(** The conversion in binary32: the number is [(-1)^s * m * 2^e]. *)
Definition float_to_int (x : Binary32.float) : option Z :=
  match x with
  | S754_zero _ => Some 0%Z
  | S754_finite s m e => int_range (cond_Zopp s (Z.shiftl (Z.pos m) e))
  | _ => None
  end.

(** Truncation toward zero over the reals, and the conversion there. *)
Definition Rtrunc (x : R) : Z :=
  if Rle_dec 0 x then Zfloor.Zfloor x else Zfloor.Zceil x.

Definition R_to_int (x : R) : option Z := int_range (Rtrunc x).

Definition cast32 : IntCast Binary32.float := {| to_int := float_to_int |}.
Definition castR : IntCast R := {| to_int := R_to_int |}.

(** [std::clamp(v, lo, hi)] is [(v < lo) ? lo : (hi < v) ? hi : v]. *)
Definition clamp (v lo hi : Z) : Z :=
  if (v <? lo)%Z then lo else if (hi <? v)%Z then hi else v.

(** [qRgb(r, g, b)] of Qt:
    [(0xffu << 24) | ((r & 0xffu) << 16) | ((g & 0xffu) << 8) | (b & 0xffu)],
    and the four channels of a [QRgb] as [qAlpha], [qRed], [qGreen] and [qBlue]
    read them. *)
Definition qRgb (r g b : Z) : Z :=
  Z.lor (Z.lor (Z.lor (Z.shiftl 255 24) (Z.shiftl (Z.land r 255) 16))
           (Z.shiftl (Z.land g 255) 8))
    (Z.land b 255).
Definition qAlpha (rgb : Z) : Z := Z.shiftr rgb 24.
Definition qRed (rgb : Z) : Z := Z.land (Z.shiftr rgb 16) 255.
Definition qGreen (rgb : Z) : Z := Z.land (Z.shiftr rgb 8) 255.
Definition qBlue (rgb : Z) : Z := Z.land rgb 255.

Section Pixel.

Context {F D : Type} {ops : FloatOps F D} {icast : IntCast F}.

(** [toRgbComponent]. *)
Definition toRgbComponent (value : F) : option Z :=
  match to_int (fmul value (of_int 255)) with
  | Some i => Some (clamp i 0 255)
  | None => None
  end.

(** [toRgb]. *)
Definition toRgb (color : QVector3D F) : option Z :=
  match toRgbComponent (xp color), toRgbComponent (yp color), toRgbComponent (zp color) with
  | Some r, Some g, Some b => Some (qRgb r g b)
  | _, _, _ => None
  end.

End Pixel.

(** ** main *)

(** The loop of [main] that fills [resolutionsDownscaled]:
    [for (r = start; r > 16; r /= 2) push_front(r)]. *)
Fixpoint resolutions_loop (fuel : nat) (resolutionDownscaled : Z)
  (resolutionsDownscaled : list Z) : option (list Z) :=
  match fuel with
  | O => None
  | S fuel' =>
      if (16 <? resolutionDownscaled)%Z then
        resolutions_loop fuel' (resolutionDownscaled ÷ 2)%Z
          (resolutionDownscaled :: resolutionsDownscaled)
      else Some resolutionsDownscaled
  end.

(** The list for [resolutionPrefered] and [msaaMultiplier] (their product is
    taken to fit an [int]). *)
Definition resolutions (resolutionPrefered msaaMultiplier : Z) : option (list Z) :=
  let start := (resolutionPrefered * msaaMultiplier)%Z in
  resolutions_loop (S (Z.to_nat start)) start [].

(** Each element is more than 16, is the truncated half of the next one and
    is less than it. *)
Fixpoint halving (l : list Z) : Prop :=
  match l with
  | [] => True
  | a :: t =>
      (16 < a)%Z /\
      match t with
      | [] => True
      | b :: _ => (a = b ÷ 2 /\ a < b)%Z
      end /\
      halving t
  end.

(** What the loop keeps true of the list built so far. *)
Definition resolutions_invariant (start r : Z) (acc : list Z) : Prop :=
  halving acc /\
  match acc with
  | [] => r = start
  | a :: _ => (r = a ÷ 2)%Z /\ last acc 0%Z = start /\ (16 < start)%Z
  end.

(** The origin of the ray of the pixel [(x, y)] in [main], for an image
    [width] pixels wide, read over the reals: with
    [delimeter = width / cameraSize] it is [(o.x,
    o.y - cameraSize * 0.5 + x / delimeter,
    o.z - cameraSize * 0.5 + y / delimeter)] for the camera origin [o]. *)
Definition pixel_origin (cameraSize : R) (cameraOrigin : QVector3D R) (width : Z)
  (x y : Z) : QVector3D R :=
  let delimeter := (IZR width / cameraSize)%R in
  vec3 (xp cameraOrigin)
    (yp cameraOrigin - cameraSize * (1 / 2) + IZR x / delimeter)%R
    (zp cameraOrigin - cameraSize * (1 / 2) + IZR y / delimeter)%R.

(** ** Binary formats: values and rounding *)

(** What follows relates the data of [SpecFloat] to the real numbers they
    stand for, so that the order of the computed results can be stated and
    proved: [SFleb] and [SFltb] are the program's [<=] and [<]. *)

(** Powers of two with an integer exponent, and the value of a mantissa and an
    exponent. *)
Definition bpow (e : Z) : R := powerRZ 2 e.
Definition F2R (m e : Z) : R := (IZR m * bpow e)%R.

(** The real number that a binary floating-point datum stands for (0 for the
    data that are not numbers). *)
Definition B2R (x : spec_float) : R :=
  match x with
  | S754_finite s m e => F2R (cond_Zopp s (Z.pos m)) e
  | _ => 0%R
  end.

(** [v] lies at the location [l] of the interval from [m * 2^e] to
    [(m + 1) * 2^e]. *)
Definition inbetween (m e : Z) (l : location) (v : R) : Prop :=
  match l with
  | loc_Exact => v = F2R m e
  | loc_Inexact Lt => (F2R m e < v < (IZR m + / 2) * bpow e)%R
  | loc_Inexact Eq => v = ((IZR m + / 2) * bpow e)%R
  | loc_Inexact Gt => ((IZR m + / 2) * bpow e < v < F2R (m + 1) e)%R
  end.

Definition inbetween_rec (mrs : shr_record) (e : Z) (v : R) : Prop :=
  inbetween (shr_m mrs) e (loc_of_shr_record mrs) v.

(** The state after [k] steps of [shr_1] from the mantissa [m] at the
    exponent [e]. *)
Definition shr_state (m e : Z) (v : R) (k : Z) (mrs : shr_record) : Prop :=
  (0 <= shr_m mrs)%Z /\ inbetween_rec mrs (e + k) v /\
  ((0 < shr_m mrs /\ Zdigits2 (shr_m mrs) + k = Zdigits2 m)%Z \/
   (shr_m mrs = 0 /\ Zdigits2 m <= k)%Z).

Section Format.

Variables prec emax : Z.

(** A mantissa and an exponent in canonical form. *)
Definition canonical (m e : Z) : Prop :=
  (0 < m)%Z /\ fexp prec emax (Zdigits2 m + e) = e.

(** The non-negative numbers of the format: [+0] and the positive finite
    numbers in canonical form below the overflow threshold. *)
Definition repr (x : spec_float) : Prop :=
  match x with
  | S754_zero s => s = false
  | S754_finite s m e => s = false /\ canonical (Z.pos m) e /\ (e <= emax - prec)%Z
  | _ => False
  end.

(** [x] is a number of the format and no number of the format is nearer to
    [v]. *)
Definition nearest (x : spec_float) (v : R) : Prop :=
  repr x /\ forall y, repr y -> (Rabs (B2R x - v) <= Rabs (B2R y - v))%R.

(** The outcome of [binary_round_aux] for a mantissa [mf] and an exponent
    [ef]. *)
Definition round_result (mf ef : Z) : spec_float :=
  match mf with
  | Z0 => S754_zero false
  | Z.pos p => if (ef <=? emax - prec)%Z then S754_finite false p ef else S754_infinity false
  | Z.neg _ => S754_nan
  end.

End Format.

(** The numbers of the two formats of the program. *)
Definition repr32 : spec_float -> Prop := repr Binary32.prec32 Binary32.emax32.
Definition repr64 : spec_float -> Prop := repr Binary32.prec64 Binary32.emax64.
Definition nearest32 : spec_float -> R -> Prop := nearest Binary32.prec32 Binary32.emax32.
Definition nearest64 : spec_float -> R -> Prop := nearest Binary32.prec64 Binary32.emax64.

(** The least [float] above [M_PI_2], 0x1.921fb6p+0, and the greatest one
    below it, 0x1.921fb4p+0. *)
Definition float_above_M_PI_2 : Binary32.float := S754_finite false 13176795 (-23).
Definition float_below_M_PI_2 : Binary32.float := S754_finite false 13176794 (-23).

(** The quotient and the difference of the second [return] of [Bulb::power],
    for the absolute value [a] of the angle. *)
Definition falloff_quotient (a : Binary32.float) : Binary32.double :=
  SFdiv Binary32.prec64 Binary32.emax64 (Binary32.float_to_double a) Binary32.double_M_PI_2.
Definition falloff_difference (a : Binary32.float) : Binary32.double :=
  SFsub Binary32.prec64 Binary32.emax64 (Binary32.double_of_Z 1) (falloff_quotient a).

(** A libm of which one value is used: [acos(0)] is the [float] nearest to
    pi/2, 0x1.921fb6p+0. *)
Definition acos_at_zero (x : Binary32.float) : Binary32.float :=
  if SFeqb x (Binary32.float_of_Z 0) then float_above_M_PI_2 else S754_nan.

(** A ray that meets a sphere of radius 3, with the bulb at the centre of the
    sphere: at the hit the direction from the bulb is the normal itself. *)
Module StraightOn.

Definition center : QVector3D Binary32.float := Binary32.vec3_of_Z 0 0 0.
Definition radius : Binary32.float := Binary32.float_of_Z 3.
Definition rayOrigin : QVector3D Binary32.float := Binary32.vec3_of_Z 12 2 1.
Definition rayDirection : QVector3D Binary32.float := Binary32.vec3_of_Z (-1) 0 0.
Definition hitPoint : QVector3D Binary32.float := Binary32.vec3_of_Z 2 2 1.
Definition hitNormal : QVector3D Binary32.float :=
  vec3 (S754_finite false 11184811 (-24)) (S754_finite false 11184811 (-24))
    (S754_finite false 11184811 (-25)).

End StraightOn.

(** * Properties that hold for every arithmetic *)

Section Structure.

Context {F D : Type} {ops : FloatOps F D}.

#[local] Abbreviation Vec := (QVector3D F).
#[local] Abbreviation Color := (QVector3D F).
#[local] Abbreviation Shape := (Shape F).
#[local] Abbreviation Light := (Light F).
#[local] Abbreviation Nearest := (Nearest F).

(** ** allBut *)

Lemma removeAt_split {T : Type} (l : list T) (i : nat) (x : T) :
  nth_error l i = Some x ->
  l = firstn i l ++ x :: skipn (S i) l /\ length (firstn i l) = i.
Proof.
  revert i; induction l as [|a l IH]; intros [|i] H; simpl in *; try discriminate.
  - injection H as ->. split; reflexivity.
  - destruct (IH i H) as [E L]. split; [f_equal; exact E | f_equal; exact L].
Qed.

Lemma removeAt_length {T : Type} (l : list T) (i : nat) :
  i < length l -> S (length (removeAt l i)) = length l.
Proof.
  intros Hi. destruct (nth_error l i) as [x|] eqn:E.
  - destruct (removeAt_split l i E) as [Hl Hf].
    unfold removeAt. rewrite Hl at 3. rewrite !length_app. simpl. lia.
  - apply nth_error_None in E. lia.
Qed.

(** ** The first loop of cast *)

(** The loop leaves [shapeIndex] at its initial value or at an index it has
    visited. *)
Lemma nearest_loop_index (origin direction : Vec) (shapes : list Shape) :
  forall (index : Z) (st : Nearest),
    shapeIndex (nearest_loop origin direction index shapes st) = shapeIndex st \/
    (index <= shapeIndex (nearest_loop origin direction index shapes st)
       < index + Z.of_nat (length shapes))%Z.
Proof.
  induction shapes as [|shape rest IH]; intros index st; simpl.
  - left; reflexivity.
  - specialize (IH (index + 1)%Z (nearest_step origin direction st index shape)).
    assert (Hstep : shapeIndex (nearest_step origin direction st index shape) = shapeIndex st
                    \/ shapeIndex (nearest_step origin direction st index shape) = index).
    { unfold nearest_step. destruct (Shape_intersects shape origin direction); auto.
      destruct (fge _ _); auto. }
    destruct IH as [IH|IH]; [rewrite IH; destruct Hstep as [->| ->]; [auto|right; lia]|right; lia].
Qed.

(** After the loop [shapeIndex] is -1 or a valid index of [shapes]. *)
Lemma nearest_index_range (origin direction : Vec) (shapes : list Shape) :
  let st := nearest_loop origin direction 0 shapes nearest_init in
  shapeIndex st = (-1)%Z \/ (0 <= shapeIndex st < Z.of_nat (length shapes))%Z.
Proof.
  simpl. destruct (nearest_loop_index origin direction shapes 0 nearest_init) as [H|H].
  - left. rewrite H. reflexivity.
  - right. lia.
Qed.

(** A step on a shape that reports no intersection changes nothing. *)
Lemma nearest_loop_no_hit (origin direction : Vec) (shapes : list Shape) :
  (forall shape, In shape shapes -> Shape_intersects shape origin direction = None) ->
  forall index st, nearest_loop origin direction index shapes st = st.
Proof.
  induction shapes as [|shape rest IH]; intros Hnone index st; simpl.
  - reflexivity.
  - unfold nearest_step. rewrite (Hnone shape (or_introl eq_refl)).
    apply IH. intros s Hs. apply Hnone. right; exact Hs.
Qed.

(** ** Termination of cast *)

Lemma allBut_one_removed (shapes : list Shape) (index : Z) (shape : Shape) :
  nth_error shapes (Z.to_nat index) = Some shape ->
  shapes = firstn (Z.to_nat index) shapes ++ shape :: skipn (S (Z.to_nat index)) shapes /\
  allBut shapes index = firstn (Z.to_nat index) shapes ++ skipn (S (Z.to_nat index)) shapes /\
  S (length (allBut shapes index)) = length shapes.
Proof.
  intros H. destruct (removeAt_split shapes _ H) as [E _].
  repeat split; [exact E|].
  apply removeAt_length. apply nth_error_Some. rewrite H. discriminate.
Qed.

(** The shape at the index the first loop found, when it found one. *)
Lemma nearest_shape (origin direction : Vec) (shapes : list Shape) :
  let st := nearest_loop origin direction 0 shapes nearest_init in
  (shapeIndex st <? 0)%Z = false ->
  exists shape, nth_error shapes (Z.to_nat (shapeIndex st)) = Some shape.
Proof.
  intros st Hge. destruct (nearest_index_range origin direction shapes) as [H|H];
    fold st in H.
  - rewrite H in Hge. discriminate.
  - destruct (nth_error shapes (Z.to_nat (shapeIndex st))) as [shape|] eqn:E.
    + exists shape; reflexivity.
    + apply nth_error_None in E. lia.
Qed.

(** With more fuel than surfaces [cast_fuel] returns, its nested invocations
    narrow the surface set one element at a time, and there are at most as
    many of them as surfaces. *)
Lemma cast_fuel_enough (lights : list Light) (colorOnMiss colorOnFullShade : Color) :
  forall (fuel : nat) (shapes : list Shape) (origin direction : Vec),
    length shapes < fuel ->
    exists color calls,
      cast_fuel fuel shapes lights origin direction colorOnMiss colorOnFullShade
        = Some (color, calls) /\
      narrowing shapes calls /\ length calls <= length shapes.
Proof.
  induction fuel as [|fuel IH]; intros shapes origin direction Hfuel; [lia|].
  simpl. destruct (_ <? 0)%Z eqn:Hidx.
  - exists colorOnMiss, []. simpl. repeat split; lia.
  - destruct (nearest_shape origin direction shapes Hidx) as [shape Hshape].
    rewrite Hshape.
    destruct (allBut_one_removed shapes _ Hshape) as (Hs & Ha & Hlen).
    destruct (fgt (Shape_mirror shape) (of_int 0)).
    + destruct (IH (allBut shapes (shapeIndex (nearest_loop origin direction 0 shapes nearest_init)))
                  (intersectionOrigin (nearest_loop origin direction 0 shapes nearest_init))
                  (reflectionDirection (nearest_loop origin direction 0 shapes nearest_init)))
        as (c & calls & -> & Hn & Hl); [lia|].
      eexists _, _. split; [reflexivity|]. simpl. split; [split; [|exact Hn]|lia].
      eexists _, shape, _. split; [exact Hs|exact Ha].
    + eexists _, _. split; [reflexivity|]. simpl. split; [exact I|lia].
Qed.

(** The equation [cast] satisfies: the body of the C++ function, with the
    recursive call as a call of [cast] itself. *)
Lemma cast_calls_equation (shapes : list Shape) (lights : list Light)
  (origin direction : Vec) (colorOnMiss colorOnFullShade : Color) :
  cast_calls shapes lights origin direction colorOnMiss colorOnFullShade =
  let st := nearest_loop origin direction 0 shapes nearest_init in
  if (shapeIndex st <? 0)%Z then Some (colorOnMiss, [])
  else
    match nth_error shapes (Z.to_nat (shapeIndex st)) with
    | None => None
    | Some shape =>
        let otherShapes := allBut shapes (shapeIndex st) in
        let colorSelf :=
          if fgt (Shape_mirror shape) (of_int 0) then
            match cast_calls otherShapes lights (intersectionOrigin st)
                    (reflectionDirection st) colorOnMiss colorOnFullShade with
            | None => None
            | Some (colorMirrored, calls) =>
                Some (blend (Shape_color shape) colorMirrored (Shape_mirror shape),
                      otherShapes :: calls)
            end
          else Some (Shape_color shape, []) in
        match colorSelf with
        | None => None
        | Some (colorSelf, calls) =>
            Some (vmul colorSelf
                    (light_loop otherShapes lights (intersectionOrigin st)
                       (normalDirection st) colorOnFullShade), calls)
        end
    end.
Proof.
  unfold cast_calls at 1. simpl. destruct (_ <? 0)%Z; [reflexivity|].
  destruct (nth_error _ _) as [shape|] eqn:Hshape; [|reflexivity].
  destruct (allBut_one_removed shapes _ Hshape) as (_ & _ & Hlen).
  unfold cast_calls. rewrite Hlen. reflexivity.
Qed.

(** More fuel than [S (length shapes)] changes nothing. *)
Lemma cast_fuel_independent (lights : list Light) (colorOnMiss colorOnFullShade : Color) :
  forall (fuel : nat) (shapes : list Shape) (origin direction : Vec),
    length shapes < fuel ->
    cast_fuel fuel shapes lights origin direction colorOnMiss colorOnFullShade =
    cast_calls shapes lights origin direction colorOnMiss colorOnFullShade.
Proof.
  induction fuel as [|fuel IH]; intros shapes origin direction Hfuel; [lia|].
  rewrite cast_calls_equation. cbv zeta. simpl.
  destruct (_ <? 0)%Z; [reflexivity|].
  destruct (nth_error _ _) as [shape|] eqn:Hshape; [|reflexivity].
  destruct (allBut_one_removed shapes _ Hshape) as (_ & _ & Hlen).
  rewrite IH by lia. reflexivity.
Qed.

(** ** The loop over the lights *)

Lemma isBlocked_iff (otherShapes : list Shape) (intersectionOrigin : Vec) (light : Light) :
  isBlocked otherShapes intersectionOrigin light = true <->
  exists otherShape,
    In otherShape otherShapes /\
    hits otherShape intersectionOrigin
      (normalized (vsub intersectionOrigin (Light_center light))) = true.
Proof. unfold isBlocked. apply existsb_exists. Qed.

(** The lights that are blocked can be left out of the loop. *)
Lemma light_loop_filter (otherShapes : list Shape) (intersectionOrigin normalDirection : Vec) :
  forall (lights : list Light) (colorMask : Color),
    fold_left (light_step otherShapes intersectionOrigin normalDirection) lights colorMask =
    fold_left (light_step otherShapes intersectionOrigin normalDirection)
      (filter (fun light => negb (isBlocked otherShapes intersectionOrigin light)) lights)
      colorMask.
Proof.
  induction lights as [|light lights IH]; intros colorMask; simpl; [reflexivity|].
  destruct (isBlocked otherShapes intersectionOrigin light) eqn:Hb; simpl.
  - unfold light_step at 2. rewrite Hb. apply IH.
  - apply IH.
Qed.

(** ** The claims about cast *)

(** C3.  [cast] terminates on every scene and every ray: with the fuel
    [S (length shapes)], and with any larger one, it returns a colour; every
    nested invocation receives the surface set of its caller without one
    surface, so there are at most as many nested invocations as surfaces;
    and when there is a nested invocation, the surface left out of the first
    one is the one at the index of the nearest hit. *)
Theorem cast_terminates (shapes : list Shape) (lights : list Light)
  (origin direction : Vec) (colorOnMiss colorOnFullShade : Color) :
  exists color calls,
    cast_calls shapes lights origin direction colorOnMiss colorOnFullShade
      = Some (color, calls) /\
    (forall fuel, length shapes < fuel ->
       cast_fuel fuel shapes lights origin direction colorOnMiss colorOnFullShade
         = Some (color, calls)) /\
    narrowing shapes calls /\
    length calls <= length shapes /\
    (calls = [] \/
     exists shape rest,
       let index := shapeIndex (nearest_loop origin direction 0 shapes nearest_init) in
       nth_error shapes (Z.to_nat index) = Some shape /\
       calls = allBut shapes index :: rest /\
       S (length (allBut shapes index)) = length shapes).
Proof.
  destruct (cast_fuel_enough lights colorOnMiss colorOnFullShade (fuel := S (length shapes))
              shapes origin direction (Nat.lt_succ_diag_r _))
    as (color & calls & Hc & Hn & Hl).
  exists color, calls. fold (cast_calls shapes lights origin direction colorOnMiss
                               colorOnFullShade) in Hc.
  split; [exact Hc|]. split.
  { intros fuel Hfuel. rewrite cast_fuel_independent by exact Hfuel. exact Hc. }
  repeat split; try assumption.
  rewrite cast_calls_equation in Hc. cbv zeta in Hc.
  destruct (_ <? 0)%Z; [injection Hc as _ <-; left; reflexivity|].
  destruct (nth_error _ _) as [shape|] eqn:Hshape; [|discriminate].
  destruct (fgt _ _).
  - destruct (cast_calls (allBut _ _) _ _ _ _ _) as [[c' calls']|]; [|discriminate].
    injection Hc as _ <-. right. exists shape, calls'. cbv zeta.
    repeat split; [exact Hshape|].
    apply (allBut_one_removed shapes _ Hshape).
  - injection Hc as _ <-. left; reflexivity.
Qed.

(** C5.  [cast] returns a colour on every input (no failure, whatever the
    vectors and the sets are); on an empty surface set, and more generally
    whenever no surface of the set reports an intersection with the ray, that
    colour is [colorOnMiss]. *)
Theorem cast_miss (shapes : list Shape) (lights : list Light)
  (origin direction : Vec) (colorOnMiss colorOnFullShade : Color) :
  (exists color,
     cast shapes lights origin direction colorOnMiss colorOnFullShade = Some color) /\
  (shapes = [] ->
   cast shapes lights origin direction colorOnMiss colorOnFullShade = Some colorOnMiss) /\
  ((forall shape, In shape shapes -> hits shape origin direction = false) ->
   cast shapes lights origin direction colorOnMiss colorOnFullShade = Some colorOnMiss).
Proof.
  assert (Hmiss : (forall shape, In shape shapes -> hits shape origin direction = false) ->
            cast shapes lights origin direction colorOnMiss colorOnFullShade
              = Some colorOnMiss).
  { intros Hnone. unfold cast. rewrite cast_calls_equation. cbv zeta.
    rewrite nearest_loop_no_hit; [reflexivity|].
    intros shape Hin. specialize (Hnone shape Hin). unfold hits in Hnone.
    destruct (Shape_intersects shape origin direction); [discriminate|reflexivity]. }
  split; [|split].
  - destruct (cast_fuel_enough lights colorOnMiss colorOnFullShade (fuel := S (length shapes))
                shapes origin direction (Nat.lt_succ_diag_r _)) as (color & calls & Hc & _).
    exists color. unfold cast, cast_calls. rewrite Hc. reflexivity.
  - intros ->. apply Hmiss. intros shape [].
  - exact Hmiss.
Qed.

(** C9.  When the first loop found a nearest hit, on the surface [shape]:
    if [shape->mirror > 0] is false (as it is for a mirror fraction of 0),
    [cast] makes no nested invocation and the colour it multiplies with the
    colour mask is [shape->color] itself; if [shape->mirror > 0] is true,
    [cast] makes the nested invocation, on the other surfaces, from the hit
    point in the reflected direction, and blends its result.  Without a hit
    there is no nested invocation either. *)
Theorem cast_mirror_recursion (shapes : list Shape) (lights : list Light)
  (origin direction : Vec) (colorOnMiss colorOnFullShade : Color) :
  let st := nearest_loop origin direction 0 shapes nearest_init in
  let otherShapes := allBut shapes (shapeIndex st) in
  let colorMask :=
    light_loop otherShapes lights (intersectionOrigin st) (normalDirection st)
      colorOnFullShade in
  ((shapeIndex st <? 0)%Z = true ->
   cast_calls shapes lights origin direction colorOnMiss colorOnFullShade
     = Some (colorOnMiss, [])) /\
  (forall shape,
     (shapeIndex st <? 0)%Z = false ->
     nth_error shapes (Z.to_nat (shapeIndex st)) = Some shape ->
     (fgt (Shape_mirror shape) (of_int 0) = false ->
      cast_calls shapes lights origin direction colorOnMiss colorOnFullShade
        = Some (vmul (Shape_color shape) colorMask, [])) /\
     (fgt (Shape_mirror shape) (of_int 0) = true ->
      exists colorMirrored calls,
        cast_calls otherShapes lights (intersectionOrigin st) (reflectionDirection st)
          colorOnMiss colorOnFullShade = Some (colorMirrored, calls) /\
        cast_calls shapes lights origin direction colorOnMiss colorOnFullShade
          = Some (vmul (blend (Shape_color shape) colorMirrored (Shape_mirror shape))
                    colorMask,
                  otherShapes :: calls))).
Proof.
  intros st otherShapes colorMask. split.
  - intros Hidx. rewrite cast_calls_equation. cbv zeta. fold st. rewrite Hidx. reflexivity.
  - intros shape Hidx Hshape. split; intros Hmirror.
    + rewrite cast_calls_equation. cbv zeta. fold st. rewrite Hidx, Hshape, Hmirror.
      reflexivity.
    + destruct (cast_fuel_enough lights colorOnMiss colorOnFullShade
                  (fuel := S (length otherShapes)) otherShapes (intersectionOrigin st)
                  (reflectionDirection st) (Nat.lt_succ_diag_r _))
        as (colorMirrored & calls & Hc & _).
      fold (cast_calls otherShapes lights (intersectionOrigin st) (reflectionDirection st)
              colorOnMiss colorOnFullShade) in Hc.
      exists colorMirrored, calls. split; [exact Hc|].
      rewrite cast_calls_equation. cbv zeta. fold st. rewrite Hidx, Hshape, Hmirror.
      fold otherShapes. rewrite Hc. reflexivity.
Qed.

(** C4.  In [cast], with [otherShapes] the surfaces other than the hit one:
    a light for which some surface of [otherShapes] reports an intersection
    with the shadow ray (from the hit point, in direction
    [normalized (hit point - light->center)]) leaves the colour mask as it is, so
    the mask is the one that the lights that are not blocked produce; and
    when [shape->mirror > 0] is false for the hit surface and the only light
    is blocked, [cast] returns [shape->color * colorOnFullShade]. *)
Theorem cast_shadow (shapes : list Shape) (lights : list Light)
  (origin direction : Vec) (colorOnMiss colorOnFullShade : Color) :
  let st := nearest_loop origin direction 0 shapes nearest_init in
  let otherShapes := allBut shapes (shapeIndex st) in
  let blocked light :=
    exists otherShape,
      In otherShape otherShapes /\
      hits otherShape (intersectionOrigin st)
        (normalized (vsub (intersectionOrigin st) (Light_center light))) = true in
  (forall light colorMask,
     blocked light ->
     light_step otherShapes (intersectionOrigin st) (normalDirection st) colorMask light
       = colorMask) /\
  light_loop otherShapes lights (intersectionOrigin st) (normalDirection st)
    colorOnFullShade
  = light_loop otherShapes
      (filter (fun light => negb (isBlocked otherShapes (intersectionOrigin st) light))
         lights)
      (intersectionOrigin st) (normalDirection st) colorOnFullShade /\
  (forall shape light,
     (shapeIndex st <? 0)%Z = false ->
     nth_error shapes (Z.to_nat (shapeIndex st)) = Some shape ->
     fgt (Shape_mirror shape) (of_int 0) = false ->
     lights = [light] ->
     blocked light ->
     cast shapes lights origin direction colorOnMiss colorOnFullShade
       = Some (vmul (Shape_color shape) colorOnFullShade)).
Proof.
  intros st otherShapes blocked.
  assert (Hstep : forall light colorMask, blocked light ->
            light_step otherShapes (intersectionOrigin st) (normalDirection st) colorMask
              light = colorMask).
  { intros light colorMask Hb. apply isBlocked_iff in Hb.
    unfold light_step. rewrite Hb. reflexivity. }
  split; [exact Hstep|]. split; [apply light_loop_filter|].
  intros shape light Hidx Hshape Hmirror -> Hb.
  unfold cast. rewrite cast_calls_equation. cbv zeta. fold st.
  rewrite Hidx, Hshape, Hmirror. fold otherShapes. simpl.
  unfold light_loop. simpl. rewrite (Hstep light colorOnFullShade Hb). reflexivity.
Qed.

(** ** Sphere::intersects and Bulb::power, case by case *)

(** C1.  [Sphere::intersects] is the quadratic solve of the specification:
    with [m = origin - center], [b = dot(direction, m)] and
    [c = dot(m, m) - radius^2], it reports no intersection when [c > 0] and
    [b > 0], it reports no intersection when [b^2 - c < 0], and in every other
    case it reports a hit at [origin + direction * t] for
    [t = max(0, -b - sqrt(b^2 - c))] ([std::max], which gives its first
    argument unless the second is greater), with the normal and the reflected
    direction computed from that point. *)
Theorem Sphere_intersects_quadratic (center_ : Vec) (radius_ : F) (origin direction : Vec) :
  let m := vsub origin center_ in
  let b := dotProduct direction m in
  let c := fsub (dotProduct m m) (fmul radius_ radius_) in
  let discr := fsub (fmul b b) c in
  let x := fsub (fneg b) (fsqrt discr) in
  let t := if flt (of_int 0) x then x else of_int 0 in
  let point := vadd origin (vscale direction t) in
  let n := normalized (vsub point center_) in
  (flt (of_int 0) c = true -> flt (of_int 0) b = true ->
   Sphere_intersects center_ radius_ origin direction = None) /\
  (flt discr (of_int 0) = true ->
   Sphere_intersects center_ radius_ origin direction = None) /\
  (flt (of_int 0) c && flt (of_int 0) b = false -> flt discr (of_int 0) = false ->
   Sphere_intersects center_ radius_ origin direction =
   Some {| intersection := point; normal := n;
           reflection :=
             vsub direction (vscale (vscale n (of_int 2)) (dotProduct direction n)) |}).
Proof.
  cbv zeta. unfold Sphere_intersects, fgt, fmax. repeat split.
  - intros -> ->. reflexivity.
  - intros Hd. destruct (_ && _); [reflexivity|]. rewrite Hd. reflexivity.
  - intros -> ->. reflexivity.
Qed.

End Structure.

(** * Signs in IEEE arithmetic *)

(** The facts below hold for both formats: they only follow the sign through
    the operations of [SpecFloat]. *)

Section Signs.

Variables prec emax : Z.

Lemma nan_or_pzero_sign (x : spec_float) : nan_or_pzero x -> nan_or_sign false x.
Proof. destruct x as [[|]|[|]| |[|] m e]; simpl; easy. Qed.

Lemma nan_or_pzero_zero (x : spec_float) : nan_or_pzero x -> nan_or_zero x.
Proof. destruct x as [[|]|[|]| |[|] m e]; simpl; easy. Qed.

Lemma binary_round_aux_sign (s : bool) (m e : Z) (l : location) :
  nan_or_sign s (binary_round_aux prec emax s m e l).
Proof.
  unfold binary_round_aux.
  destruct (shr_fexp prec emax m e l) as [mrs' e'].
  destruct (shr_fexp prec emax _ e' loc_Exact) as [mrs'' e''].
  destruct (shr_m mrs''); simpl; [reflexivity| |exact I].
  destruct (Z.leb _ _); reflexivity.
Qed.

Lemma binary_round_sign (s : bool) (m : positive) (e : Z) :
  nan_or_sign s (binary_round prec emax s m e).
Proof.
  unfold binary_round. destruct (shl_align _ _ _) as [mz ez].
  apply binary_round_aux_sign.
Qed.

(** A square is NaN or has a clear sign bit. *)
Lemma SFmul_self_sign (x : spec_float) : nan_or_sign false (SFmul prec emax x x).
Proof.
  destruct x as [[|]|[|]| |[|] m e]; simpl; try easy; apply binary_round_aux_sign.
Qed.

(** [x - y] for [x] NaN or non-negative and [y] NaN or non-positive. *)
Lemma SFsub_sign (x y : spec_float) :
  nan_or_sign false x -> nan_or_nonpos y -> nan_or_sign false (SFsub prec emax x y).
Proof.
  destruct x as [[|]|[|]| |[|] mx ex]; destruct y as [[|]|[|]| |[|] my ey];
    simpl; try easy.
  intros _ _. destruct (shl_align mx ex _) as [ax ?], (shl_align my ey _) as [ay ?].
  simpl. apply binary_round_sign.
Qed.

(** [x - y] for [x] NaN or a zero and [y] NaN or non-negative. *)
Lemma SFsub_nonpos (x y : spec_float) :
  nan_or_zero x -> nan_or_sign false y -> nan_or_nonpos (SFsub prec emax x y).
Proof.
  destruct x as [[|]|[|]| |[|] mx ex]; destruct y as [[|]|[|]| |[|] my ey];
    simpl; easy.
Qed.

Lemma SFsqrt_sign (x : spec_float) :
  nan_or_sign false x -> nan_or_sign false (SFsqrt prec emax x).
Proof.
  destruct x as [[|]|[|]| |[|] m e]; simpl; try easy.
  intros _. destruct (SFsqrt_core_binary prec emax (Z.pos m) e) as [[mz ez] lz].
  apply binary_round_aux_sign.
Qed.

Lemma SFopp_zero (x : spec_float) : nan_or_zero x -> nan_or_zero (SFopp x).
Proof. destruct x as [[|]|[|]| |[|] m e]; simpl; easy. Qed.

(** [x - x] is NaN or [+0]. *)
Lemma SFsub_self (x : spec_float) : nan_or_pzero (SFsub prec emax x x).
Proof.
  destruct x as [[|]|[|]| |[|] m e]; simpl; try easy;
    destruct (shl_align m e _) as [a ?]; simpl; rewrite Z.pos_sub_diag; exact I.
Qed.

(** A product with NaN or a zero is NaN or a zero; the square of NaN or [+0]
    is NaN or [+0]. *)
Lemma SFmul_zero (x y : spec_float) : nan_or_zero y -> nan_or_zero (SFmul prec emax x y).
Proof.
  destruct x as [[|]|[|]| |[|] mx ex]; destruct y as [[|]|[|]| |[|] my ey]; simpl; easy.
Qed.

Lemma SFmul_pzero (x : spec_float) : nan_or_pzero x -> nan_or_pzero (SFmul prec emax x x).
Proof. destruct x as [[|]|[|]| |[|] m e]; simpl; easy. Qed.

Lemma SFadd_zero (x y : spec_float) :
  nan_or_zero x -> nan_or_zero y -> nan_or_zero (SFadd prec emax x y).
Proof.
  destruct x as [[|]|[|]| |[|] mx ex]; destruct y as [[|]|[|]| |[|] my ey]; simpl; easy.
Qed.

Lemma SFadd_pzero (x y : spec_float) :
  nan_or_pzero x -> nan_or_pzero y -> nan_or_pzero (SFadd prec emax x y).
Proof.
  destruct x as [[|]|[|]| |[|] mx ex]; destruct y as [[|]|[|]| |[|] my ey]; simpl; easy.
Qed.

(** Comparisons with [+0]. *)
Lemma SFltb_sign (x : spec_float) :
  nan_or_sign false x -> SFltb x (S754_zero false) = false.
Proof. destruct x as [[|]|[|]| |[|] m e]; simpl; easy. Qed.

Lemma SFltb_nonpos (x : spec_float) :
  nan_or_nonpos x -> SFltb (S754_zero false) x = false.
Proof. destruct x as [[|]|[|]| |[|] m e]; simpl; easy. Qed.

Lemma SFleb_nonpos (x : spec_float) :
  SFleb x (S754_zero false) = true -> nan_or_nonpos x.
Proof. destruct x as [[|]|[|]| |[|] m e]; simpl; easy. Qed.

(** On finite numbers [(x + d * 0) - x] is [+0]. *)
Lemma SFround_trip_zero (x d : spec_float) :
  finite x -> finite d ->
  SFsub prec emax (SFadd prec emax x (SFmul prec emax d (S754_zero false))) x
  = S754_zero false.
Proof.
  destruct x as [[|]|[|]| |[|] mx ex]; destruct d as [[|]|[|]| |[|] md ed]; simpl; try easy;
    intros _ _; destruct (shl_align mx ex _) as [a ?]; simpl;
    rewrite Z.pos_sub_diag; reflexivity.
Qed.

End Signs.

(** * Sphere::intersects in binary32 *)

Section Binary32Sphere.

Variable normalized32 : QVector3D Binary32.float -> QVector3D Binary32.float.
Variable acos_in_domain : Binary32.float -> Binary32.float.

#[local] Instance ops32 : FloatOps Binary32.float Binary32.double :=
  Binary32.ops normalized32 acos_in_domain.

#[local] Abbreviation Vec32 := (QVector3D Binary32.float).

Lemma dotProduct_zero (d m : Vec32) :
  nan_or_zero (xp m) -> nan_or_zero (yp m) -> nan_or_zero (zp m) ->
  nan_or_zero (dotProduct d m).
Proof.
  intros Hx Hy Hz. unfold dotProduct. simpl.
  repeat apply SFadd_zero; apply SFmul_zero; assumption.
Qed.

Lemma dotProduct_self_pzero (m : Vec32) :
  nan_or_pzero (xp m) -> nan_or_pzero (yp m) -> nan_or_pzero (zp m) ->
  nan_or_pzero (dotProduct m m).
Proof.
  intros Hx Hy Hz. unfold dotProduct. simpl.
  repeat apply SFadd_pzero; apply SFmul_pzero; assumption.
Qed.

(** The three tests of [Sphere::intersects] for a ray that starts at the
    centre: no early rejection, no negative discriminant, and
    [-b - sqrt(discr)] is not greater than 0. *)
Lemma center_ray_tests (center : Vec32) (radius : Binary32.float) (direction : Vec32) :
  let m := vsub center center in
  let b := dotProduct direction m in
  let c := fsub (dotProduct m m) (fmul radius radius) in
  let discr := fsub (fmul b b) c in
  flt (of_int 0) c = false /\
  flt discr (of_int 0) = false /\
  flt (of_int 0) (fsub (fneg b) (fsqrt discr)) = false.
Proof.
  intros m b c discr.
  assert (Hm : nan_or_pzero (xp m) /\ nan_or_pzero (yp m) /\ nan_or_pzero (zp m)).
  { repeat split; apply SFsub_self. }
  destruct Hm as (Hx & Hy & Hz).
  assert (Hb : nan_or_zero b).
  { apply dotProduct_zero; apply nan_or_pzero_zero; assumption. }
  assert (Hc : nan_or_nonpos c).
  { apply SFsub_nonpos.
    - apply nan_or_pzero_zero, dotProduct_self_pzero; assumption.
    - apply SFmul_self_sign. }
  assert (Hd : nan_or_sign false discr).
  { apply SFsub_sign; [apply SFmul_self_sign|exact Hc]. }
  repeat split.
  - apply SFltb_nonpos, Hc.
  - apply SFltb_sign, Hd.
  - apply SFltb_nonpos, SFsub_nonpos; [apply SFopp_zero, Hb|apply SFsqrt_sign, Hd].
Qed.

(** C2, as the code has it.  A ray that starts at the centre of a sphere gets
    a hit with [t = 0], for every radius and every direction (NaN and
    infinities included): the hit point is [origin + direction * 0], and for
    finite coordinates it is at the centre itself ([hit - center] is the null
    vector), so that the normal is [normalized] of the null vector and not the
    direction of the ray. *)
Theorem intersects_from_center (center : Vec32) (radius : Binary32.float)
  (direction : Vec32) :
  let point := vadd center (vscale direction (of_int 0)) in
  let n := normalized (vsub point center) in
  Sphere_intersects center radius center direction =
    Some {| intersection := point; normal := n;
            reflection :=
              vsub direction (vscale (vscale n (of_int 2)) (dotProduct direction n)) |} /\
  (finite3 center -> finite3 direction -> vsub point center = vnull).
Proof.
  intros point n. split.
  - destruct (center_ray_tests center radius direction) as (Hc & Hd & Ht).
    unfold Sphere_intersects, fgt, fmax. cbv zeta.
    rewrite Hc, Hd, Ht. reflexivity.
  - intros (Hx & Hy & Hz) (Dx & Dy & Dz). unfold point, vsub, vadd, vscale, vnull. simpl.
    f_equal; apply SFround_trip_zero; assumption.
Qed.

(** A ray that starts inside or on the sphere ([c <= 0]) is not rejected. *)
Lemma inside_ray_hits (center : Vec32) (radius : Binary32.float)
  (origin direction : Vec32) :
  let m := vsub origin center in
  let c := fsub (dotProduct m m) (fmul radius radius) in
  fle c (of_int 0) = true ->
  exists h, Sphere_intersects center radius origin direction = Some h.
Proof.
  intros m c Hc. apply SFleb_nonpos in Hc.
  unfold Sphere_intersects, fgt. cbv zeta. fold m. fold c.
  replace (flt (of_int 0) c) with false by (symmetry; apply SFltb_nonpos, Hc).
  replace (flt (fsub (fmul (dotProduct direction m) (dotProduct direction m)) c) (of_int 0))
    with false
    by (symmetry; apply SFltb_sign, SFsub_sign; [apply SFmul_self_sign|exact Hc]).
  simpl. eexists; reflexivity.
Qed.

End Binary32Sphere.

(** * The formulas in exact arithmetic *)

Section ExactFormulas.

Variable normalizedR : QVector3D R -> QVector3D R.

#[local] Instance opsR : FloatOps R R := Exact.ops normalizedR.

#[local] Abbreviation VecR := (QVector3D R).

Open Scope R_scope.

Lemma Rltb_true (a b : R) : Exact.Rltb a b = true <-> a < b.
Proof. unfold Exact.Rltb. destruct (Rlt_dec a b); split; intros; easy. Qed.

Lemma Rltb_false (a b : R) : Exact.Rltb a b = false <-> b <= a.
Proof.
  unfold Exact.Rltb. destruct (Rlt_dec a b); split; intros; try easy; lra.
Qed.

Lemma Rleb_true (a b : R) : Exact.Rleb a b = true <-> a <= b.
Proof. unfold Exact.Rleb. destruct (Rle_dec a b); split; intros; easy. Qed.

(** [std::max] is the maximum. *)
Lemma fmax_exact (a b : R) : fmax a b = Rmax a b.
Proof.
  unfold fmax. simpl. unfold Exact.Rltb, Rmax.
  destruct (Rlt_dec a b), (Rle_dec a b); lra.
Qed.

(** A ray whose origin is inside or on the sphere is not rejected. *)
Lemma inside_ray_hits_exact (center : VecR) (radius : R) (origin direction : VecR) :
  let m := vsub origin center in
  dotProduct m m <= radius * radius ->
  exists h, Sphere_intersects center radius origin direction = Some h.
Proof.
  intros m Hin. unfold Sphere_intersects, fgt. cbv zeta. fold m.
  set (b := dotProduct direction m). set (c := fsub (dotProduct m m) (fmul radius radius)).
  assert (Hc : c <= 0) by (unfold c; simpl in *; lra).
  replace (flt (of_int 0) c) with false by (symmetry; apply Rltb_false; exact Hc).
  replace (flt (fsub (fmul b b) c) (of_int 0)) with false.
  - simpl. eexists; reflexivity.
  - symmetry. apply Rltb_false. simpl. nra.
Qed.

(** The mirror formula [d - 2 * n * dot(d, n)] for [n] of length 1. *)
Lemma mirror_formula (d n : VecR) :
  lengthSquared n = 1 ->
  let r := vsub d (vscale (vscale n (of_int 2)) (dotProduct d n)) in
  dotProduct r n = - dotProduct d n /\ lengthSquared r = lengthSquared d.
Proof.
  destruct n as [nx ny nz], d as [dx dy dz].
  unfold lengthSquared, dotProduct, vsub, vscale. simpl. intros Hn. split.
  - replace ((dx - nx * 2 * (dx * nx + dy * ny + dz * nz)) * nx +
             (dy - ny * 2 * (dx * nx + dy * ny + dz * nz)) * ny +
             (dz - nz * 2 * (dx * nx + dy * ny + dz * nz)) * nz)
      with ((dx * nx + dy * ny + dz * nz) * (1 - 2 * (nx * nx + ny * ny + nz * nz)))
      by ring.
    rewrite Hn. ring.
  - replace ((dx - nx * 2 * (dx * nx + dy * ny + dz * nz)) *
             (dx - nx * 2 * (dx * nx + dy * ny + dz * nz)) +
             (dy - ny * 2 * (dx * nx + dy * ny + dz * nz)) *
             (dy - ny * 2 * (dx * nx + dy * ny + dz * nz)) +
             (dz - nz * 2 * (dx * nx + dy * ny + dz * nz)) *
             (dz - nz * 2 * (dx * nx + dy * ny + dz * nz)))
      with (dx * dx + dy * dy + dz * dz
            + 4 * (dx * nx + dy * ny + dz * nz) * (dx * nx + dy * ny + dz * nz)
              * ((nx * nx + ny * ny + nz * nz) - 1))
      by ring.
    rewrite Hn. ring.
Qed.

(** The reflected direction of a hit with a normal of length 1. *)
Lemma reflection_exact (center : VecR) (radius : R) (origin direction : VecR) (h : Hit R) :
  Sphere_intersects center radius origin direction = Some h ->
  lengthSquared (normal h) = 1 ->
  dotProduct (reflection h) (normal h) = - dotProduct direction (normal h) /\
  lengthSquared (reflection h) = lengthSquared direction.
Proof.
  unfold Sphere_intersects. cbv zeta.
  destruct (_ && _); [discriminate|]. destruct (flt _ _); [discriminate|].
  intros [= <-]. cbn [normal reflection]. apply mirror_formula.
Qed.

End ExactFormulas.

(** * Rounding in SpecFloat *)

(** [binary_round_aux], through which every operation of [SpecFloat] rounds,
    yields a number of the format that is nearest to the exact value.  The
    section proves it for non-negative values, with what follows for the
    order of the results of [SFdiv], [SFsub] and the conversions. *)

Section Rounding.

Variables prec emax : Z.
Hypothesis prec_pos : (0 < prec)%Z.

#[local] Abbreviation fexp := (fexp prec emax).
#[local] Abbreviation emin := (emin prec emax).

Open Scope R_scope.

Lemma bpow_pos (e : Z) : 0 < bpow e.
Proof. apply powerRZ_lt. lra. Qed.

Lemma bpow_add (a b : Z) : bpow (a + b) = bpow a * bpow b.
Proof. apply powerRZ_add. lra. Qed.

Lemma bpow_0 : bpow 0 = 1.
Proof. reflexivity. Qed.

Lemma bpow_1 : bpow 1 = 2.
Proof. unfold bpow. simpl. lra. Qed.

Lemma bpow_succ (e : Z) : bpow (e + 1) = 2 * bpow e.
Proof. rewrite bpow_add, bpow_1. ring. Qed.

Lemma bpow_IZR (k : Z) : (0 <= k)%Z -> bpow k = IZR (2 ^ k).
Proof.
  intros Hk. unfold bpow. rewrite <- (Z2Nat.id k Hk) at 1.
  rewrite <- pow_powerRZ. rewrite pow_IZR. rewrite Z2Nat.id by exact Hk. reflexivity.
Qed.

Lemma bpow_ge_1 (k : Z) : (0 <= k)%Z -> 1 <= bpow k.
Proof.
  intros Hk. rewrite bpow_IZR by exact Hk. apply IZR_le.
  assert (0 < 2 ^ k)%Z by (apply Z.pow_pos_nonneg; lia). lia.
Qed.

Lemma bpow_le (a b : Z) : (a <= b)%Z -> bpow a <= bpow b.
Proof.
  intros Hab. replace b with (a + (b - a))%Z by lia. rewrite bpow_add.
  pose proof (bpow_pos a). assert (0 <= b - a)%Z as Hk by lia. pose proof (bpow_ge_1 Hk). nra.
Qed.

Lemma bpow_lt (a b : Z) : (a < b)%Z -> bpow a < bpow b.
Proof.
  intros Hab. apply Rlt_le_trans with (bpow (a + 1)).
  - rewrite bpow_succ. pose proof (bpow_pos a). lra.
  - apply bpow_le. lia.
Qed.

Lemma F2R_shift (m e k : Z) : (0 <= k)%Z -> F2R (m * 2 ^ k) e = F2R m (e + k).
Proof.
  intros Hk. unfold F2R. rewrite mult_IZR, bpow_add, <- bpow_IZR by exact Hk. ring.
Qed.

(** ** Digits *)

Lemma digits2_pos_bounds (p : positive) :
  (2 ^ (Z.pos (digits2_pos p) - 1) <= Z.pos p < 2 ^ Z.pos (digits2_pos p))%Z.
Proof.
  induction p as [p IH|p IH|]; simpl digits2_pos.
  - rewrite Pos2Z.inj_succ. replace (Z.succ (Z.pos (digits2_pos p)) - 1)%Z
      with (Z.succ (Z.pos (digits2_pos p) - 1))%Z by lia.
    rewrite !Z.pow_succ_r by lia. lia.
  - rewrite Pos2Z.inj_succ. replace (Z.succ (Z.pos (digits2_pos p)) - 1)%Z
      with (Z.succ (Z.pos (digits2_pos p) - 1))%Z by lia.
    rewrite !Z.pow_succ_r by lia. lia.
  - simpl. lia.
Qed.

Lemma Zdigits2_bounds (m : Z) :
  (0 < m)%Z -> (2 ^ (Zdigits2 m - 1) <= m < 2 ^ Zdigits2 m)%Z.
Proof. destruct m as [|p|p]; try lia. intros _. apply digits2_pos_bounds. Qed.

Lemma Zdigits2_pos (m : Z) : (0 < m)%Z -> (0 < Zdigits2 m)%Z.
Proof. destruct m; simpl; lia. Qed.

Lemma Zdigits2_unique (m d : Z) :
  (0 < m)%Z -> (2 ^ (d - 1) <= m < 2 ^ d)%Z -> Zdigits2 m = d.
Proof.
  intros Hm [Hlo Hhi]. pose proof (Zdigits2_bounds Hm) as [Hlo' Hhi'].
  pose proof (Zdigits2_pos Hm) as Hd.
  assert (Hd0 : (0 < d)%Z).
  { destruct d as [|p|p]; [simpl in Hhi; lia|lia|simpl in Hhi; lia]. }
  destruct (Z.lt_trichotomy (Zdigits2 m) d) as [H|[H|H]]; [|exact H|].
  - assert (2 ^ Zdigits2 m <= 2 ^ (d - 1))%Z by (apply Z.pow_le_mono_r; lia). lia.
  - assert (2 ^ d <= 2 ^ (Zdigits2 m - 1))%Z by (apply Z.pow_le_mono_r; lia). lia.
Qed.


(** ** Shifting right with the round and sticky bits *)

Lemma iter_pos_invariant {A : Type} (f : A -> A) (I : Z -> A -> Prop) :
  (forall k x, I k x -> I (k + 1)%Z (f x)) ->
  forall p k x, I k x -> I (k + Z.pos p)%Z (SpecFloat.iter_pos f p x).
Proof.
  intros Hstep. induction p as [p IH|p IH|]; intros k x Hx; simpl.
  - replace (k + Z.pos p~1)%Z with (k + 1 + Z.pos p + Z.pos p)%Z by lia.
    apply IH, IH, Hstep, Hx.
  - replace (k + Z.pos p~0)%Z with (k + Z.pos p + Z.pos p)%Z by lia.
    apply IH, IH, Hx.
  - apply Hstep, Hx.
Qed.

Lemma shr_1_fields (mrs : shr_record) :
  (0 <= shr_m mrs)%Z ->
  shr_1 mrs = {| shr_m := Z.div2 (shr_m mrs); shr_r := Z.odd (shr_m mrs);
                 shr_s := shr_r mrs || shr_s mrs |}.
Proof.
  destruct mrs as [m r s]. cbn [shr_m shr_r shr_s]. intros Hm.
  destruct m as [|[p|p|]|p]; try lia; reflexivity.
Qed.

Lemma shr_1_inbetween (mrs : shr_record) (e : Z) (v : R) :
  (0 <= shr_m mrs)%Z -> inbetween_rec mrs e v -> inbetween_rec (shr_1 mrs) (e + 1) v.
Proof.
  intros Hm. rewrite (shr_1_fields mrs Hm).
  destruct mrs as [m r s]. unfold inbetween_rec. cbn [shr_m shr_r shr_s] in *.
  pose proof (bpow_pos e) as HB. pose proof (Z.div2_odd m) as Hdiv.
  assert (HX : IZR m = 2 * IZR (Z.div2 m) + IZR (Z.b2z (Z.odd m))).
  { rewrite Hdiv at 1. rewrite plus_IZR, mult_IZR. reflexivity. }
  assert (HX1 : IZR (m + 1) = IZR m + 1) by (rewrite plus_IZR; reflexivity).
  assert (HY1 : IZR (Z.div2 m + 1) = IZR (Z.div2 m) + 1) by (rewrite plus_IZR; reflexivity).
  set (X := IZR (Z.div2 m)) in *. set (B := bpow e) in *.
  destruct (Z.odd m); cbn [Z.b2z] in HX;
    destruct r, s; cbn [orb loc_of_shr_record inbetween]; unfold F2R;
    rewrite ?bpow_succ; fold B; rewrite ?HX1, ?HY1, HX; fold X; intros H; nra.
Qed.

Lemma Zdigits2_div2 (m : Z) :
  (0 <= m)%Z ->
  (0 <= Z.div2 m)%Z /\
  ((0 < Z.div2 m /\ Zdigits2 (Z.div2 m) + 1 = Zdigits2 m)%Z \/
   (Z.div2 m = 0 /\ Zdigits2 m <= 1)%Z).
Proof.
  intros Hm. destruct m as [|[p|p|]|p]; try lia.
  - split; [reflexivity|]. right. split; [reflexivity|]. cbn. lia.
  - split; [cbn; lia|]. left. split; [cbn; lia|].
    cbn [Z.div2 Pos.div2 Zdigits2 digits2_pos]. rewrite Pos2Z.inj_succ. lia.
  - split; [cbn; lia|]. left. split; [cbn; lia|].
    cbn [Z.div2 Pos.div2 Zdigits2 digits2_pos]. rewrite Pos2Z.inj_succ. lia.
  - split; [cbn; lia|]. right. split; [reflexivity|]. cbn. lia.
Qed.

Lemma shr_1_state (m e : Z) (v : R) (k : Z) (mrs : shr_record) :
  shr_state m e v k mrs -> shr_state m e v (k + 1) (shr_1 mrs).
Proof.
  intros (Hm & Hin & Hd).
  pose proof (Zdigits2_div2 Hm) as (Hm' & Hd').
  split; [|split].
  - rewrite (shr_1_fields mrs Hm). exact Hm'.
  - rewrite Z.add_assoc. apply shr_1_inbetween; assumption.
  - rewrite (shr_1_fields mrs Hm). cbn [shr_m].
    destruct Hd as [[Hp Hd]|[Hz Hd]].
    + lia.
    + rewrite Hz in *. cbn in Hd' |- *. lia.
Qed.

Lemma shr_fexp_spec (m e : Z) (l : location) (v : R) :
  (0 <= m)%Z -> inbetween m e l v -> (e <= fexp (Zdigits2 m + e))%Z ->
  exists mrs,
    shr_fexp prec emax m e l = (mrs, fexp (Zdigits2 m + e)) /\
    (0 <= shr_m mrs)%Z /\
    inbetween_rec mrs (fexp (Zdigits2 m + e)) v /\
    ((0 < shr_m mrs /\
      Zdigits2 (shr_m mrs) + fexp (Zdigits2 m + e) = Zdigits2 m + e)%Z \/
     (shr_m mrs = 0 /\ Zdigits2 m + e <= fexp (Zdigits2 m + e))%Z).
Proof.
  intros Hm Hin He. unfold shr_fexp, shr.
  set (e' := fexp (Zdigits2 m + e)) in *.
  assert (H0 : shr_state m e v 0 (shr_record_of_loc m l)).
  { assert (Hsm : shr_m (shr_record_of_loc m l) = m)
      by (destruct l as [|[| |]]; reflexivity).
    split; [|split].
    - rewrite Hsm. exact Hm.
    - rewrite Z.add_0_r. unfold inbetween_rec. rewrite Hsm.
      destruct l as [|[| |]]; exact Hin.
    - rewrite Hsm. destruct (Z.eq_dec m 0) as [->|Hm0]; [right; cbn; lia|left; lia]. }
  destruct (e' - e)%Z as [|p|p] eqn:Hn; try lia.
  - exists (shr_record_of_loc m l). destruct H0 as (H1 & H2 & H3).
    replace e' with e by lia. rewrite Z.add_0_r in H2.
    split; [reflexivity|]. split; [exact H1|]. split; [exact H2|]. lia.
  - pose proof (@iter_pos_invariant _ shr_1 (shr_state m e v) (@shr_1_state m e v) p 0%Z _ H0)
      as (H1 & H2 & H3).
    simpl in H2, H3.
    exists (SpecFloat.iter_pos shr_1 p (shr_record_of_loc m l)).
    replace (e + Z.pos p)%Z with e' in * by lia.
    split; [reflexivity|]. split; [exact H1|]. split; [exact H2|]. lia.
Qed.


(** ** Rounding to nearest, ties to even *)

Lemma fexp_eq (x : Z) : fexp x = Z.max (x - prec) (3 - emax - prec).
Proof. reflexivity. Qed.

Lemma IZR_digits_lt (m : Z) : (0 < m)%Z -> IZR m < bpow (Zdigits2 m).
Proof.
  intros Hm. pose proof (Zdigits2_bounds Hm) as [_ H]. pose proof (Zdigits2_pos Hm).
  rewrite bpow_IZR by lia. apply IZR_lt. exact H.
Qed.

Lemma IZR_digits_ge (m : Z) : (0 < m)%Z -> bpow (Zdigits2 m - 1) <= IZR m.
Proof.
  intros Hm. pose proof (Zdigits2_bounds Hm) as [H _]. pose proof (Zdigits2_pos Hm).
  rewrite bpow_IZR by lia. apply IZR_le. exact H.
Qed.

(** No number in canonical form lies strictly between [m * 2^e] and
    [(m + 1) * 2^e] when [m] at [e] is canonical itself, or is 0 at the least
    exponent. *)
Lemma canonical_gap (m e mg eg : Z) :
  (0 <= m)%Z -> ((0 < m)%Z -> canonical prec emax m e) -> (m = 0%Z -> e = fexp e) ->
  canonical prec emax mg eg ->
  F2R mg eg <= F2R m e \/ F2R (m + 1) e <= F2R mg eg.
Proof.
  intros Hm Hcan Hzero [Hg Hcg].
  pose proof (bpow_pos e) as HB. pose proof (bpow_pos eg) as HBg.
  destruct (Z.le_gt_cases e eg) as [Hle|Hlt].
  - replace eg with (e + (eg - e))%Z by lia.
    rewrite <- F2R_shift by lia. set (K := (mg * 2 ^ (eg - e))%Z).
    unfold F2R. destruct (Z.le_gt_cases K m) as [HK|HK].
    + left. apply Rmult_le_compat_r; [lra|]. apply IZR_le. exact HK.
    + right. apply Rmult_le_compat_r; [lra|]. apply IZR_le. lia.
  - left.
    assert (Hmin : (3 - emax - prec <= eg)%Z).
    { rewrite fexp_eq in Hcg. lia. }
    assert (Hm0 : (0 < m)%Z).
    { destruct (Z.eq_dec m 0) as [H0|H0]; [|lia].
      specialize (Hzero H0). rewrite fexp_eq in Hzero. lia. }
    destruct (Hcan Hm0) as [_ Hc].
    assert (Hd : Zdigits2 m = prec).
    { rewrite fexp_eq in Hc. lia. }
    assert (Hdg : (Zdigits2 mg <= prec)%Z).
    { rewrite fexp_eq in Hcg. lia. }
    pose proof (IZR_digits_lt Hg) as H1. pose proof (IZR_digits_ge Hm0) as H2.
    rewrite Hd in H2.
    assert (H3 : bpow (Zdigits2 mg + eg) <= bpow (prec - 1 + e)) by (apply bpow_le; lia).
    rewrite !bpow_add in H3. unfold F2R.
    assert (H4 : IZR mg * bpow eg <= bpow (Zdigits2 mg) * bpow eg)
      by (apply Rmult_le_compat_r; lra).
    assert (H5 : bpow (prec - 1) * bpow e <= IZR m * bpow e)
      by (apply Rmult_le_compat_r; lra).
    lra.
Qed.

(** The rounded mantissa is the nearer of [m] and [m + 1], and so nearer than
    everything outside of the interval between them. *)
Lemma round_nearest_even_spec (m e : Z) (l : location) (v x : R) :
  inbetween m e l v ->
  x <= F2R m e \/ F2R (m + 1) e <= x ->
  (round_nearest_even m l = m \/ round_nearest_even m l = (m + 1)%Z) /\
  Rabs (F2R (round_nearest_even m l) e - v) <= Rabs (x - v).
Proof.
  intros Hin Hx. pose proof (bpow_pos e) as HB.
  assert (H1 : F2R (m + 1) e = F2R m e + bpow e)
    by (unfold F2R; rewrite plus_IZR; ring).
  assert (H2 : (IZR m + / 2) * bpow e = F2R m e + bpow e / 2)
    by (unfold F2R; field).
  destruct l as [|[| |]]; cbn [inbetween round_nearest_even] in *.
  - split; [now left|]. rewrite Hin, Rminus_diag, Rabs_R0. apply Rabs_pos.
  - split.
    + destruct (Z.even m); [now left|now right].
    + rewrite H2 in Hin.
      destruct (Z.even m); rewrite ?H1; unfold Rabs;
        repeat destruct Rcase_abs; lra.
  - split; [now left|]. rewrite H2 in Hin.
    unfold Rabs; repeat destruct Rcase_abs; lra.
  - split; [now right|]. rewrite H2, H1 in Hin. rewrite H1.
    unfold Rabs; repeat destruct Rcase_abs; lra.
Qed.


Lemma shr_fexp_exact_0 (m e : Z) :
  fexp (Zdigits2 m + e) = e ->
  shr_fexp prec emax m e loc_Exact = ({| shr_m := m; shr_r := false; shr_s := false |}, e).
Proof.
  intros H. unfold shr_fexp, shr. fold fexp. rewrite H, Z.sub_diag. reflexivity.
Qed.

Lemma shr_fexp_exact_1 (m e : Z) :
  (0 <= m)%Z -> Z.even m = true -> fexp (Zdigits2 m + e) = (e + 1)%Z ->
  shr_fexp prec emax m e loc_Exact
    = ({| shr_m := Z.div2 m; shr_r := false; shr_s := false |}, (e + 1)%Z).
Proof.
  intros Hm Hev H. unfold shr_fexp, shr. fold fexp. rewrite H.
  replace (e + 1 - e)%Z with 1%Z by lia. cbn [SpecFloat.iter_pos shr_record_of_loc].
  rewrite shr_1_fields by exact Hm. cbn [shr_m shr_r shr_s orb].
  rewrite <- Z.negb_even, Hev. reflexivity.
Qed.

(** [binary_round_aux] on a non-negative value [v] given by a mantissa with
    enough digits, an exponent and a location: the result has a mantissa 0 or
    in canonical form, and no such number is nearer to [v]. *)
Lemma binary_round_aux_spec (m e : Z) (l : location) (v : R) :
  (0 <= m)%Z -> inbetween m e l v -> (e <= fexp (Zdigits2 m + e))%Z ->
  exists mf ef,
    binary_round_aux prec emax false m e l = round_result prec emax mf ef /\
    (0 <= mf)%Z /\ (mf = 0%Z \/ canonical prec emax mf ef) /\
    forall mg eg, mg = 0%Z \/ canonical prec emax mg eg ->
      Rabs (F2R mf ef - v) <= Rabs (F2R mg eg - v).
Proof.
  intros Hm Hin He.
  destruct (@shr_fexp_spec m e l v Hm Hin He) as (mrs & Hshr & Hm' & Hin' & Hd).
  set (e' := fexp (Zdigits2 m + e)) in *.
  set (m' := shr_m mrs) in *. unfold inbetween_rec in Hin'. fold m' in Hin'.
  set (l' := loc_of_shr_record mrs) in *.
  assert (Hcan : (0 < m')%Z -> canonical prec emax m' e').
  { intros Hp. split; [exact Hp|]. destruct Hd as [[_ Hd]|[Hd _]]; [|lia].
    rewrite Hd. reflexivity. }
  assert (Hzero : m' = 0%Z -> e' = fexp e').
  { intros H0. destruct Hd as [[Hd _]|[_ Hd]]; [lia|].
    unfold e' in *. rewrite !fexp_eq in *. lia. }
  set (m'' := round_nearest_even m' l').
  assert (Hnear : forall mg eg, mg = 0%Z \/ canonical prec emax mg eg ->
            Rabs (F2R m'' e' - v) <= Rabs (F2R mg eg - v)).
  { intros mg eg Hg. apply round_nearest_even_spec; [exact Hin'|].
    destruct Hg as [->|Hg].
    - left. unfold F2R. rewrite Rmult_0_l. pose proof (bpow_pos e').
      apply Rmult_le_pos; [apply IZR_le; exact Hm'|lra].
    - apply canonical_gap; assumption. }
  assert (Hm'' : m'' = m' \/ m'' = (m' + 1)%Z).
  { apply (@round_nearest_even_spec m' e' l' v 0 Hin').
    left. unfold F2R. pose proof (bpow_pos e').
    apply Rmult_le_pos; [apply IZR_le; exact Hm'|lra]. }
  assert (Hfinal : exists mf ef,
            shr_fexp prec emax m'' e' loc_Exact
              = ({| shr_m := mf; shr_r := false; shr_s := false |}, ef) /\
            (0 <= mf)%Z /\ (mf = 0%Z \/ canonical prec emax mf ef) /\ F2R mf ef = F2R m'' e').
  { destruct (Z.eq_dec (fexp (Zdigits2 m'' + e')) e') as [Hsame|Hdiff].
    - exists m'', e'. split; [apply shr_fexp_exact_0; exact Hsame|].
      split; [lia|]. split; [|reflexivity].
      destruct (Z.eq_dec m'' 0) as [H0|H0]; [now left|right].
      split; [lia|exact Hsame].
    - assert (Hp : m'' = (m' + 1)%Z).
      { destruct Hm'' as [H|H]; [|exact H]. exfalso. apply Hdiff. rewrite H.
        destruct (Z.eq_dec m' 0) as [H0|H0].
        - rewrite H0. cbn [Zdigits2]. rewrite Z.add_0_l. symmetry. apply Hzero, H0.
        - apply Hcan. lia. }
      assert (Hcarry : m' = (2 ^ prec - 1)%Z /\ fexp (Zdigits2 m'' + e') = (e' + 1)%Z).
      { destruct (Z.eq_dec m' 0) as [H0|H0].
        - exfalso. apply Hdiff. rewrite Hp, H0. change (Zdigits2 (0 + 1)) with 1%Z.
          specialize (Hzero H0). rewrite !fexp_eq in *. lia.
        - assert (Hp' : (0 < m')%Z) by lia.
          destruct (Hcan Hp') as [_ Hc].
          pose proof (Zdigits2_bounds Hp') as [Hlo Hhi].
          pose proof (Zdigits2_pos Hp') as Hdpos.
          destruct (Z.eq_dec (m' + 1) (2 ^ Zdigits2 m')) as [Hpow|Hnpow].
          + assert (Hd'' : Zdigits2 m'' = (Zdigits2 m' + 1)%Z).
            { apply Zdigits2_unique; [lia|]. rewrite Hp, Hpow.
              replace (Zdigits2 m' + 1 - 1)%Z with (Zdigits2 m') by lia.
              split; [lia|]. apply Z.pow_lt_mono_r; lia. }
            rewrite Hd'' in Hdiff |- *. rewrite !fexp_eq in *.
            assert (Zdigits2 m' = prec) by lia.
            split; [rewrite <- H; lia|lia].
          + exfalso. apply Hdiff.
            assert (Hd'' : Zdigits2 m'' = Zdigits2 m').
            { apply Zdigits2_unique; lia. }
            rewrite Hd''. exact Hc. }
      destruct Hcarry as [Hm'eq Hfe].
      assert (Hm''eq : m'' = (2 ^ prec)%Z) by lia.
      exists (2 ^ (prec - 1))%Z, (e' + 1)%Z.
      assert (Hdiv : Z.div2 m'' = (2 ^ (prec - 1))%Z).
      { rewrite Hm''eq, Z.div2_div. replace prec with (prec - 1 + 1)%Z at 1 by lia.
        rewrite Z.pow_add_r by lia. apply Z.div_mul. lia. }
      assert (Hev : Z.even m'' = true).
      { rewrite Hm''eq. replace prec with (1 + (prec - 1))%Z by lia.
        rewrite Z.pow_add_r by lia. rewrite Z.even_mul. reflexivity. }
      split.
      + rewrite <- Hdiv. apply shr_fexp_exact_1; [lia|exact Hev|exact Hfe].
      + assert (Hpos : (0 < 2 ^ (prec - 1))%Z) by (apply Z.pow_pos_nonneg; lia).
        split; [lia|]. split.
        * right. split; [exact Hpos|].
          assert (Hdg : Zdigits2 (2 ^ (prec - 1)) = prec).
          { apply Zdigits2_unique; [exact Hpos|]. split; [lia|].
            apply Z.pow_lt_mono_r; lia. }
          rewrite Hdg. rewrite fexp_eq in Hfe |- *.
          assert (Zdigits2 m'' = (prec + 1)%Z).
          { apply Zdigits2_unique; [lia|]. rewrite Hm''eq.
            replace (prec + 1 - 1)%Z with prec by lia. split; [lia|].
            apply Z.pow_lt_mono_r; lia. }
          lia.
        * rewrite Hm''eq. rewrite <- (@F2R_shift (2 ^ (prec - 1)) e' 1%Z) by lia.
          f_equal. replace prec with (prec - 1 + 1)%Z at 2 by lia.
          rewrite Z.pow_add_r by lia. reflexivity. }
  destruct Hfinal as (mf & ef & Hshr2 & Hmf & Hcf & Hval).
  exists mf, ef. split; [|split; [exact Hmf|split; [exact Hcf|]]].
  - unfold binary_round_aux. rewrite Hshr. fold m' l' m''. rewrite Hshr2.
    cbn [shr_m]. unfold round_result. reflexivity.
  - intros mg eg Hg. rewrite Hval. apply Hnear. exact Hg.
Qed.


(** ** The order of the numbers of the format *)

Lemma canonical_lt_exp (m1 e1 m2 e2 : Z) :
  canonical prec emax m1 e1 -> canonical prec emax m2 e2 -> (e1 < e2)%Z -> F2R m1 e1 < F2R m2 e2.
Proof.
  intros [H1 Hc1] [H2 Hc2] He.
  assert (Hd2 : Zdigits2 m2 = prec) by (rewrite fexp_eq in Hc1, Hc2; lia).
  assert (Hd1 : (Zdigits2 m1 <= prec)%Z) by (rewrite fexp_eq in Hc1; lia).
  pose proof (IZR_digits_lt H1) as Hlt. pose proof (IZR_digits_ge H2) as Hge.
  rewrite Hd2 in Hge.
  pose proof (bpow_pos e1) as HB1. pose proof (bpow_pos e2) as HB2.
  assert (H3 : bpow (Zdigits2 m1 + e1) <= bpow (prec - 1 + e2)) by (apply bpow_le; lia).
  rewrite !bpow_add in H3. unfold F2R.
  assert (H4 : IZR m1 * bpow e1 < bpow (Zdigits2 m1) * bpow e1)
    by (apply Rmult_lt_compat_r; lra).
  assert (H5 : bpow (prec - 1) * bpow e2 <= IZR m2 * bpow e2)
    by (apply Rmult_le_compat_r; lra).
  lra.
Qed.

Lemma F2R_pos (m e : Z) : (0 < m)%Z -> 0 < F2R m e.
Proof.
  intros Hm. unfold F2R. apply Rmult_lt_0_compat; [apply IZR_lt; exact Hm|apply bpow_pos].
Qed.

Lemma repr_nonneg (x : spec_float) : repr prec emax x -> 0 <= B2R x.
Proof.
  destruct x as [s|s| |s m e]; simpl; try tauto; try lra.
  intros (-> & [Hm _] & _). simpl. left. apply F2R_pos. exact Hm.
Qed.

(** On the numbers of the format [SFcompare] is the comparison of the values,
    and equal values are equal data. *)
Lemma repr_compare (x y : spec_float) :
  repr prec emax x -> repr prec emax y ->
  (B2R x < B2R y /\ SFcompare x y = Some Lt) \/
  (x = y /\ SFcompare x y = Some Eq) \/
  (B2R y < B2R x /\ SFcompare x y = Some Gt).
Proof.
  destruct x as [sx|sx| |sx mx ex]; destruct y as [sy|sy| |sy my ey]; simpl repr;
    try tauto.
  - intros -> ->. right. left. split; reflexivity.
  - intros -> (-> & [Hm _] & _). left. split; [|reflexivity].
    simpl. apply F2R_pos. exact Hm.
  - intros (-> & [Hm _] & _) ->. right. right. split; [|reflexivity].
    simpl. apply F2R_pos. exact Hm.
  - intros (-> & Hcx & _) (-> & Hcy & _). cbn [SFcompare B2R cond_Zopp].
    destruct (Z.compare_spec ex ey) as [He|He|He].
    + subst ey. change (Pos.compare_cont Eq mx my) with (Pos.compare mx my).
      pose proof (bpow_pos ex) as HB.
      destruct (Pos.compare_spec mx my) as [Hm|Hm|Hm].
      * right. left. subst. split; reflexivity.
      * left. split; [|reflexivity]. unfold F2R. apply Rmult_lt_compat_r; [lra|].
        apply IZR_lt. lia.
      * right. right. split; [|reflexivity]. unfold F2R.
        apply Rmult_lt_compat_r; [lra|]. apply IZR_lt. lia.
    + left. split; [|reflexivity]. apply canonical_lt_exp; assumption.
    + right. right. split; [|reflexivity]. apply canonical_lt_exp; assumption.
Qed.

Lemma repr_leb (x y : spec_float) :
  repr prec emax x -> repr prec emax y -> (SFleb x y = true <-> B2R x <= B2R y).
Proof.
  intros Hx Hy. unfold SFleb.
  destruct (@repr_compare x y Hx Hy) as [[H ->]|[[H ->]|[H ->]]].
  - split; [lra|reflexivity].
  - subst. split; [lra|reflexivity].
  - split; [discriminate|lra].
Qed.

Lemma repr_ltb (x y : spec_float) :
  repr prec emax x -> repr prec emax y -> (SFltb x y = true <-> B2R x < B2R y).
Proof.
  intros Hx Hy. unfold SFltb.
  destruct (@repr_compare x y Hx Hy) as [[H ->]|[[H ->]|[H ->]]].
  - split; [lra|reflexivity].
  - subst. split; [discriminate|lra].
  - split; [discriminate|lra].
Qed.

Lemma repr_eq (x y : spec_float) : repr prec emax x -> repr prec emax y -> B2R x = B2R y -> x = y.
Proof.
  intros Hx Hy Heq.
  destruct (@repr_compare x y Hx Hy) as [[H _]|[[H _]|[H _]]]; [lra|exact H|lra].
Qed.

(** ** Nearest numbers *)

Lemma nearest_le (x b : spec_float) (v : R) :
  nearest prec emax x v -> repr prec emax b -> v <= B2R b -> B2R x <= B2R b.
Proof.
  intros [_ Hn] Hb Hv. specialize (Hn b Hb). revert Hn.
  unfold Rabs; repeat destruct Rcase_abs; lra.
Qed.

Lemma nearest_ge (x b : spec_float) (v : R) :
  nearest prec emax x v -> repr prec emax b -> B2R b <= v -> B2R b <= B2R x.
Proof.
  intros [_ Hn] Hb Hv. specialize (Hn b Hb). revert Hn.
  unfold Rabs; repeat destruct Rcase_abs; lra.
Qed.

Lemma nearest_monotone (x1 x2 : spec_float) (v1 v2 : R) :
  nearest prec emax x1 v1 -> nearest prec emax x2 v2 -> v1 < v2 -> B2R x1 <= B2R x2.
Proof.
  intros [Hr1 Hn1] [Hr2 Hn2] Hv.
  specialize (Hn1 x2 Hr2). specialize (Hn2 x1 Hr1). revert Hn1 Hn2.
  unfold Rabs; repeat destruct Rcase_abs; lra.
Qed.

Lemma nearest_id (x : spec_float) : repr prec emax x -> nearest prec emax x (B2R x).
Proof.
  intros Hx. split; [exact Hx|]. intros y _.
  rewrite Rminus_diag, Rabs_R0. apply Rabs_pos.
Qed.

(** [binary_round_aux] gives a nearest number of the format when the value
    is at most some number of the format (so that nothing overflows). *)
Lemma binary_round_aux_nearest (m e : Z) (l : location) (v : R) (b : spec_float) :
  (0 <= m)%Z -> inbetween m e l v -> (e <= fexp (Zdigits2 m + e))%Z ->
  repr prec emax b -> v <= B2R b ->
  nearest prec emax (binary_round_aux prec emax false m e l) v.
Proof.
  intros Hm Hin He Hb Hv.
  destruct (@binary_round_aux_spec m e l v Hm Hin He) as (mf & ef & Hres & Hmf & Hcf & Hn).
  rewrite Hres.
  assert (Hv0 : 0 <= v).
  { pose proof (bpow_pos e) as HB. assert (0 <= F2R m e)
      by (unfold F2R; apply Rmult_le_pos; [apply IZR_le; exact Hm|lra]).
    assert (H1 : F2R (m + 1) e = F2R m e + bpow e)
      by (unfold F2R; rewrite plus_IZR; ring).
    assert (H2 : (IZR m + / 2) * bpow e = F2R m e + bpow e / 2)
      by (unfold F2R; field).
    destruct l as [|[| |]]; cbn [inbetween] in Hin; rewrite ?H2, ?H1 in Hin; lra. }
  assert (Hbound : (0 < mf)%Z -> (ef <= emax - prec)%Z).
  { intros Hp. destruct Hcf as [H0|Hcf]; [lia|].
    destruct b as [sb|sb| |sb mb eb]; simpl in Hb; try tauto.
    - exfalso. simpl in Hv. specialize (Hn 0%Z 0%Z (or_introl eq_refl)).
      pose proof (@F2R_pos mf ef Hp) as Hpos.
      unfold F2R at 2 in Hn. rewrite Rmult_0_l in Hn. revert Hn.
      unfold Rabs; repeat destruct Rcase_abs; lra.
    - destruct Hb as (-> & Hcb & Heb). simpl in Hv.
      destruct (Z.le_gt_cases ef eb) as [Hle|Hgt]; [lia|]. exfalso.
      pose proof (@canonical_lt_exp (Z.pos mb) eb mf ef Hcb Hcf Hgt) as Hlt.
      specialize (Hn (Z.pos mb) eb (or_intror Hcb)). revert Hn.
      unfold Rabs; repeat destruct Rcase_abs; lra. }
  assert (Hrepr : repr prec emax (round_result prec emax mf ef) /\
                  B2R (round_result prec emax mf ef) = F2R mf ef).
  { unfold round_result. destruct mf as [|p|p]; try lia.
    - split; [reflexivity|]. unfold F2R. simpl. ring.
    - assert (Hp : (0 < Z.pos p)%Z) by lia. specialize (Hbound Hp).
      rewrite (proj2 (Z.leb_le _ _) Hbound).
      destruct Hcf as [H0|Hcf]; [lia|]. split; [|reflexivity].
      split; [reflexivity|]. split; assumption. }
  destruct Hrepr as [Hr Hval]. split; [exact Hr|].
  intros y Hy. rewrite Hval.
  destruct y as [sy|sy| |sy my ey]; simpl in Hy; try tauto.
  - replace (B2R (S754_zero sy)) with (F2R 0 0) by (unfold F2R; simpl; ring).
    apply Hn. now left.
  - destruct Hy as (-> & Hcy & _). apply Hn. right. exact Hcy.
Qed.


(** ** The operations *)

Lemma Pos_iter_xO (m d : positive) : Z.pos (Pos.iter xO m d) = (Z.pos m * 2 ^ Z.pos d)%Z.
Proof.
  induction d as [|d IH] using Pos.peano_ind.
  - cbn [Pos.iter]. rewrite Pos2Z.inj_xO. change (2 ^ 1)%Z with 2%Z. lia.
  - rewrite Pos.iter_succ, Pos2Z.inj_succ, Z.pow_succ_r by lia.
    rewrite Pos2Z.inj_xO, IH. ring.
Qed.

Lemma Zdigits2_shift (m k : Z) :
  (0 < m)%Z -> (0 <= k)%Z -> Zdigits2 (m * 2 ^ k) = (Zdigits2 m + k)%Z.
Proof.
  intros Hm Hk. pose proof (Zdigits2_bounds Hm) as [Hlo Hhi].
  pose proof (Zdigits2_pos Hm) as Hd.
  assert (Hp : (0 < 2 ^ k)%Z) by (apply Z.pow_pos_nonneg; lia).
  apply Zdigits2_unique; [nia|].
  replace (Zdigits2 m + k - 1)%Z with (Zdigits2 m - 1 + k)%Z by lia.
  rewrite !Z.pow_add_r by lia. split; nia.
Qed.

Lemma shl_align_spec (m : positive) (e t : Z) :
  exists m' e',
    shl_align m e t = (m', e') /\
    F2R (Z.pos m') e' = F2R (Z.pos m) e /\
    e' = Z.min e t /\
    (Zdigits2 (Z.pos m') + e' = Zdigits2 (Z.pos m) + e)%Z.
Proof.
  unfold shl_align. destruct (t - e)%Z as [|d|d] eqn:Hd.
  - exists m, e. repeat split; lia.
  - exists m, e. repeat split; lia.
  - exists (Pos.iter xO m d), t. split; [reflexivity|].
    rewrite Pos_iter_xO. split; [|split].
    + rewrite F2R_shift by lia. f_equal. lia.
    + lia.
    + rewrite Zdigits2_shift by lia. lia.
Qed.

Lemma binary_round_nearest (m : positive) (e : Z) (b : spec_float) :
  repr prec emax b -> F2R (Z.pos m) e <= B2R b ->
  nearest prec emax (binary_round prec emax false m e) (F2R (Z.pos m) e).
Proof.
  intros Hb Hv. unfold binary_round. fold fexp.
  destruct (shl_align_spec m e (fexp (Z.pos (digits2_pos m) + e)))
    as (m' & e' & -> & Hval & He' & Hd).
  apply binary_round_aux_nearest with (b := b); try assumption.
  - lia.
  - cbn [inbetween]. symmetry. exact Hval.
  - rewrite Hd. cbn [Zdigits2]. lia.
Qed.

Lemma binary_normalize_nearest (z e : Z) (b : spec_float) :
  (0 <= z)%Z -> repr prec emax b -> F2R z e <= B2R b ->
  nearest prec emax (binary_normalize prec emax z e false) (F2R z e).
Proof.
  intros Hz Hb Hv. destruct z as [|p|p]; try lia.
  - cbn [binary_normalize]. replace (F2R 0 e) with (B2R (S754_zero false))
      by (unfold F2R; simpl; ring).
    apply nearest_id. reflexivity.
  - cbn [binary_normalize]. apply binary_round_nearest with (b := b); assumption.
Qed.

Lemma new_location_spec (m2 r : Z) (q e : Z) :
  (0 < m2)%Z -> (0 <= r < m2)%Z ->
  inbetween q e (new_location m2 r) ((IZR q + IZR r / IZR m2) * bpow e).
Proof.
  intros Hm2 [Hr0 Hr1]. pose proof (bpow_pos e) as HB.
  assert (HM : 0 < IZR m2) by (apply IZR_lt; exact Hm2).
  set (t := IZR r / IZR m2).
  assert (Ht : IZR r = t * IZR m2) by (unfold t; field; lra).
  assert (H1 : F2R (q + 1) e = (IZR q + 1) * bpow e)
    by (unfold F2R; rewrite plus_IZR; reflexivity).
  assert (Hcases : (r = 0%Z /\ new_location m2 r = loc_Exact) \/
                   (0 < 2 * r < m2 /\ new_location m2 r = loc_Inexact Lt)%Z \/
                   ((2 * r = m2)%Z /\ new_location m2 r = loc_Inexact Eq) \/
                   (m2 < 2 * r /\ new_location m2 r = loc_Inexact Gt)%Z).
  { unfold new_location. destruct (Z.even m2) eqn:Hev.
    - unfold new_location_even. destruct (Z.eqb_spec r 0) as [H0|H0]; [now left|].
      right. destruct (Z.compare_spec (2 * r) m2) as [H|H|H].
      + right. left. split; [exact H|reflexivity].
      + left. split; [lia|reflexivity].
      + right. right. split; [lia|reflexivity].
    - unfold new_location_odd. destruct (Z.eqb_spec r 0) as [H0|H0]; [now left|].
      right. pose proof (Z.div2_odd m2) as Hodd.
      rewrite <- Z.negb_even, Hev in Hodd. cbn [negb Z.b2z] in Hodd.
      destruct (Z.compare_spec (2 * r + 1) m2) as [H|H|H].
      + left. split; [lia|reflexivity].
      + left. split; [lia|reflexivity].
      + right. right. split; [lia|reflexivity]. }
  destruct Hcases as [[H ->]|[[H ->]|[[H ->]|[H ->]]]]; cbn [inbetween]; unfold F2R.
  - assert (t = 0) by (apply IZR_eq in H; simpl in H; nra). subst t. nra.
  - destruct H as [Ha Hb]. apply IZR_lt in Ha, Hb. rewrite mult_IZR in Ha, Hb.
    simpl in Ha. assert (0 < t < / 2) by (split; nra). split; nra.
  - apply IZR_eq in H. rewrite mult_IZR in H. assert (t = / 2) by nra.
    rewrite H0. reflexivity.
  - fold (F2R (q + 1) e). rewrite H1. apply IZR_lt in H, Hr1. rewrite mult_IZR in H.
    assert (/ 2 < t < 1) by (split; nra). split; nra.
Qed.

Lemma Zdigits2_nonneg (m : Z) : (0 <= Zdigits2 m)%Z.
Proof. destruct m; simpl; lia. Qed.

Lemma Zdigits2_ge (q k : Z) : (2 ^ (k - 1) <= q)%Z -> (1 <= k)%Z -> (k <= Zdigits2 q)%Z.
Proof.
  intros Hq Hk.
  assert (Hp : (0 < 2 ^ (k - 1))%Z) by (apply Z.pow_pos_nonneg; lia).
  assert (Hq0 : (0 < q)%Z) by lia.
  pose proof (Zdigits2_bounds Hq0) as [_ Hhi].
  destruct (Z.le_gt_cases k (Zdigits2 q)) as [H|H]; [exact H|].
  assert (2 ^ Zdigits2 q <= 2 ^ (k - 1))%Z
    by (apply Z.pow_le_mono_r; [lia|lia]).
  lia.
Qed.

Lemma SFdiv_core_spec (m1 m2 : positive) (e1 e2 : Z) :
  exists q e' l,
    SFdiv_core_binary prec emax (Z.pos m1) e1 (Z.pos m2) e2 = (q, e', l) /\
    (0 <= q)%Z /\
    inbetween q e' l (F2R (Z.pos m1) e1 / F2R (Z.pos m2) e2) /\
    (e' <= fexp (Zdigits2 q + e'))%Z.
Proof.
  unfold SFdiv_core_binary. fold fexp.
  set (d1 := Zdigits2 (Z.pos m1)). set (d2 := Zdigits2 (Z.pos m2)).
  set (e' := Z.min (fexp (d1 + e1 - (d2 + e2))) (e1 - e2)).
  set (s := (e1 - e2 - e')%Z).
  assert (Hs : (0 <= s)%Z) by (unfold s, e'; lia).
  set (m' := match s with
             | 0%Z => Z.pos m1
             | Z.pos _ => Z.shiftl (Z.pos m1) s
             | Z.neg _ => 0%Z
             end).
  assert (Hm' : m' = (Z.pos m1 * 2 ^ s)%Z).
  { unfold m'. destruct s as [|p|p] eqn:Hsp; try lia.
    apply Z.shiftl_mul_pow2. lia. }
  clearbody m'.
  pose proof (Z_div_mod m' (Z.pos m2) ltac:(lia)) as Hdm.
  destruct (Z.div_eucl m' (Z.pos m2)) as [q r]. destruct Hdm as [Hdm Hr].
  assert (Hp : (0 < 2 ^ s)%Z) by (apply Z.pow_pos_nonneg; lia).
  assert (Hq : (0 <= q)%Z) by nia.
  exists q, e', (new_location (Z.pos m2) r). split; [reflexivity|]. split; [exact Hq|].
  split.
  - replace (F2R (Z.pos m1) e1 / F2R (Z.pos m2) e2)
      with ((IZR q + IZR r / IZR (Z.pos m2)) * bpow e').
    + apply new_location_spec; lia.
    + assert (HM : 0 < IZR (Z.pos m2)) by (apply IZR_lt; lia).
      pose proof (bpow_pos e2) as HB2. pose proof (bpow_pos e') as HB'.
      unfold F2R. replace e1 with (e2 + (e' + s))%Z at 1 by (unfold s; lia).
      rewrite !bpow_add. rewrite (bpow_IZR Hs).
      assert (HI : IZR (Z.pos m1) * IZR (2 ^ s) = IZR (Z.pos m2) * IZR q + IZR r)
        by (rewrite <- mult_IZR, <- Hm', Hdm, plus_IZR, mult_IZR; reflexivity).
      replace (IZR (Z.pos m1) * (bpow e2 * (bpow e' * IZR (2 ^ s)))
               / (IZR (Z.pos m2) * bpow e2))
        with ((IZR (Z.pos m1) * IZR (2 ^ s)) / IZR (Z.pos m2) * bpow e')
        by (field; split; lra).
      rewrite HI. field. lra.
  - assert (Hdq : (d1 + s - d2 <= Zdigits2 q)%Z).
    { destruct (Z.le_gt_cases (d1 + s - d2) 0) as [Hk|Hk].
      - pose proof (Zdigits2_nonneg q). lia.
      - apply Zdigits2_ge; [|lia].
        pose proof (@Zdigits2_bounds (Z.pos m1) ltac:(lia)) as [Hlo1 _].
        pose proof (@Zdigits2_bounds (Z.pos m2) ltac:(lia)) as [_ Hhi2].
        fold d1 in Hlo1. fold d2 in Hhi2.
        pose proof (@Zdigits2_pos (Z.pos m1) ltac:(lia)) as Hd1. fold d1 in Hd1.
        pose proof (@Zdigits2_pos (Z.pos m2) ltac:(lia)) as Hd2. fold d2 in Hd2.
        assert (Hpow : (2 ^ (d1 + s - d2 - 1) * 2 ^ d2 = 2 ^ (d1 - 1) * 2 ^ s)%Z).
        { rewrite <- !Z.pow_add_r by lia. f_equal. lia. }
        assert (Hk1 : (0 < 2 ^ (d1 + s - d2 - 1))%Z) by (apply Z.pow_pos_nonneg; lia).
        assert (Hlow : (2 ^ (d1 + s - d2 - 1) * Z.pos m2 <= m')%Z) by nia.
        destruct (Z.le_gt_cases (2 ^ (d1 + s - d2 - 1)) q) as [H|H]; [exact H|].
        exfalso. nia. }
    assert (Hmono : (fexp (d1 + e1 - (d2 + e2)) <= fexp (Zdigits2 q + e'))%Z).
    { rewrite !fexp_eq. unfold s in Hdq. lia. }
    unfold e' at 1. lia.
Qed.

Lemma SFdiv_nearest (x y b : spec_float) :
  repr prec emax x -> repr prec emax y -> 0 < B2R y -> repr prec emax b -> B2R x / B2R y <= B2R b ->
  nearest prec emax (SFdiv prec emax x y) (B2R x / B2R y).
Proof.
  intros Hx Hy Hy0 Hb Hv.
  destruct y as [sy|sy| |sy my ey]; simpl in Hy; try tauto; [simpl in Hy0; lra|].
  destruct Hy as (-> & Hcy & Hey).
  destruct x as [sx|sx| |sx mx ex]; simpl in Hx; try tauto.
  - subst sx. cbn [SFdiv xorb].
    replace (B2R (S754_zero false) / _) with (B2R (S754_zero false))
      by (simpl; unfold Rdiv; ring).
    apply nearest_id. reflexivity.
  - destruct Hx as (-> & Hcx & Hex). cbn [SFdiv xorb].
    destruct (SFdiv_core_spec mx my ex ey) as (q & e' & l & -> & Hq & Hin & He).
    cbn [B2R cond_Zopp] in *.
    apply binary_round_aux_nearest with (b := b); assumption.
Qed.

Lemma F2R_minus (a c e : Z) : F2R (a - c) e = F2R a e - F2R c e.
Proof. unfold F2R. rewrite minus_IZR. ring. Qed.

Lemma SFsub_nearest (x y : spec_float) :
  repr prec emax x -> repr prec emax y -> B2R y <= B2R x ->
  nearest prec emax (SFsub prec emax x y) (B2R x - B2R y).
Proof.
  intros Hx Hy Hle. pose proof (repr_nonneg y Hy) as Hy0.
  destruct x as [sx|sx| |sx mx ex]; simpl in Hx; try tauto;
    destruct y as [sy|sy| |sy my ey]; simpl in Hy; try tauto.
  - subst. cbn [SFsub]. replace (B2R (S754_zero false) - B2R (S754_zero false))
      with (B2R (S754_zero false)) by (simpl; ring).
    apply nearest_id. reflexivity.
  - exfalso. destruct Hy as (-> & [Hm _] & _). simpl in Hle.
    pose proof (@F2R_pos (Z.pos my) ey Hm). lra.
  - subst sy. cbn [SFsub].
    replace (B2R (S754_finite sx mx ex) - B2R (S754_zero false))
      with (B2R (S754_finite sx mx ex)) by (simpl; ring).
    apply nearest_id. exact Hx.
  - destruct Hx as (-> & Hcx & Hex). destruct Hy as (-> & Hcy & Hey).
    cbn [SFsub cond_Zopp B2R] in *.
    set (ez := Z.min ex ey).
    destruct (shl_align_spec mx ex ez) as (mx' & ex' & Hax & Hvx & Hex' & _).
    destruct (shl_align_spec my ey ez) as (my' & ey' & Hay & Hvy & Hey' & _).
    rewrite Hax, Hay. cbn [fst].
    assert (Hex'' : ex' = ez) by (unfold ez in *; lia).
    assert (Hey'' : ey' = ez) by (unfold ez in *; lia).
    clear Hex' Hey'. subst ex' ey'.
    rewrite <- Hvx, <- Hvy, <- F2R_minus.
    assert (Hz : (0 <= Z.pos mx' - Z.pos my')%Z).
    { rewrite <- Hvx, <- Hvy in Hle. unfold F2R in Hle.
      pose proof (bpow_pos ez) as HB.
      apply Rmult_le_reg_r in Hle; [|exact HB]. apply le_IZR in Hle. lia. }
    apply binary_normalize_nearest with (b := S754_finite false mx ex).
    + exact Hz.
    + split; [reflexivity|]. split; assumption.
    + rewrite F2R_minus, Hvx. cbn [B2R cond_Zopp].
      pose proof (@F2R_pos (Z.pos my') ez ltac:(lia)). lra.
Qed.

End Rounding.

(** * The falloff of Bulb::power in binary32 *)

Unset Implicit Arguments.

Ltac solve_repr := repeat split; try reflexivity; try (vm_compute; congruence).

Section Falloff32.

Import Binary32.

Variable normalized32 : QVector3D float -> QVector3D float.
Variable acos_in_domain : float -> float.

#[local] Instance opsF : FloatOps float double := ops normalized32 acos_in_domain.

Open Scope R_scope.

Lemma prec32_pos : (0 < prec32)%Z.
Proof. reflexivity. Qed.

Lemma prec64_pos : (0 < prec64)%Z.
Proof. reflexivity. Qed.

Lemma repr64_M_PI_2 : repr64 double_M_PI_2.
Proof. solve_repr. Qed.

Lemma repr64_one : repr64 (double_of_Z 1) /\ B2R (double_of_Z 1) = 1.
Proof.
  split; [solve_repr|].
  change (double_of_Z 1) with (S754_finite false (2 ^ 52) (-52)).
  cbn [B2R cond_Zopp]. change (Z.pos (2 ^ 52)) with (1 * 2 ^ 52)%Z.
  rewrite (@F2R_shift 1 (-52) 52) by lia. unfold F2R. simpl. lra.
Qed.

Lemma repr32_one : repr32 (float_of_Z 1) /\ B2R (float_of_Z 1) = 1.
Proof.
  split; [solve_repr|].
  change (float_of_Z 1) with (S754_finite false (2 ^ 23) (-23)).
  cbn [B2R cond_Zopp]. change (Z.pos (2 ^ 23)) with (1 * 2 ^ 23)%Z.
  rewrite (@F2R_shift 1 (-23) 23) by lia. unfold F2R. simpl. lra.
Qed.

Lemma repr_zero (prec emax : Z) : repr prec emax (S754_zero false).
Proof. reflexivity. Qed.

(** A valid datum other than NaN has an absolute value that is a number of
    the format or is infinite. *)
Lemma valid_abs (rad : float) :
  valid_binary prec32 emax32 rad = true -> rad <> S754_nan ->
  repr32 (SFabs rad) \/ SFabs rad = S754_infinity false.
Proof.
  intros Hv Hn. destruct rad as [s|s| |s m e]; cbn [SFabs].
  - left. reflexivity.
  - right. reflexivity.
  - congruence.
  - left. cbn [valid_binary] in Hv. unfold bounded, canonical_mantissa in Hv.
    apply andb_true_iff in Hv. destruct Hv as [Hc He].
    apply Z.eqb_eq in Hc. apply Z.leb_le in He.
    split; [reflexivity|]. split; [|exact He]. split; [lia|exact Hc].
Qed.


Lemma nearest_monotone_weak (prec emax : Z) (x1 x2 : spec_float) (v1 v2 : R) :
  nearest prec emax x1 v1 -> nearest prec emax x2 v2 -> v1 <= v2 ->
  (v1 = v2 -> x1 = x2) -> B2R x1 <= B2R x2.
Proof.
  intros H1 H2 Hv Heq. destruct Hv as [Hv|Hv].
  - exact (nearest_monotone H1 H2 Hv).
  - rewrite (Heq Hv). lra.
Qed.

(** The two conversions round to nearest. *)
Lemma float_to_double_nearest (a : float) :
  repr32 a -> nearest64 (float_to_double a) (B2R a).
Proof.
  intros Ha. destruct a as [s|s| |s m e]; simpl in Ha; try tauto.
  - subst s. apply nearest_id. reflexivity.
  - destruct Ha as (-> & [Hm Hc] & He). cbn [float_to_double B2R cond_Zopp].
    apply (@binary_round_nearest prec64 emax64 prec64_pos m e (S754_finite false (2 ^ 52) 76)).
    + solve_repr.
    + cbn [B2R cond_Zopp]. change (Z.pos (2 ^ 52)) with (1 * 2 ^ 52)%Z.
      rewrite (@F2R_shift 1 76 52) by lia.
      pose proof (IZR_digits_lt Hm) as Hlt. pose proof (bpow_pos e) as HB.
      assert (Hd : (Zdigits2 (Z.pos m) + e <= 128)%Z).
      { unfold fexp, emin, prec32, emax32 in *. lia. }
      apply bpow_le in Hd. rewrite bpow_add in Hd. unfold F2R.
      assert (IZR (Z.pos m) * bpow e <= bpow (Zdigits2 (Z.pos m)) * bpow e)
        by (apply Rmult_le_compat_r; lra).
      simpl (76 + 52)%Z. lra.
Qed.

Lemma double_to_float_nearest (x : double) :
  repr64 x -> B2R x <= 1 -> nearest32 (double_to_float x) (B2R x).
Proof.
  intros Hx Hle. destruct x as [s|s| |s m e]; simpl in Hx; try tauto.
  - subst s. apply nearest_id. reflexivity.
  - destruct Hx as (-> & _ & _). cbn [double_to_float B2R cond_Zopp] in *.
    apply (@binary_round_nearest prec32 emax32 prec32_pos m e (float_of_Z 1)).
    + apply repr32_one.
    + rewrite (proj2 repr32_one). exact Hle.
Qed.

Lemma B2R_M_PI_2_pos : 0 < B2R double_M_PI_2.
Proof. cbn [double_M_PI_2 B2R cond_Zopp]. apply F2R_pos. lia. Qed.

Lemma steps_nearest (a : float) :
  repr32 a -> SFltb double_M_PI_2 (float_to_double a) = false ->
  let d := float_to_double a in
  B2R d <= B2R double_M_PI_2 /\
  nearest64 (falloff_quotient a) (B2R d / B2R double_M_PI_2) /\
  0 <= B2R (falloff_quotient a) <= 1 /\
  nearest64 (falloff_difference a) (1 - B2R (falloff_quotient a)) /\
  0 <= B2R (falloff_difference a) <= 1 /\
  nearest32 (double_to_float (falloff_difference a)) (B2R (falloff_difference a)) /\
  0 <= B2R (double_to_float (falloff_difference a)) <= 1.
Proof.
  intros Ha Hlt d. pose proof (float_to_double_nearest a Ha) as Hd. fold d in Hd.
  pose proof B2R_M_PI_2_pos as HP. destruct repr64_one as [H1 V1].
  destruct repr32_one as [H1' V1'].
  assert (HdP : B2R d <= B2R double_M_PI_2).
  { destruct (Rle_lt_dec (B2R d) (B2R double_M_PI_2)) as [H|H]; [exact H|].
    apply (repr_ltb prec64 emax64 _ _ repr64_M_PI_2 (proj1 Hd)) in H. fold d in Hlt. congruence. }
  pose proof (repr_nonneg _ _ _ (proj1 Hd)) as Hd0.
  assert (Hv : 0 <= B2R d / B2R double_M_PI_2 <= 1).
  { split.
    - apply Rmult_le_pos; [exact Hd0|]. left. apply Rinv_0_lt_compat. exact HP.
    - apply Rmult_le_reg_r with (B2R double_M_PI_2); [exact HP|].
      unfold Rdiv. rewrite Rmult_assoc, Rinv_l by lra. lra. }
  assert (Hq : nearest64 (falloff_quotient a) (B2R d / B2R double_M_PI_2)).
  { apply (@SFdiv_nearest prec64 emax64 prec64_pos d double_M_PI_2 (double_of_Z 1)).
    - exact (proj1 Hd).
    - exact repr64_M_PI_2.
    - exact HP.
    - exact H1.
    - rewrite V1. apply Hv. }
  assert (Hq01 : 0 <= B2R (falloff_quotient a) <= 1).
  { split; [apply (repr_nonneg _ _ _ (proj1 Hq))|].
    rewrite <- V1. apply (nearest_le (double_of_Z 1) Hq H1). rewrite V1. apply Hv. }
  assert (Hs : nearest64 (falloff_difference a) (1 - B2R (falloff_quotient a))).
  { rewrite <- V1.
    apply (@SFsub_nearest prec64 emax64 prec64_pos (double_of_Z 1) (falloff_quotient a)).
    - exact H1.
    - exact (proj1 Hq).
    - rewrite V1. apply Hq01. }
  assert (Hs01 : 0 <= B2R (falloff_difference a) <= 1).
  { split; [apply (repr_nonneg _ _ _ (proj1 Hs))|].
    rewrite <- V1. apply (nearest_le (double_of_Z 1) Hs H1). rewrite V1. lra. }
  assert (Hr : nearest32 (double_to_float (falloff_difference a)) (B2R (falloff_difference a))).
  { apply double_to_float_nearest; [exact (proj1 Hs)|apply Hs01]. }
  refine (conj HdP (conj Hq (conj Hq01 (conj Hs (conj Hs01 (conj Hr (conj _ _))))))).
  - apply (repr_nonneg _ _ _ (proj1 Hr)).
  - rewrite <- V1'. apply (nearest_le (float_of_Z 1) Hr H1'). rewrite V1'. apply Hs01.
Qed.

Lemma Bulb_falloff_unfold (rad : float) :
  Bulb_falloff rad =
    if SFltb double_M_PI_2 (float_to_double (SFabs rad)) then float_of_Z 0
    else double_to_float (falloff_difference (SFabs rad)).
Proof. reflexivity. Qed.

(** In binary32 the power for an angle that is a number lies in [0, 1]. *)
Lemma Bulb_falloff_range32 (rad : float) :
  valid_binary prec32 emax32 rad = true -> rad <> S754_nan ->
  repr32 (Bulb_falloff rad) /\ 0 <= B2R (Bulb_falloff rad) <= 1.
Proof.
  intros Hv Hn. rewrite Bulb_falloff_unfold.
  destruct (valid_abs rad Hv Hn) as [Ha|Ha].
  - destruct (SFltb double_M_PI_2 (float_to_double (SFabs rad))) eqn:Hlt.
    + split; [reflexivity|]. simpl. lra.
    + destruct (steps_nearest _ Ha Hlt) as (_ & _ & _ & _ & _ & Hr & H01).
      split; [exact (proj1 Hr)|exact H01].
  - rewrite Ha. split; [reflexivity|]. simpl. lra.
Qed.

(** In binary32 a larger absolute angle never gives a larger power. *)
Lemma Bulb_falloff_decreasing32 (rad1 rad2 : float) :
  valid_binary prec32 emax32 rad1 = true -> rad1 <> S754_nan ->
  valid_binary prec32 emax32 rad2 = true -> rad2 <> S754_nan ->
  SFleb (SFabs rad1) (SFabs rad2) = true ->
  B2R (Bulb_falloff rad2) <= B2R (Bulb_falloff rad1).
Proof.
  intros Hv1 Hn1 Hv2 Hn2 Hle.
  pose proof (Bulb_falloff_range32 rad1 Hv1 Hn1) as [_ [H10 _]].
  rewrite (Bulb_falloff_unfold rad2).
  destruct (valid_abs rad2 Hv2 Hn2) as [Ha2|Ha2]; [|rewrite Ha2; simpl; exact H10].
  destruct (SFltb double_M_PI_2 (float_to_double (SFabs rad2))) eqn:Hlt2;
    [simpl; exact H10|].
  destruct (valid_abs rad1 Hv1 Hn1) as [Ha1|Ha1];
    [|rewrite Ha1 in Hle; destruct (SFabs rad2) as [s|s| |s m e]; simpl in Ha2;
      try tauto; destruct s; discriminate].
  apply (repr_leb _ _ _ _ Ha1 Ha2) in Hle.
  set (a1 := SFabs rad1) in *. set (a2 := SFabs rad2) in *.
  pose proof (float_to_double_nearest _ Ha1) as Hd1.
  pose proof (float_to_double_nearest _ Ha2) as Hd2.
  destruct (steps_nearest _ Ha2 Hlt2) as (HdP2 & Hq2 & _ & Hs2 & _ & Hr2 & _).
  assert (Hd12 : B2R (float_to_double a1) <= B2R (float_to_double a2)).
  { apply (nearest_monotone_weak _ _ _ _ _ _ Hd1 Hd2 Hle). intros Heq.
    rewrite (repr_eq _ _ _ _ Ha1 Ha2 Heq). reflexivity. }
  assert (Hlt1 : SFltb double_M_PI_2 (float_to_double a1) = false).
  { destruct (SFltb double_M_PI_2 (float_to_double a1)) eqn:H; [|reflexivity].
    apply (repr_ltb prec64 emax64 _ _ repr64_M_PI_2 (proj1 Hd1)) in H. lra. }
  rewrite (Bulb_falloff_unfold rad1). fold a1. rewrite Hlt1.
  destruct (steps_nearest _ Ha1 Hlt1) as (HdP1 & Hq1 & _ & Hs1 & _ & Hr1 & _).
  pose proof B2R_M_PI_2_pos as HP.
  assert (Hq12 : B2R (falloff_quotient a1) <= B2R (falloff_quotient a2)).
  { apply (nearest_monotone_weak _ _ _ _ _ _ Hq1 Hq2).
    - apply Rmult_le_compat_r; [left; apply Rinv_0_lt_compat; exact HP|exact Hd12].
    - intros Heq. unfold falloff_quotient.
      assert (Hdeq : B2R (float_to_double a1) = B2R (float_to_double a2)).
      { apply Rmult_eq_reg_r with (/ B2R double_M_PI_2); [exact Heq|].
        apply Rinv_neq_0_compat. lra. }
      rewrite (repr_eq _ _ _ _ (proj1 Hd1) (proj1 Hd2) Hdeq). reflexivity. }
  assert (Hs21 : B2R (falloff_difference a2) <= B2R (falloff_difference a1)).
  { apply (nearest_monotone_weak _ _ _ _ _ _ Hs2 Hs1); [lra|].
    intros Heq. unfold falloff_difference.
    assert (Hqeq : B2R (falloff_quotient a2) = B2R (falloff_quotient a1)) by lra.
    rewrite (repr_eq _ _ _ _ (proj1 Hq2) (proj1 Hq1) Hqeq). reflexivity. }
  apply (nearest_monotone_weak _ _ _ _ _ _ Hr2 Hr1 Hs21). intros Heq.
  rewrite (repr_eq _ _ _ _ (proj1 Hs2) (proj1 Hs1) Heq). reflexivity.
Qed.


Lemma repr32_above : repr32 float_above_M_PI_2.
Proof. solve_repr. Qed.

Lemma repr32_below : repr32 float_below_M_PI_2.
Proof. solve_repr. Qed.

Lemma float_to_double_exact (m : positive) :
  float_to_double (S754_finite false m (-23))
    = S754_finite false (m * 2 ^ 29) (-52) ->
  B2R (float_to_double (S754_finite false m (-23))) = B2R (S754_finite false m (-23)).
Proof.
  intros ->. cbn [B2R cond_Zopp]. rewrite Pos2Z.inj_mul.
  change (Z.pos (2 ^ 29)) with (2 ^ 29)%Z.
  rewrite (@F2R_shift (Z.pos m) (-52) 29) by lia. reflexivity.
Qed.

(** No [float] lies strictly between the two neighbours of [M_PI_2]. *)
Lemma no_float_between (a : float) :
  repr32 a ->
  B2R a <= B2R float_below_M_PI_2 \/ B2R float_above_M_PI_2 <= B2R a.
Proof.
  intros Ha. destruct a as [s|s| |s m e]; simpl in Ha; try tauto.
  - left. cbn [B2R float_below_M_PI_2 cond_Zopp]. left. apply F2R_pos. lia.
  - destruct Ha as (-> & Hc & _). cbn [B2R float_above_M_PI_2 float_below_M_PI_2 cond_Zopp].
    change 13176795%Z with (13176794 + 1)%Z.
    apply (@canonical_gap prec32 emax32 prec32_pos 13176794 (-23) (Z.pos m) e).
    + lia.
    + intros _. solve_repr.
    + intros H. discriminate H.
    + exact Hc.
Qed.

(** For an angle that is a number, [|rad| > M_PI_2] holds exactly from the
    least [float] above [M_PI_2] on. *)
Lemma cutoff32 (rad : float) :
  valid_binary prec32 emax32 rad = true -> rad <> S754_nan ->
  SFltb double_M_PI_2 (float_to_double (SFabs rad)) = SFleb float_above_M_PI_2 (SFabs rad).
Proof.
  intros Hv Hn. destruct (valid_abs rad Hv Hn) as [Ha|Ha]; [|rewrite Ha; reflexivity].
  set (a := SFabs rad) in *.
  pose proof (float_to_double_nearest a Ha) as Hd.
  pose proof (float_to_double_nearest _ repr32_above) as Hup.
  pose proof (float_to_double_nearest _ repr32_below) as Hdown.
  pose proof (float_to_double_exact 13176795 eq_refl) as Eup.
  pose proof (float_to_double_exact 13176794 eq_refl) as Edown.
  fold float_above_M_PI_2 in Eup. fold float_below_M_PI_2 in Edown.
  assert (Hlo : B2R (float_to_double float_below_M_PI_2) < B2R double_M_PI_2).
  { apply (repr_ltb prec64 emax64 _ _ (proj1 Hdown) repr64_M_PI_2). reflexivity. }
  assert (Hhi : B2R double_M_PI_2 < B2R (float_to_double float_above_M_PI_2)).
  { apply (repr_ltb prec64 emax64 _ _ repr64_M_PI_2 (proj1 Hup)). reflexivity. }
  destruct (no_float_between a Ha) as [H|H].
  - assert (Hda : B2R (float_to_double a) <= B2R (float_to_double float_below_M_PI_2)).
    { apply (nearest_le _ Hd (proj1 Hdown)). rewrite Edown. exact H. }
    assert (H1 : SFltb double_M_PI_2 (float_to_double a) = false).
    { destruct (SFltb double_M_PI_2 (float_to_double a)) eqn:E; [|reflexivity].
      apply (repr_ltb prec64 emax64 _ _ repr64_M_PI_2 (proj1 Hd)) in E. lra. }
    assert (H2 : SFleb float_above_M_PI_2 a = false).
    { destruct (SFleb float_above_M_PI_2 a) eqn:E; [|reflexivity].
      apply (repr_leb prec32 emax32 _ _ repr32_above Ha) in E.
      assert (B2R float_below_M_PI_2 < B2R float_above_M_PI_2).
      { apply (repr_ltb prec32 emax32 _ _ repr32_below repr32_above). reflexivity. }
      lra. }
    rewrite H1, H2. reflexivity.
  - assert (Hda : B2R (float_to_double float_above_M_PI_2) <= B2R (float_to_double a)).
    { apply (nearest_ge _ Hd (proj1 Hup)). rewrite Eup. exact H. }
    assert (H1 : SFltb double_M_PI_2 (float_to_double a) = true).
    { apply (repr_ltb prec64 emax64 _ _ repr64_M_PI_2 (proj1 Hd)). lra. }
    assert (H2 : SFleb float_above_M_PI_2 a = true).
    { apply (repr_leb prec32 emax32 _ _ repr32_above Ha). exact H. }
    rewrite H1, H2. reflexivity.
Qed.

End Falloff32.

Set Implicit Arguments.

(** * Bulb::power in binary32 *)

(** A NaN angle gives a NaN power: the comparison with [M_PI_2] is false and
    the quotient is NaN. *)
Lemma Bulb_power_nan_angle (normalized32 : QVector3D Binary32.float -> QVector3D Binary32.float)
  (acos_in_domain : Binary32.float -> Binary32.float)
  (center origin normalDirection : QVector3D Binary32.float) :
  Bulb_rad (ops := Binary32.ops normalized32 acos_in_domain) center origin normalDirection
    = S754_nan ->
  Bulb_power (ops := Binary32.ops normalized32 acos_in_domain) center origin normalDirection
    = S754_nan.
Proof. intros H. unfold Bulb_power. rewrite H. reflexivity. Qed.

(** * The claims about Sphere::intersects and Bulb::power *)

(** C6, as the code has it.  [Bulb::power] computes the angle
    [acos(dot(normalized(point - center), normal))]; it returns 0 when
    [|angle| > M_PI_2] and otherwise [1 - |angle| / M_PI_2], computed in
    [double] and converted to [float].  In binary32, for every point and every
    normal for which the computed angle is a [float]: when the angle is NaN the
    power is NaN, and so outside of [0, 1]; when the angle is a number the
    power lies in [0, 1]. *)
Theorem Bulb_power_cases :
  (forall (F D : Type) (ops : FloatOps F D) (center point normalDirection : QVector3D F),
     let angle := facos (dotProduct (normalized (vsub point center)) normalDirection) in
     (dlt M_PI_2 (to_double (fabs angle)) = true ->
      Bulb_power center point normalDirection = of_int 0) /\
     (dlt M_PI_2 (to_double (fabs angle)) = false ->
      Bulb_power center point normalDirection =
        of_double (dsub (d_of_int 1) (ddiv (to_double (fabs angle)) M_PI_2)))) /\
  (forall normalized32 acos_in_domain (center point normalDirection : QVector3D Binary32.float),
     let angle :=
       Bulb_rad (ops := Binary32.ops normalized32 acos_in_domain) center point
         normalDirection in
     let power :=
       Bulb_power (ops := Binary32.ops normalized32 acos_in_domain) center point
         normalDirection in
     valid_binary Binary32.prec32 Binary32.emax32 angle = true ->
     (angle = S754_nan -> power = S754_nan) /\
     (angle <> S754_nan ->
      SFleb (Binary32.float_of_Z 0) power = true /\
      SFleb power (Binary32.float_of_Z 1) = true)).
Proof.
  split.
  - intros F D ops center point normalDirection angle.
    unfold Bulb_power, Bulb_rad, Bulb_falloff, dgt. cbv zeta. fold angle.
    split; intros ->; reflexivity.
  - intros normalized32 acos_in_domain center point normalDirection angle power Hvalid.
    split.
    + apply Bulb_power_nan_angle.
    + intros Hnan.
      destruct (Bulb_falloff_range32 normalized32 acos_in_domain angle Hvalid Hnan)
        as [Hrepr [H0 H1]].
      fold (Bulb_power (ops := Binary32.ops normalized32 acos_in_domain) center point
              normalDirection) in Hrepr, H0, H1. fold power in Hrepr, H0, H1.
      split.
      * apply (repr_leb Binary32.prec32 Binary32.emax32 _ _
                 (repr_zero Binary32.prec32 Binary32.emax32) Hrepr).
        exact H0.
      * apply (repr_leb Binary32.prec32 Binary32.emax32 _ _ Hrepr (proj1 repr32_one)).
        rewrite (proj2 repr32_one). exact H1.
Qed.

(** C7, as the code has it.  For every arithmetic, an angle with
    [|angle| > M_PI_2] gives the power 0.  In binary32, for computed angles
    that are numbers: a larger absolute angle never gives a larger power; the
    test [|angle| > M_PI_2] holds exactly from the least [float] above
    [M_PI_2] on, and from there on the power is 0.  A computed angle that is
    NaN gives the power NaN. *)
Theorem Bulb_power_decreasing :
  (forall (F D : Type) (ops : FloatOps F D) (center point normalDirection : QVector3D F),
     dlt M_PI_2 (to_double (fabs (Bulb_rad center point normalDirection))) = true ->
     Bulb_power center point normalDirection = of_int 0) /\
  (forall normalized32 acos_in_domain
     (center point1 normal1 point2 normal2 : QVector3D Binary32.float),
     let angle1 :=
       Bulb_rad (ops := Binary32.ops normalized32 acos_in_domain) center point1 normal1 in
     let angle2 :=
       Bulb_rad (ops := Binary32.ops normalized32 acos_in_domain) center point2 normal2 in
     let power1 :=
       Bulb_power (ops := Binary32.ops normalized32 acos_in_domain) center point1 normal1 in
     let power2 :=
       Bulb_power (ops := Binary32.ops normalized32 acos_in_domain) center point2 normal2 in
     valid_binary Binary32.prec32 Binary32.emax32 angle1 = true -> angle1 <> S754_nan ->
     valid_binary Binary32.prec32 Binary32.emax32 angle2 = true -> angle2 <> S754_nan ->
     (SFleb (SFabs angle1) (SFabs angle2) = true -> SFleb power2 power1 = true) /\
     SFltb Binary32.double_M_PI_2 (Binary32.float_to_double (SFabs angle1))
       = SFleb float_above_M_PI_2 (SFabs angle1) /\
     (SFleb float_above_M_PI_2 (SFabs angle1) = true ->
      power1 = Binary32.float_of_Z 0)) /\
  (forall normalized32 acos_in_domain (center point normalDirection : QVector3D Binary32.float),
     Bulb_rad (ops := Binary32.ops normalized32 acos_in_domain) center point normalDirection
       = S754_nan ->
     Bulb_power (ops := Binary32.ops normalized32 acos_in_domain) center point normalDirection
       = S754_nan).
Proof.
  split; [|split; [|apply Bulb_power_nan_angle]].
  - intros F D ops center point normalDirection H.
    unfold Bulb_power, Bulb_falloff, dgt. rewrite H. reflexivity.
  - intros normalized32 acos_in_domain center point1 normal1 point2 normal2
      angle1 angle2 power1 power2 Hv1 Hn1 Hv2 Hn2.
    pose proof (cutoff32 angle1 Hv1 Hn1) as Hcut.
    split; [|split; [exact Hcut|]].
    + intros Hle.
      destruct (Bulb_falloff_range32 normalized32 acos_in_domain angle1 Hv1 Hn1)
        as [Hr1 _].
      destruct (Bulb_falloff_range32 normalized32 acos_in_domain angle2 Hv2 Hn2)
        as [Hr2 _].
      apply (repr_leb Binary32.prec32 Binary32.emax32 _ _ Hr2 Hr1).
      apply Bulb_falloff_decreasing32; assumption.
    + intros Habove. unfold power1, Bulb_power. fold angle1.
      rewrite Bulb_falloff_unfold, Hcut, Habove. reflexivity.
Qed.

(** C8, as the code has it.  Over the reals, for every hit that
    [Sphere::intersects] reports with a normal of length 1, the reflected
    direction [r] satisfies [dot(r, normal) = - dot(direction, normal)] and has
    the squared length of [direction]. *)
Theorem reflection_mirror (normalizedR : QVector3D R -> QVector3D R)
  (center : QVector3D R) (radius : R) (origin direction : QVector3D R) (h : Hit R) :
  Sphere_intersects (ops := Exact.ops normalizedR) center radius origin direction = Some h ->
  lengthSquared (ops := Exact.ops normalizedR) (normal h) = 1%R ->
  dotProduct (ops := Exact.ops normalizedR) (reflection h) (normal h)
    = (- dotProduct (ops := Exact.ops normalizedR) direction (normal h))%R /\
  lengthSquared (ops := Exact.ops normalizedR) (reflection h)
    = lengthSquared (ops := Exact.ops normalizedR) direction.
Proof. apply reflection_exact. Qed.

(** C10.  A ray whose origin lies inside or on the sphere gets a hit, whatever
    its direction: in binary32 when [c <= 0] holds for the computed
    [c = dot(m, m) - radius^2] (NaN and infinite directions included), and over
    the reals when [dot(m, m) <= radius^2]. *)
Theorem inside_ray_always_hits :
  (forall normalized32 acos_in_domain (center : QVector3D Binary32.float)
     (radius : Binary32.float) (origin direction : QVector3D Binary32.float),
     let m := vsub (ops := Binary32.ops normalized32 acos_in_domain) origin center in
     let c := SFsub Binary32.prec32 Binary32.emax32
                (dotProduct (ops := Binary32.ops normalized32 acos_in_domain) m m)
                (SFmul Binary32.prec32 Binary32.emax32 radius radius) in
     SFleb c (S754_zero false) = true ->
     exists h,
       Sphere_intersects (ops := Binary32.ops normalized32 acos_in_domain)
         center radius origin direction = Some h) /\
  (forall normalizedR (center : QVector3D R) (radius : R) (origin direction : QVector3D R),
     let m := vsub (ops := Exact.ops normalizedR) origin center in
     (dotProduct (ops := Exact.ops normalizedR) m m <= radius * radius)%R ->
     exists h,
       Sphere_intersects (ops := Exact.ops normalizedR) center radius origin direction
         = Some h).
Proof.
  split.
  - intros normalized32 acos_in_domain center radius origin direction m c Hc.
    apply inside_ray_hits. exact Hc.
  - intros normalizedR center radius origin direction m Hin.
    apply inside_ray_hits_exact. exact Hin.
Qed.

(** * The program run on small scenes *)

Section SceneFacts.

Import Binary32 Scene.

#[local] Existing Instance ops_qt5.

(** In both arithmetics [0 > 0] is false: a mirror fraction of 0 takes the
    branch without recursion. *)
Lemma zero_not_positive :
  fgt (ops := ops_qt5) (of_int 0) (of_int 0) = false /\
  fgt (ops := Exact.ops Exact.normalized_qt5) (IZR 0) (IZR 0) = false.
Proof. split; [reflexivity|]. apply Rltb_false. simpl. lra. Qed.

(** The first case of C1 at a ray that points away from the sphere, the last
    one at the ray of the scene. *)
Lemma Sphere_intersects_quadratic_witness :
  Sphere_intersects (vec3_of_Z 0 0 0) (float_of_Z 5) rayOrigin (vec3_of_Z 1 0 0) = None /\
  Sphere_intersects (vec3_of_Z 0 0 0) (float_of_Z 5) rayOrigin rayDirection =
    Some {| intersection := vec3_of_Z 3 4 0;
            normal := vec3 (S754_finite false 10066330 (-24))
                        (S754_finite false 13421773 (-24)) (S754_zero false);
            reflection := vec3 (S754_finite true 9395240 (-25))
                            (S754_finite false 16106128 (-24)) (S754_zero false) |}.
Proof.
  split.
  - apply (proj1 (Sphere_intersects_quadratic (vec3_of_Z 0 0 0) (float_of_Z 5) rayOrigin
                    (vec3_of_Z 1 0 0))); reflexivity.
  - rewrite (proj2 (proj2 (Sphere_intersects_quadratic (vec3_of_Z 0 0 0) (float_of_Z 5)
                             rayOrigin rayDirection)));
      [vm_compute; reflexivity|reflexivity|reflexivity].
Defined.

(** C2 fails as stated: for the sphere of radius 5 at the origin and the ray
    from its centre in direction (1, 0, 0), the hit point is the centre (squared
    distance 0 from the origin of the ray, while the squared radius is 25) and
    the normal is the null vector, not the direction (1, 0, 0). *)
Lemma center_ray_hit_not_at_radius :
  exists h,
    Sphere_intersects (vec3_of_Z 0 0 0) (float_of_Z 5) (vec3_of_Z 0 0 0) (vec3_of_Z 1 0 0)
      = Some h /\
    intersection h = vec3_of_Z 0 0 0 /\
    lengthSquared (vsub (intersection h) (vec3_of_Z 0 0 0)) = float_of_Z 0 /\
    fmul (float_of_Z 5) (float_of_Z 5) = float_of_Z 25 /\
    SFeqb (float_of_Z 0) (float_of_Z 25) = false /\
    normal h = vec3_of_Z 0 0 0 /\
    lengthSquared (normal h) = float_of_Z 0 /\
    normalized (vec3_of_Z 1 0 0) = vec3_of_Z 1 0 0 /\
    normal h <> normalized (vec3_of_Z 1 0 0).
Proof.
  eexists. split; [vm_compute; reflexivity|]. cbn [intersection normal].
  repeat split; try (vm_compute; reflexivity). vm_compute. discriminate.
Qed.

Lemma intersects_from_center_witness :
  vsub (vadd (vec3_of_Z 0 0 0) (vscale (vec3_of_Z 1 0 0) (of_int 0))) (vec3_of_Z 0 0 0)
    = vnull.
Proof.
  apply (proj2 (intersects_from_center normalized_qt5 no_libm (vec3_of_Z 0 0 0)
                  (float_of_Z 5) (vec3_of_Z 1 0 0)));
    repeat split.
Defined.

(** C5 at a sphere that the ray points away from. *)
Lemma cast_miss_witness :
  cast [sphereA] [bulb] rayOrigin (vec3_of_Z 1 0 0) colorOnMiss colorOnFullShade
    = Some colorOnMiss.
Proof.
  apply (proj2 (proj2 (cast_miss [sphereA] [bulb] rayOrigin (vec3_of_Z 1 0 0) colorOnMiss
                         colorOnFullShade))).
  intros shape [<-|[]]. reflexivity.
Defined.

(** The first loop of [cast] on the scene: the nearest hit is on the first
    surface, at (3, 4, 0). *)
Lemma scene_nearest (first : Shape float) :
  Shape_intersects first = Sphere_intersects (vec3_of_Z 0 0 0) (float_of_Z 5) ->
  nearest_loop rayOrigin rayDirection 0 [first; sphereB] nearest_init =
  {| shortestDistanceSquared := float_of_Z 49; shapeIndex := 0;
     intersectionOrigin := vec3_of_Z 3 4 0;
     normalDirection := vec3 (S754_finite false 10066330 (-24))
                          (S754_finite false 13421773 (-24)) (S754_zero false);
     reflectionDirection := vec3 (S754_finite true 9395240 (-25))
                              (S754_finite false 16106128 (-24)) (S754_zero false) |}.
Proof.
  intros Hfirst. simpl. unfold nearest_step. rewrite Hfirst.
  vm_compute. reflexivity.
Qed.

(** C4 at the scene: the ray meets [sphereA] at (3, 4, 0), where the bulb alone
    would have the power 1; [sphereB] blocks it. *)
Lemma cast_shadow_witness :
  Bulb_power (Light_center bulb) (vec3_of_Z 3 4 0) (normalized (vec3_of_Z 3 4 0))
    = float_of_Z 1 /\
  cast [sphereA; sphereB] [bulb] rayOrigin rayDirection colorOnMiss colorOnFullShade
    = Some (vmul (Shape_color sphereA) colorOnFullShade).
Proof.
  split; [vm_compute; reflexivity|].
  apply (proj2 (proj2 (cast_shadow [sphereA; sphereB] [bulb] rayOrigin rayDirection
                         colorOnMiss colorOnFullShade)) sphereA bulb);
    try rewrite (scene_nearest sphereA eq_refl).
  - reflexivity.
  - reflexivity.
  - reflexivity.
  - reflexivity.
  - exists sphereB. split; [left; reflexivity|vm_compute; reflexivity].
Defined.

(** C9 at the scene, without and with a mirror fraction. *)
Lemma cast_mirror_recursion_witness :
  cast_calls [sphereA; sphereB] [bulb] rayOrigin rayDirection colorOnMiss colorOnFullShade
    = Some (vmul (Shape_color sphereA) colorOnFullShade, []) /\
  exists colorMirrored calls,
    cast_calls [sphereB] [bulb] (vec3_of_Z 3 4 0)
      (vec3 (S754_finite true 9395240 (-25)) (S754_finite false 16106128 (-24))
         (S754_zero false))
      colorOnMiss colorOnFullShade = Some (colorMirrored, calls) /\
    cast_calls [mirrorA; sphereB] [bulb] rayOrigin rayDirection colorOnMiss colorOnFullShade
      = Some (vmul (blend (Shape_color mirrorA) colorMirrored (Shape_mirror mirrorA))
                colorOnFullShade,
              [sphereB] :: calls).
Proof.
  split.
  - pose proof (proj2 (cast_mirror_recursion [sphereA; sphereB] [bulb] rayOrigin
                         rayDirection colorOnMiss colorOnFullShade) sphereA) as H.
    cbv zeta in H. rewrite (scene_nearest sphereA eq_refl) in H.
    destruct (H eq_refl eq_refl) as [H0 _]. rewrite (H0 eq_refl).
    repeat f_equal; vm_compute; reflexivity.
  - pose proof (proj2 (cast_mirror_recursion [mirrorA; sphereB] [bulb] rayOrigin
                         rayDirection colorOnMiss colorOnFullShade) mirrorA) as H.
    cbv zeta in H. rewrite (scene_nearest mirrorA eq_refl) in H.
    destruct (H eq_refl eq_refl) as [_ H1].
    destruct (H1 eq_refl) as (colorMirrored & calls & Hc & Hm).
    exists colorMirrored, calls. split; [exact Hc|]. rewrite Hm.
    repeat f_equal; vm_compute; reflexivity.
Defined.

(** C6 fails as stated: for the unit normal (1, 0, 0), the centre
    (-2^127, 0, 0) and the point (2^127, 0, 0), all finite, [point - center]
    overflows, its normalization has a NaN component, and the power is NaN,
    which is not in [0, 1]. *)
Lemma Bulb_power_overflow :
  let center := vec3 (float_of_Z (- 2 ^ 127)) (float_of_Z 0) (float_of_Z 0) in
  let point := vec3 (float_of_Z (2 ^ 127)) (float_of_Z 0) (float_of_Z 0) in
  finite3 center /\ finite3 point /\
  lengthSquared (vec3_of_Z 1 0 0) = float_of_Z 1 /\
  xp (vsub point center) = S754_infinity false /\
  Bulb_power center point (vec3_of_Z 1 0 0) = S754_nan /\
  fle (float_of_Z 0) S754_nan = false /\ fle S754_nan (float_of_Z 1) = false.
Proof. cbv zeta. repeat split. Qed.

(** C7 fails as stated: the ray from (12, 2, 1) in the direction (-1, 0, 0)
    meets the sphere of radius 3 around the origin at (2, 2, 1); for a bulb at
    the centre of the sphere the direction from the bulb to the hit is the
    normal itself, so the angle between them is 0, but the [float] dot product
    of the two is 1 + 2^-23, [acos] of it is NaN for every libm, and the power
    is NaN: no power is [<=] it, and for the opposite normal (an angle of 180
    degrees) the power is NaN as well, not 0. *)
Lemma Bulb_power_straight_on_nan :
  Sphere_intersects StraightOn.center StraightOn.radius StraightOn.rayOrigin
    StraightOn.rayDirection
    = Some {| intersection := StraightOn.hitPoint; normal := StraightOn.hitNormal;
              reflection := vec3 (S754_finite true 14913072 (-27))
                              (S754_finite false 14913082 (-24))
                              (S754_finite false 14913082 (-25)) |} /\
  normalized (vsub StraightOn.hitPoint StraightOn.center) = StraightOn.hitNormal /\
  dotProduct StraightOn.hitNormal StraightOn.hitNormal = S754_finite false 8388609 (-23) /\
  flt (float_of_Z 1) (dotProduct StraightOn.hitNormal StraightOn.hitNormal) = true /\
  (forall acos_in_domain,
     Bulb_power (ops := ops normalized_qt5 acos_in_domain) StraightOn.center
       StraightOn.hitPoint StraightOn.hitNormal = S754_nan) /\
  (forall power, fle power S754_nan = false) /\
  (forall acos_in_domain,
     Bulb_power (ops := ops normalized_qt5 acos_in_domain) StraightOn.center
       StraightOn.hitPoint (vopp StraightOn.hitNormal) = S754_nan) /\
  SFeqb S754_nan (float_of_Z 0) = false.
Proof.
  split; [vm_compute; reflexivity|]. split; [vm_compute; reflexivity|].
  split; [vm_compute; reflexivity|]. split; [vm_compute; reflexivity|].
  split; [intros acos_in_domain; vm_compute; reflexivity|].
  split; [intros power; destruct power as [[|]|[|]| |[|] m e]; reflexivity|].
  split; [intros acos_in_domain; vm_compute; reflexivity|reflexivity].
Qed.

(** C8 fails as stated: for the sphere of radius 5 at the origin and the ray
    of the scene, the normal (0.6f, 0.8f, 0) has the squared length 1 in
    binary32, and [dot(reflection, normal)] is one unit in the last place above
    [- dot(direction, normal)]. *)
Lemma reflection_rounding :
  exists h,
    Sphere_intersects (vec3_of_Z 0 0 0) (float_of_Z 5) rayOrigin rayDirection = Some h /\
    lengthSquared (normal h) = float_of_Z 1 /\
    dotProduct (reflection h) (normal h) = S754_finite false 10066331 (-24) /\
    fneg (dotProduct rayDirection (normal h)) = S754_finite false 10066330 (-24) /\
    SFeqb (dotProduct (reflection h) (normal h))
      (fneg (dotProduct rayDirection (normal h))) = false.
Proof.
  eexists. split; [vm_compute; reflexivity|]. cbn [normal reflection].
  repeat split; vm_compute; reflexivity.
Qed.

(** C10 at a ray that starts inside the sphere. *)
Lemma inside_ray_always_hits_witness :
  exists h,
    Sphere_intersects (vec3_of_Z 0 0 0) (float_of_Z 5) (vec3_of_Z 1 0 0) (vec3_of_Z 0 1 0)
      = Some h.
Proof.
  apply (proj1 inside_ray_always_hits normalized_qt5 no_libm (vec3_of_Z 0 0 0)
           (float_of_Z 5) (vec3_of_Z 1 0 0) (vec3_of_Z 0 1 0)).
  reflexivity.
Defined.

End SceneFacts.

(** C6 at the overflowing input, where the angle is NaN, and at the hit of the
    scene, where the angle is 0. *)
Lemma Bulb_power_cases_witness :
  Bulb_power (ops := Binary32.ops_qt5)
    (vec3 (Binary32.float_of_Z (- 2 ^ 127)) (Binary32.float_of_Z 0) (Binary32.float_of_Z 0))
    (vec3 (Binary32.float_of_Z (2 ^ 127)) (Binary32.float_of_Z 0) (Binary32.float_of_Z 0))
    (Binary32.vec3_of_Z 1 0 0)
  = S754_nan /\
  SFleb (Binary32.float_of_Z 0)
    (Bulb_power (ops := Binary32.ops_qt5) (Light_center Scene.bulb)
       (Binary32.vec3_of_Z 3 4 0)
       (Binary32.normalized_qt5 (Binary32.vec3_of_Z 3 4 0))) = true /\
  SFleb
    (Bulb_power (ops := Binary32.ops_qt5) (Light_center Scene.bulb)
       (Binary32.vec3_of_Z 3 4 0)
       (Binary32.normalized_qt5 (Binary32.vec3_of_Z 3 4 0)))
    (Binary32.float_of_Z 1) = true.
Proof.
  split.
  - apply (proj1 (proj2 Bulb_power_cases Binary32.normalized_qt5 Binary32.no_libm
                    (vec3 (Binary32.float_of_Z (- 2 ^ 127)) (Binary32.float_of_Z 0)
                       (Binary32.float_of_Z 0))
                    (vec3 (Binary32.float_of_Z (2 ^ 127)) (Binary32.float_of_Z 0)
                       (Binary32.float_of_Z 0))
                    (Binary32.vec3_of_Z 1 0 0) eq_refl)).
    vm_compute. reflexivity.
  - apply (proj2 (proj2 Bulb_power_cases Binary32.normalized_qt5 Binary32.no_libm
                    (Light_center Scene.bulb) (Binary32.vec3_of_Z 3 4 0)
                    (Binary32.normalized_qt5 (Binary32.vec3_of_Z 3 4 0)) eq_refl)).
    vm_compute. discriminate.
Defined.

(** C7 at the hit of the scene, for a libm that yields the [float] nearest to
    pi/2 at 0: with the normal of the sphere the angle is 0, with the normal
    (0, 0, 1) it is 0x1.921fb6p+0, and the second power is not the larger. *)
Lemma Bulb_power_decreasing_witness :
  SFleb
    (Bulb_power (ops := Binary32.ops Binary32.normalized_qt5 acos_at_zero)
       (Light_center Scene.bulb) (Binary32.vec3_of_Z 3 4 0) (Binary32.vec3_of_Z 0 0 1))
    (Bulb_power (ops := Binary32.ops Binary32.normalized_qt5 acos_at_zero)
       (Light_center Scene.bulb) (Binary32.vec3_of_Z 3 4 0)
       (Binary32.normalized_qt5 (Binary32.vec3_of_Z 3 4 0))) = true /\
  Bulb_power (ops := Binary32.ops Binary32.normalized_qt5 acos_at_zero)
    (Light_center Scene.bulb) (Binary32.vec3_of_Z 3 4 0) (Binary32.vec3_of_Z 0 0 1)
  = Binary32.float_of_Z 0.
Proof.
  split.
  - apply (proj1 (proj1 (proj2 Bulb_power_decreasing) Binary32.normalized_qt5 acos_at_zero
                    (Light_center Scene.bulb)
                    (Binary32.vec3_of_Z 3 4 0)
                    (Binary32.normalized_qt5 (Binary32.vec3_of_Z 3 4 0))
                    (Binary32.vec3_of_Z 3 4 0) (Binary32.vec3_of_Z 0 0 1)
                    ltac:(vm_compute; reflexivity) ltac:(vm_compute; discriminate)
                    ltac:(vm_compute; reflexivity) ltac:(vm_compute; discriminate))).
    vm_compute. reflexivity.
  - apply (proj2 (proj2 (proj1 (proj2 Bulb_power_decreasing) Binary32.normalized_qt5
                    acos_at_zero
                    (Light_center Scene.bulb)
                    (Binary32.vec3_of_Z 3 4 0) (Binary32.vec3_of_Z 0 0 1)
                    (Binary32.vec3_of_Z 3 4 0) (Binary32.vec3_of_Z 0 0 1)
                    ltac:(vm_compute; reflexivity) ltac:(vm_compute; discriminate)
                    ltac:(vm_compute; reflexivity) ltac:(vm_compute; discriminate)))).
    vm_compute. reflexivity.
Defined.

Section SceneRFacts.

Import SceneR.

#[local] Existing Instance SceneR.ops.

Open Scope R_scope.

Lemma normalized_pole : Exact.normalized_qt5 pole = pole.
Proof.
  unfold Exact.normalized_qt5, pole. simpl.
  replace (Exact.Rleb _ _) with true; [reflexivity|].
  symmetry. apply Rleb_true.
  replace (1 * 1 + 0 * 0 + 0 * 0 - 1) with 0 by ring. rewrite Rabs_R0. lra.
Qed.

(** The ray of the scene meets the sphere at the pole, with the pole as
    normal and as reflected direction. *)
Lemma scene_hit :
  Sphere_intersects center 1 rayOrigin rayDirection
  = Some {| intersection := pole; normal := pole; reflection := pole |}.
Proof.
  unfold Sphere_intersects, fgt, fmax, dotProduct, vsub, vadd, vscale, center, rayOrigin,
    rayDirection. cbv zeta. simpl.
  replace (-1 * (2 - 0) + 0 * (0 - 0) + 0 * (0 - 0)) with (-2) by ring.
  replace ((2 - 0) * (2 - 0) + (0 - 0) * (0 - 0) + (0 - 0) * (0 - 0) - 1 * 1) with 3 by ring.
  replace (-2 * -2 - 3) with 1 by ring. rewrite sqrt_1.
  replace (- -2 - 1) with 1 by ring.
  replace (Exact.Rltb 0 (-2)) with false by (symmetry; apply Rltb_false; lra).
  replace (Exact.Rltb 1 0) with false by (symmetry; apply Rltb_false; lra).
  replace (Exact.Rltb 0 1) with true by (symmetry; apply Rltb_true; lra).
  rewrite Bool.andb_false_r.
  replace (2 + -1 * 1 - 0) with 1 by ring.
  replace (0 + 0 * 1 - 0) with 0 by ring.
  fold pole. rewrite normalized_pole. unfold pole. simpl.
  do 2 f_equal; f_equal; ring.
Qed.

(** C8 at the hit of the scene. *)
Lemma reflection_mirror_witness :
  dotProduct pole pole = - dotProduct rayDirection pole /\
  lengthSquared pole = lengthSquared rayDirection.
Proof.
  apply (@reflection_mirror Exact.normalized_qt5 center 1 rayOrigin rayDirection
           {| intersection := pole; normal := pole; reflection := pole |}).
  - exact scene_hit.
  - unfold lengthSquared, pole. simpl. ring.
Defined.

End SceneRFacts.

(** * Further properties of allBut and cast, for every arithmetic *)

Section MoreStructure.

Context {F D : Type} {ops : FloatOps F D}.

#[local] Abbreviation Vec := (QVector3D F).
#[local] Abbreviation Color := (QVector3D F).
#[local] Abbreviation Shape := (Shape F).
#[local] Abbreviation Light := (Light F).
#[local] Abbreviation Nearest := (Nearest F).

(** X1.  For an index inside the vector, [allBut] gives a vector one element
    shorter that holds the elements before [index] at their places and the
    elements after it one place earlier. *)
Theorem allBut_lookup {T : Type} (vector : list T) (index : Z) (j : nat) :
  (0 <= index < Z.of_nat (length vector))%Z ->
  S (length (allBut vector index)) = length vector /\
  nth_error (allBut vector index) j =
    if j <? Z.to_nat index then nth_error vector j else nth_error vector (S j).
Proof.
  intros Hi. assert (Hlt : Z.to_nat index < length vector) by lia.
  split; [apply removeAt_length; exact Hlt|].
  unfold allBut, removeAt. set (i := Z.to_nat index) in *.
  destruct (j <? i) eqn:Hj.
  - apply Nat.ltb_lt in Hj. rewrite nth_error_app1 by (rewrite length_firstn; lia).
    rewrite nth_error_firstn. rewrite (proj2 (Nat.ltb_lt _ _) Hj). reflexivity.
  - apply Nat.ltb_ge in Hj. rewrite nth_error_app2 by (rewrite length_firstn; lia).
    rewrite length_firstn, nth_error_skipn. f_equal. lia.
Qed.

Lemma allBut_lookup_witness :
  nth_error (allBut [10; 20; 30; 40]%Z 1) 0 = Some 10%Z /\
  nth_error (allBut [10; 20; 30; 40]%Z 1) 1 = Some 30%Z /\
  nth_error (allBut [10; 20; 30; 40]%Z 1) 3 = None.
Proof.
  split; [|split].
  - rewrite (proj2 (@allBut_lookup Z [10; 20; 30; 40]%Z 1 0 ltac:(simpl; lia))). reflexivity.
  - rewrite (proj2 (@allBut_lookup Z [10; 20; 30; 40]%Z 1 1 ltac:(simpl; lia))). reflexivity.
  - rewrite (proj2 (@allBut_lookup Z [10; 20; 30; 40]%Z 1 3 ltac:(simpl; lia))). reflexivity.
Defined.

(** While every hit is at a squared distance [d] with [d >= FLT_MAX], the loop
    leaves its initial state untouched. *)
Lemma nearest_loop_all_skipped (origin direction : Vec) (shapes : list Shape) :
  (forall shape h, In shape shapes -> Shape_intersects shape origin direction = Some h ->
     fge (hit_distance origin h) FLT_MAX = true) ->
  forall index, nearest_loop origin direction index shapes nearest_init = nearest_init.
Proof.
  induction shapes as [|shape rest IH]; intros Hskip index; simpl; [reflexivity|].
  assert (Hstep : nearest_step origin direction nearest_init index shape = nearest_init).
  { unfold nearest_step.
    destruct (Shape_intersects shape origin direction) as [h|] eqn:Hh; [|reflexivity].
    pose proof (Hskip shape h (or_introl eq_refl) Hh) as Hge.
    unfold hit_distance in Hge. simpl. rewrite Hge. reflexivity. }
  rewrite Hstep. apply IH. intros s h Hin. apply Hskip. right; exact Hin.
Qed.

Lemma nearest_loop_invariant (origin direction : Vec) :
  forall (rest pre : list Shape) (st : Nearest),
    nearest_invariant origin direction pre st ->
    nearest_invariant origin direction (pre ++ rest)
      (nearest_loop origin direction (Z.of_nat (length pre)) rest st).
Proof.
  induction rest as [|shape rest IH]; intros pre st Hinv; simpl.
  - rewrite app_nil_r. exact Hinv.
  - replace (pre ++ shape :: rest) with ((pre ++ [shape]) ++ rest)
      by (rewrite <- app_assoc; reflexivity).
    replace (Z.of_nat (length pre) + 1)%Z with (Z.of_nat (length (pre ++ [shape])))
      by (rewrite length_app; simpl; lia).
    apply IH. unfold nearest_step.
    destruct (Shape_intersects shape origin direction) as [h|] eqn:Hh.
    + destruct (fge _ _) eqn:Hge.
      * destruct Hinv as [[-> Hskip]|(s & hs & H0 & Hnth & Hrest)].
        -- left. split; [reflexivity|]. intros s hs [Hin|[<-|[]]]%in_app_or Hs.
           ++ apply (Hskip s hs Hin Hs).
           ++ rewrite Hh in Hs. injection Hs as <-. exact Hge.
        -- right. exists s, hs. split; [exact H0|]. split; [|exact Hrest].
           rewrite nth_error_app1; [exact Hnth|]. apply nth_error_Some. rewrite Hnth.
           discriminate.
      * right. exists shape, h. simpl. split; [lia|]. split.
        -- rewrite Nat2Z.id, nth_error_app2, Nat.sub_diag by lia. reflexivity.
        -- repeat split; try reflexivity. exact Hh.
    + destruct Hinv as [[-> Hskip]|(s & hs & H0 & Hnth & Hrest)].
      * left. split; [reflexivity|]. intros s hs [Hin|[<-|[]]]%in_app_or Hs.
        -- apply (Hskip s hs Hin Hs).
        -- rewrite Hh in Hs. discriminate.
      * right. exists s, hs. split; [exact H0|]. split; [|exact Hrest].
        rewrite nth_error_app1; [exact Hnth|]. apply nth_error_Some. rewrite Hnth.
        discriminate.
Qed.

(** X2.  The first loop of [cast] ends without a hit ([shapeIndex < 0]) exactly
    when every surface misses the ray or reports a hit at a squared distance
    [d] for which [d >= FLT_MAX] holds; otherwise the hit point, the normal,
    the reflected direction and the distance it ends with are the ones that
    the surface at [shapeIndex] reports for the ray. *)
Theorem nearest_loop_selected (shapes : list Shape) (origin direction : Vec) :
  let st := nearest_loop origin direction 0 shapes nearest_init in
  ((shapeIndex st <? 0)%Z = true <->
   (forall shape h, In shape shapes -> Shape_intersects shape origin direction = Some h ->
      fge (hit_distance origin h) FLT_MAX = true)) /\
  ((shapeIndex st <? 0)%Z = false ->
   exists shape h,
     nth_error shapes (Z.to_nat (shapeIndex st)) = Some shape /\
     Shape_intersects shape origin direction = Some h /\
     shortestDistanceSquared st = hit_distance origin h /\
     intersectionOrigin st = intersection h /\
     normalDirection st = normal h /\
     reflectionDirection st = reflection h).
Proof.
  intros st.
  assert (Hinv : nearest_invariant origin direction shapes st).
  { apply (@nearest_loop_invariant origin direction shapes [] nearest_init).
    left. split; [reflexivity|]. intros s h []. }
  split; [split|].
  - intros Hneg. destruct Hinv as [[_ Hskip]|(s & hs & H0 & _)]; [exact Hskip|].
    apply Z.ltb_lt in Hneg. lia.
  - intros Hskip. unfold st. rewrite nearest_loop_all_skipped by exact Hskip. reflexivity.
  - intros Hpos. destruct Hinv as [[Hst _]|(s & hs & _ & Hrest)].
    + rewrite Hst in Hpos. discriminate.
    + exists s, hs. exact Hrest.
Qed.

Lemma light_loop_fold (otherShapes : list Shape) (intersectionOrigin normalDirection : Vec) :
  forall (lights : list Light) (colorMask : Color),
    fold_left (light_step otherShapes intersectionOrigin normalDirection) lights colorMask =
    fold_left (add_light intersectionOrigin normalDirection)
      (filter (contributes otherShapes intersectionOrigin normalDirection) lights)
      colorMask.
Proof.
  induction lights as [|light rest IH]; intros colorMask; simpl; [reflexivity|].
  unfold light_step at 2, contributes at 1.
  destruct (isBlocked otherShapes intersectionOrigin light); simpl; [apply IH|].
  destruct (fle _ _); simpl; apply IH.
Qed.

(** X3.  The colour mask of [cast] is [colorOnFullShade] with
    [power * light->color] added, in the order of [lights], for the lights that
    are neither blocked nor of a power with [power <= 0]; when no light is of
    that kind the mask is [colorOnFullShade] itself. *)
Theorem light_loop_contributions (otherShapes : list Shape) (lights : list Light)
  (intersectionOrigin normalDirection : Vec) (colorOnFullShade : Color) :
  light_loop otherShapes lights intersectionOrigin normalDirection colorOnFullShade =
    fold_left (add_light intersectionOrigin normalDirection)
      (filter (contributes otherShapes intersectionOrigin normalDirection) lights)
      colorOnFullShade /\
  ((forall light, In light lights ->
      isBlocked otherShapes intersectionOrigin light = true \/
      fle (Light_power light intersectionOrigin normalDirection) (of_int 0) = true) ->
   light_loop otherShapes lights intersectionOrigin normalDirection colorOnFullShade
     = colorOnFullShade).
Proof.
  split; [apply light_loop_fold|].
  intros Hnone. unfold light_loop. rewrite light_loop_fold.
  replace (filter _ lights) with (@nil Light); [reflexivity|].
  symmetry. induction lights as [|light rest IH]; simpl; [reflexivity|].
  unfold contributes at 1.
  destruct (Hnone light (or_introl eq_refl)) as [-> | ->]; simpl.
  - apply IH. intros l Hl. apply Hnone. right; exact Hl.
  - rewrite andb_false_r. apply IH. intros l Hl. apply Hnone. right; exact Hl.
Qed.

(** X4.  A scene with a single surface that the ray hits at a squared distance
    [d] for which [d >= FLT_MAX] is false: no light is blocked (a surface does
    not shadow itself), so the colour mask collects every light with
    [power <= 0] false; without mirror the colour is [shape->color] times the
    mask, and with mirror the nested invocation sees no surface and returns
    [colorOnMiss], which is blended in. *)
Theorem cast_single_surface (shape : Shape) (lights : list Light)
  (origin direction : Vec) (colorOnMiss colorOnFullShade : Color) (h : Hit F) :
  Shape_intersects shape origin direction = Some h ->
  fge (hit_distance origin h) FLT_MAX = false ->
  let lit light :=
    negb (fle (Light_power light (intersection h) (normal h)) (of_int 0)) in
  let colorMask :=
    fold_left (add_light (intersection h) (normal h)) (filter lit lights)
      colorOnFullShade in
  cast_calls [shape] lights origin direction colorOnMiss colorOnFullShade =
    if fgt (Shape_mirror shape) (of_int 0)
    then Some (vmul (blend (Shape_color shape) colorOnMiss (Shape_mirror shape)) colorMask,
               [[]])
    else Some (vmul (Shape_color shape) colorMask, []).
Proof.
  intros Hh Hd lit colorMask.
  assert (Hst : nearest_loop origin direction 0 [shape] nearest_init =
                {| shortestDistanceSquared := hit_distance origin h; shapeIndex := 0;
                   intersectionOrigin := intersection h; normalDirection := normal h;
                   reflectionDirection := reflection h |}).
  { simpl. unfold nearest_step. rewrite Hh. unfold hit_distance in Hd. simpl.
    rewrite Hd. reflexivity. }
  rewrite cast_calls_equation. cbv zeta. rewrite Hst. simpl.
  assert (Hmask : light_loop [] lights (intersection h) (normal h) colorOnFullShade
                  = colorMask).
  { unfold light_loop. rewrite light_loop_fold. reflexivity. }
  unfold allBut, removeAt. simpl. rewrite Hmask.
  destruct (fgt (Shape_mirror shape) (of_int 0)); reflexivity.
Qed.

End MoreStructure.

(** * The geometry of Sphere::intersects in exact arithmetic *)

Section ExactGeometry.

Variable normalizedR : QVector3D R -> QVector3D R.

#[local] Instance opsG : FloatOps R R := Exact.ops normalizedR.

#[local] Abbreviation VecR := (QVector3D R).

Open Scope R_scope.

Lemma fmax_Rmax (a b : R) : fmax a b = Rmax a b.
Proof. apply fmax_exact. Qed.


(** What a result of [Sphere::intersects] says about [b], [c] and the
    discriminant. *)
Lemma Sphere_intersects_some (center : VecR) (radius : R) (origin direction : VecR)
  (h : Hit R) :
  let m := vsub origin center in
  let b := dotProduct direction m in
  let c := dotProduct m m - radius * radius in
  Sphere_intersects center radius origin direction = Some h ->
  ~ (0 < c /\ 0 < b) /\ 0 <= b * b - c /\
  intersection h = ray_point origin direction (Rmax 0 (- b - sqrt (b * b - c))).
Proof.
  intros m b c. unfold Sphere_intersects, fgt. cbv zeta. fold m. fold b.
  change (fsub (dotProduct m m) (fmul radius radius)) with c.
  change (fsub (fmul b b) c) with (b * b - c).
  destruct (flt (of_int 0) c && flt (of_int 0) b) eqn:Hrej; [discriminate|].
  destruct (flt (b * b - c) (of_int 0)) eqn:Hneg; [discriminate|].
  intros [= <-]. cbn [intersection]. rewrite fmax_Rmax.
  apply Rltb_false in Hneg. simpl in Hneg. repeat split; try assumption.
  intros [Hc Hb]. apply andb_false_iff in Hrej.
  destruct Hrej as [H|H]; apply Rltb_false in H; simpl in H; lra.
Qed.




(** X7.  A ray whose origin is inside the sphere or on it gets its own origin
    as hit point, whatever its direction. *)
Theorem Sphere_hit_from_inside (center : VecR) (radius : R) (origin direction : VecR) :
  lengthSquared (vsub origin center) <= radius * radius ->
  exists h,
    Sphere_intersects center radius origin direction = Some h /\
    intersection h = origin.
Proof.
  intros Hin.
  destruct (@inside_ray_hits_exact normalizedR center radius origin direction Hin)
    as [h Hhit].
  exists h. split; [exact Hhit|].
  destruct (Sphere_intersects_some center radius origin direction Hhit)
    as (_ & Hdiscr & Hpoint).
  set (m := vsub origin center) in *. set (b := dotProduct direction m) in *.
  change (lengthSquared m) with (dotProduct m m) in Hin.
  pose proof (sqrt_pos (b * b - (dotProduct m m - radius * radius))) as Hs0.
  pose proof (sqrt_sqrt _ Hdiscr) as Hss.
  rewrite Hpoint, Rmax_left by nra.
  destruct origin, direction. unfold ray_point, vadd, vscale. simpl. f_equal; ring.
Qed.


End ExactGeometry.

(** * The nearest hit *)

(** The first loop of [cast] compares squared distances with [>=].  What it
    selects is the nearest hit as far as [<=] orders the distances it meets:
    the section assumes, for the values of a set [ok] that holds them, that
    [<=] is reflexive, transitive and total.  Both arithmetics satisfy this,
    binary32 on the values other than NaN. *)

Section NearestOrder.

Context {F D : Type} {ops : FloatOps F D}.

Variable ok : F -> Prop.

Hypothesis fle_refl : forall a, ok a -> fle a a = true.
Hypothesis fle_trans :
  forall a b c, ok a -> ok b -> ok c -> fle a b = true -> fle b c = true -> fle a c = true.
Hypothesis fle_total : forall a b, ok a -> ok b -> fle a b = false -> fle b a = true.

Variables origin direction : QVector3D F.

Lemma nearest_step_order (pre : list (Shape F)) (st : Nearest F) (shape : Shape F) :
  (forall s h, In s (pre ++ [shape]) -> Shape_intersects s origin direction = Some h ->
     ok (hit_distance origin h)) ->
  nearest_order ok origin direction pre st ->
  nearest_order ok origin direction (pre ++ [shape])
    (nearest_step origin direction st (Z.of_nat (length pre)) shape).
Proof.
  intros Hok (Hst & Hidx & Hall).
  assert (Hlen : length (pre ++ [shape]) = S (length pre))
    by (rewrite length_app; simpl; lia).
  assert (Hsplit : forall j s, nth_error (pre ++ [shape]) j = Some s ->
            nth_error pre j = Some s \/ (j = length pre /\ s = shape)).
  { intros j s Hj. destruct (Nat.lt_ge_cases j (length pre)) as [Hlt|Hge].
    - left. rewrite nth_error_app1 in Hj by exact Hlt. exact Hj.
    - right. rewrite nth_error_app2 in Hj by exact Hge.
      destruct (j - length pre) as [|k] eqn:Hk; simpl in Hj.
      + injection Hj as <-. split; [lia|reflexivity].
      + destruct k; discriminate. }
  unfold nearest_step.
  destruct (Shape_intersects shape origin direction) as [h|] eqn:Hh.
  - assert (Hokh : ok (hit_distance origin h)).
    { apply (Hok shape h); [apply in_or_app; right; left; reflexivity|exact Hh]. }
    fold (hit_distance origin h).
    destruct (fge (hit_distance origin h) (shortestDistanceSquared st)) eqn:Hge.
    + split; [exact Hst|]. split; [lia|].
      intros j s hs Hj Hs. destruct (Hsplit j s Hj) as [Hpre|[-> ->]].
      * exact (Hall j s hs Hpre Hs).
      * rewrite Hh in Hs. injection Hs as <-. split; [exact Hge|]. lia.
    + unfold fge in Hge. unfold nearest_order. simpl shortestDistanceSquared.
      simpl shapeIndex. split; [exact Hokh|]. split; [rewrite Hlen; lia|].
      intros j s hs Hj Hs. destruct (Hsplit j s Hj) as [Hpre|[-> ->]].
      * destruct (Hall j s hs Hpre Hs) as [Hle _].
        assert (Hokj : ok (hit_distance origin hs)).
        { apply (Hok s hs); [eapply nth_error_In; exact Hj|exact Hs]. }
        split.
        -- apply (@fle_trans _ (shortestDistanceSquared st) _); try assumption.
           apply fle_total; assumption.
        -- intros _.
           destruct (fle (hit_distance origin hs) (hit_distance origin h)) eqn:E;
             [|reflexivity].
           rewrite (@fle_trans _ (hit_distance origin hs) _ Hst Hokj Hokh Hle E) in Hge.
           discriminate.
      * rewrite Hh in Hs. injection Hs as <-. split; [apply fle_refl; exact Hokh|]. lia.
  - split; [exact Hst|]. split; [lia|].
    intros j s hs Hj Hs. destruct (Hsplit j s Hj) as [Hpre|[-> ->]].
    + exact (Hall j s hs Hpre Hs).
    + rewrite Hh in Hs. discriminate.
Qed.

Lemma nearest_loop_order :
  forall (rest pre : list (Shape F)) (st : Nearest F),
    (forall s h, In s (pre ++ rest) -> Shape_intersects s origin direction = Some h ->
       ok (hit_distance origin h)) ->
    nearest_order ok origin direction pre st ->
    nearest_order ok origin direction (pre ++ rest)
      (nearest_loop origin direction (Z.of_nat (length pre)) rest st).
Proof.
  induction rest as [|shape rest IH]; intros pre st Hok Hinv; simpl.
  - rewrite app_nil_r. exact Hinv.
  - assert (Happ : pre ++ shape :: rest = (pre ++ [shape]) ++ rest)
      by (rewrite <- app_assoc; reflexivity).
    rewrite Happ in *.
    replace (Z.of_nat (length pre) + 1)%Z with (Z.of_nat (length (pre ++ [shape])))
      by (rewrite length_app; simpl; lia).
    apply IH; [exact Hok|]. apply nearest_step_order; [|exact Hinv].
    intros s h Hin. apply Hok. apply in_or_app. left. exact Hin.
Qed.

(** The hit that the loop selects is at a distance that is at most the one of
    every hit, and less than the one of every hit on an earlier surface. *)
Lemma nearest_loop_minimal (shapes : list (Shape F)) :
  ok FLT_MAX ->
  (forall s h, In s shapes -> Shape_intersects s origin direction = Some h ->
     ok (hit_distance origin h)) ->
  let st := nearest_loop origin direction 0 shapes nearest_init in
  forall j shape h,
    nth_error shapes j = Some shape -> Shape_intersects shape origin direction = Some h ->
    fle (shortestDistanceSquared st) (hit_distance origin h) = true /\
    ((Z.of_nat j < shapeIndex st)%Z ->
     fle (hit_distance origin h) (shortestDistanceSquared st) = false).
Proof.
  intros Hmax Hok st.
  assert (Hinv : nearest_order ok origin direction shapes st).
  { apply (@nearest_loop_order shapes [] nearest_init Hok).
    split; [exact Hmax|]. split; [simpl; lia|].
    intros j s h Hj. destruct j; discriminate. }
  destruct Hinv as (_ & _ & Hall). exact Hall.
Qed.

End NearestOrder.

(** ** The order of binary32 *)

Lemma SFleb_key (x y : spec_float) :
  not_nan x -> not_nan y -> (SFleb x y = true <-> key_le (order_key x) (order_key y)).
Proof.
  unfold not_nan, SFleb.
  destruct x as [[|]|[|]| |[|] mx ex]; destruct y as [[|]|[|]| |[|] my ey];
    intros Hx Hy; try congruence; simpl; try (split; [intros _; lia|reflexivity]);
    try (split; [discriminate|lia]).
  - destruct (Z.compare_spec ex ey) as [He|He|He].
    + change (Pos.compare_cont Eq mx my) with (Pos.compare mx my).
      destruct (Pos.compare_spec mx my) as [Hm|Hm|Hm]; simpl;
        (split; [intros _; lia|reflexivity]) || (split; [discriminate|lia]).
    + split; [discriminate|lia].
    + split; [intros _; lia|reflexivity].
  - destruct (Z.compare_spec ex ey) as [He|He|He].
    + change (Pos.compare_cont Eq mx my) with (Pos.compare mx my).
      destruct (Pos.compare_spec mx my) as [Hm|Hm|Hm]; simpl;
        (split; [intros _; lia|reflexivity]) || (split; [discriminate|lia]).
    + split; [intros _; lia|reflexivity].
    + split; [discriminate|lia].
Qed.

Lemma SFleb_refl (a : spec_float) : not_nan a -> SFleb a a = true.
Proof.
  intros Ha. apply (SFleb_key Ha Ha). unfold key_le.
  destruct (order_key a) as [[a1 a2] a3]. lia.
Qed.

Lemma SFleb_trans (a b c : spec_float) :
  not_nan a -> not_nan b -> not_nan c ->
  SFleb a b = true -> SFleb b c = true -> SFleb a c = true.
Proof.
  intros Ha Hb Hc Hab Hbc. apply (SFleb_key Ha Hb) in Hab. apply (SFleb_key Hb Hc) in Hbc.
  apply (SFleb_key Ha Hc). unfold key_le in *.
  destruct (order_key a) as [[a1 a2] a3], (order_key b) as [[b1 b2] b3],
    (order_key c) as [[c1 c2] c3]. lia.
Qed.

Lemma SFleb_total (a b : spec_float) :
  not_nan a -> not_nan b -> SFleb a b = false -> SFleb b a = true.
Proof.
  intros Ha Hb Hab. apply (SFleb_key Hb Ha).
  assert (Hn : ~ key_le (order_key a) (order_key b)).
  { intros H. apply (SFleb_key Ha Hb) in H. congruence. }
  unfold key_le in *.
  destruct (order_key a) as [[a1 a2] a3], (order_key b) as [[b1 b2] b3]. lia.
Qed.

Lemma Rleb_false (a b : R) : Exact.Rleb a b = false <-> (b < a)%R.
Proof.
  unfold Exact.Rleb. destruct (Rle_dec a b); split; intros; try easy; lra.
Qed.

(** X9.  The first loop of [cast] ends with the squared distance of a nearest
    hit: it is at most the squared distance of every hit that a surface of the
    set reports, and the hits of the surfaces before [shapeIndex] are farther.
    In binary32 this holds when no hit is at a NaN distance; over the reals
    it holds always.  (Without a hit that the loop accepted the distance is
    [FLT_MAX].) *)
Theorem nearest_hit_is_nearest :
  (forall normalized32 acos_in_domain (shapes : list (Shape Binary32.float))
     (origin direction : QVector3D Binary32.float),
     (forall s h, In s shapes ->
        Shape_intersects s origin direction = Some h ->
        hit_distance (ops := Binary32.ops normalized32 acos_in_domain) origin h
          <> S754_nan) ->
     let st :=
       nearest_loop (ops := Binary32.ops normalized32 acos_in_domain) origin direction 0
         shapes (nearest_init (ops := Binary32.ops normalized32 acos_in_domain)) in
     forall j shape h,
       nth_error shapes j = Some shape ->
       Shape_intersects shape origin direction = Some h ->
       SFleb (shortestDistanceSquared st)
         (hit_distance (ops := Binary32.ops normalized32 acos_in_domain) origin h) = true /\
       ((Z.of_nat j < shapeIndex st)%Z ->
        SFleb (hit_distance (ops := Binary32.ops normalized32 acos_in_domain) origin h)
          (shortestDistanceSquared st) = false)) /\
  (forall normalizedR (shapes : list (Shape R)) (origin direction : QVector3D R),
     let st :=
       nearest_loop (ops := Exact.ops normalizedR) origin direction 0 shapes
         (nearest_init (ops := Exact.ops normalizedR)) in
     forall j shape h,
       nth_error shapes j = Some shape ->
       Shape_intersects shape origin direction = Some h ->
       (shortestDistanceSquared st
        <= hit_distance (ops := Exact.ops normalizedR) origin h)%R /\
       ((Z.of_nat j < shapeIndex st)%Z ->
        (shortestDistanceSquared st
         < hit_distance (ops := Exact.ops normalizedR) origin h)%R)).
Proof.
  split.
  - intros normalized32 acos_in_domain shapes origin direction Hnan st j shape h Hj Hh.
    apply (@nearest_loop_minimal _ _ (Binary32.ops normalized32 acos_in_domain) not_nan
             SFleb_refl SFleb_trans SFleb_total origin direction shapes
             ltac:(discriminate) Hnan j shape h Hj Hh).
  - intros normalizedR shapes origin direction st j shape h Hj Hh.
    destruct (@nearest_loop_minimal _ _ (Exact.ops normalizedR) (fun _ => True)
                (fun a _ => proj2 (Rleb_true a a) (Rle_refl a))
                (fun a b c _ _ _ Hab Hbc =>
                   proj2 (Rleb_true a c)
                     (Rle_trans a b c (proj1 (Rleb_true a b) Hab)
                        (proj1 (Rleb_true b c) Hbc)))
                (fun a b _ _ Hab =>
                   proj2 (Rleb_true b a) (Rlt_le b a (proj1 (Rleb_false a b) Hab)))
                origin direction shapes I (fun _ _ _ _ => I) j shape h Hj Hh)
      as [Hle Hlt].
    split.
    + apply Rleb_true. exact Hle.
    + intros Hidx. apply Rleb_false. apply Hlt. exact Hidx.
Qed.

(** * toRgb and the resolutions of main *)

Lemma clamp_range (v : Z) : (0 <= clamp v 0 255 <= 255)%Z.
Proof.
  unfold clamp. destruct (v <? 0)%Z eqn:H0; [lia|].
  destruct (255 <? v)%Z eqn:H1; [lia|].
  apply Z.ltb_ge in H0, H1. lia.
Qed.

Lemma byte_land (r : Z) : (0 <= r <= 255)%Z -> Z.land r 255 = r.
Proof.
  intros Hr. change 255%Z with (Z.ones 8). rewrite Z.land_ones by lia.
  apply Z.mod_small. lia.
Qed.

Lemma byte_shiftr (r n : Z) : (0 <= r <= 255)%Z -> (8 <= n)%Z -> Z.shiftr r n = 0%Z.
Proof.
  intros Hr Hn. rewrite Z.shiftr_div_pow2 by lia. apply Z.div_small. split; [lia|].
  apply Z.lt_le_trans with (2 ^ 8)%Z; [simpl; lia|]. apply Z.pow_le_mono_r; lia.
Qed.

Lemma byte_shiftl_land (r n : Z) :
  (0 <= r <= 255)%Z -> (8 <= n)%Z -> Z.land (Z.shiftl r n) 255 = 0%Z.
Proof.
  intros Hr Hn. change 255%Z with (Z.ones 8). rewrite Z.land_ones by lia.
  rewrite Z.shiftl_mul_pow2 by lia.
  replace n with (8 + (n - 8))%Z by lia. rewrite Z.pow_add_r by lia.
  rewrite Z.mul_assoc, (Z.mul_comm r), <- Z.mul_assoc.
  rewrite (Z.mul_comm (2 ^ 8)). apply Z.mod_mul. apply Z.pow_nonzero; lia.
Qed.

Lemma qRgb_channels (r g b : Z) :
  (0 <= r <= 255)%Z -> (0 <= g <= 255)%Z -> (0 <= b <= 255)%Z ->
  qAlpha (qRgb r g b) = 255%Z /\ qRed (qRgb r g b) = r /\
  qGreen (qRgb r g b) = g /\ qBlue (qRgb r g b) = b.
Proof.
  intros Hr Hg Hb. unfold qAlpha, qRed, qGreen, qBlue, qRgb.
  rewrite !byte_land by assumption. repeat split.
  - rewrite !Z.shiftr_lor.
    rewrite Z.shiftr_shiftl_l by lia.
    rewrite (Z.shiftr_shiftl_r r) by lia. rewrite (Z.shiftr_shiftl_r g) by lia.
    rewrite !byte_shiftr by lia. reflexivity.
  - rewrite !Z.shiftr_lor, !Z.land_lor_distr_l.
    rewrite (Z.shiftr_shiftl_l 255) by lia.
    rewrite (Z.shiftr_shiftl_l r) by lia. rewrite (Z.shiftr_shiftl_r g) by lia.
    rewrite !byte_shiftr by lia. simpl Z.sub. rewrite Z.shiftl_0_r.
    rewrite (@byte_land r) by assumption. simpl. rewrite ?Z.lor_0_r. reflexivity.
  - rewrite !Z.shiftr_lor, !Z.land_lor_distr_l.
    rewrite (Z.shiftr_shiftl_l 255) by lia.
    rewrite (Z.shiftr_shiftl_l r) by lia. rewrite (Z.shiftr_shiftl_l g) by lia.
    rewrite !byte_shiftr by lia. simpl Z.sub. rewrite Z.shiftl_0_r.
    rewrite (@byte_shiftl_land r) by lia. rewrite (@byte_land g) by assumption.
    simpl. rewrite ?Z.lor_0_r. reflexivity.
  - rewrite !Z.land_lor_distr_l.
    rewrite (@byte_shiftl_land r), (@byte_shiftl_land g) by lia.
    rewrite (@byte_land b) by assumption.
    simpl. reflexivity.
Qed.

(** A 32-bit pixel is the sum of its four channels. *)
Lemma channels_sum (z : Z) :
  z = (qAlpha z * 2 ^ 24 + qRed z * 2 ^ 16 + qGreen z * 2 ^ 8 + qBlue z)%Z.
Proof.
  unfold qAlpha, qRed, qGreen, qBlue. change 255%Z with (Z.ones 8).
  rewrite !Z.land_ones by lia. rewrite !Z.shiftr_div_pow2 by lia.
  change (2 ^ 24)%Z with (2 ^ 8 * (2 ^ 8 * 2 ^ 8))%Z.
  change (2 ^ 16)%Z with (2 ^ 8 * 2 ^ 8)%Z.
  rewrite <- !Z.div_div by (simpl; lia).
  set (p := (2 ^ 8)%Z). assert (Hp : (p <> 0)%Z) by (unfold p; simpl; lia).
  pose proof (Z.div_mod z p Hp) as H1.
  pose proof (Z.div_mod (z / p) p Hp) as H2.
  pose proof (Z.div_mod (z / p / p) p Hp) as H3.
  set (a := (z / p)%Z) in *. set (b := (a / p)%Z) in *. set (c := (b / p)%Z) in *.
  nia.
Qed.

Section PixelFacts.

Context {F D : Type} {ops : FloatOps F D} {icast : IntCast F}.

(** X10. [toRgb] yields a pixel exactly when the three conversions to [int]
    are defined; the pixel is then opaque (alpha 255), its red, green and
    blue channels are the three values of [toRgbComponent], each of which
    lies in 0..255 ([qRgb]'s masks cut nothing off), and so it is
    [0xff000000 + r * 65536 + g * 256 + b]. *)
Theorem toRgb_channels (color : QVector3D F) :
  match toRgb color with
  | Some rgb =>
      exists r g b,
        toRgbComponent (xp color) = Some r /\
        toRgbComponent (yp color) = Some g /\
        toRgbComponent (zp color) = Some b /\
        (0 <= r <= 255)%Z /\ (0 <= g <= 255)%Z /\ (0 <= b <= 255)%Z /\
        qAlpha rgb = 255%Z /\ qRed rgb = r /\ qGreen rgb = g /\ qBlue rgb = b /\
        rgb = (255 * 2 ^ 24 + r * 2 ^ 16 + g * 2 ^ 8 + b)%Z
  | None =>
      to_int (fmul (xp color) (of_int 255)) = None \/
      to_int (fmul (yp color) (of_int 255)) = None \/
      to_int (fmul (zp color) (of_int 255)) = None
  end.
Proof.
  unfold toRgb, toRgbComponent.
  destruct (to_int (fmul (xp color) (of_int 255))) as [i|]; [|now left].
  destruct (to_int (fmul (yp color) (of_int 255))) as [j|]; [|now right; left].
  destruct (to_int (fmul (zp color) (of_int 255))) as [k|]; [|now right; right].
  pose proof (clamp_range i) as Hi. pose proof (clamp_range j) as Hj.
  pose proof (clamp_range k) as Hk.
  destruct (qRgb_channels Hi Hj Hk) as (Ha & Hr & Hg & Hb).
  exists (clamp i 0 255), (clamp j 0 255), (clamp k 0 255).
  repeat (split; [first [reflexivity | assumption | lia]|]).
  rewrite (channels_sum (qRgb _ _ _)) at 1. rewrite Ha, Hr, Hg, Hb. reflexivity.
Qed.

End PixelFacts.

Lemma int_range_some (z : Z) : (INT_MIN <= z <= INT_MAX)%Z -> int_range z = Some z.
Proof.
  intros [H1 H2]. unfold int_range.
  rewrite (proj2 (Z.leb_le _ _) H1), (proj2 (Z.leb_le _ _) H2). reflexivity.
Qed.

Lemma int_range_inv (z : Z) (i : Z) :
  int_range z = Some i -> i = z /\ (INT_MIN <= z <= INT_MAX)%Z.
Proof.
  unfold int_range. destruct (INT_MIN <=? z)%Z eqn:H1; [|discriminate].
  destruct (z <=? INT_MAX)%Z eqn:H2; [|discriminate]. simpl. intros [= <-].
  apply Z.leb_le in H1, H2. auto.
Qed.

Lemma int_range_none (z : Z) :
  int_range z = None <-> (z < INT_MIN \/ INT_MAX < z)%Z.
Proof.
  unfold int_range. destruct (INT_MIN <=? z)%Z eqn:H1; destruct (z <=? INT_MAX)%Z eqn:H2;
    simpl; try apply Z.leb_le in H1; try apply Z.leb_le in H2;
    try apply Z.leb_gt in H1; try apply Z.leb_gt in H2; split; try discriminate;
    try lia; reflexivity.
Qed.

Lemma Rtrunc_le (x y : R) : (x <= y)%R -> (Rtrunc x <= Rtrunc y)%Z.
Proof.
  intros Hxy. unfold Rtrunc.
  destruct (Rle_dec 0 x) as [Hx|Hx]; destruct (Rle_dec 0 y) as [Hy|Hy].
  - now apply Zfloor.Zfloor_le.
  - lra.
  - apply Z.le_trans with 0%Z.
    + apply Z.opp_nonpos_nonneg. unfold Zfloor.Zceil.
      assert (0 <= Zfloor.Zfloor (- x))%Z by (apply Zfloor.Zfloor_lub; simpl; lra). lia.
    + apply Zfloor.Zfloor_lub. simpl. lra.
  - now apply Zfloor.Zceil_le.
Qed.

Lemma clamp_le (a b : Z) : (a <= b)%Z -> (clamp a 0 255 <= clamp b 0 255)%Z.
Proof.
  intros Hab. unfold clamp.
  destruct (Z.ltb_spec a 0); destruct (Z.ltb_spec b 0);
    destruct (Z.ltb_spec 255 a); destruct (Z.ltb_spec 255 b); lia.
Qed.

(** X11. [toRgbComponent] over the reals: a value in [0, 1) is mapped to the
    integer part of [value * 255], which is at most 254; a value of at least
    1 to 255 (so 255 is reached from 1 on only); a value of at most 0 to 0;
    the conversion is undefined exactly when [value * 255] truncates outside
    [int]; and where defined the component is monotone in the value. *)
Theorem toRgbComponent_exact (normalizedR : QVector3D R -> QVector3D R) :
  let component := toRgbComponent (ops := Exact.ops normalizedR) (icast := castR) in
  (forall v, (0 <= v < 1)%R ->
     component v = Some (Zfloor.Zfloor (v * 255)) /\
     (0 <= Zfloor.Zfloor (v * 255) <= 254)%Z) /\
  (forall v, (1 <= v)%R -> (v * 255 < 2147483648)%R -> component v = Some 255%Z) /\
  (forall v, (v <= 0)%R -> (-2147483649 < v * 255)%R -> component v = Some 0%Z) /\
  (forall v, component v = None <->
     (v * 255 <= -2147483649)%R \/ (2147483648 <= v * 255)%R) /\
  (forall v w a b, (v <= w)%R -> component v = Some a -> component w = Some b ->
     (a <= b)%Z).
Proof.
  intros component. unfold component, toRgbComponent.
  cbn [fmul of_int to_int Exact.ops castR]. unfold R_to_int.
  split; [|split; [|split; [|split]]].
  - intros v [H0 H1].
    assert (Hf0 : (0 <= Zfloor.Zfloor (v * 255))%Z) by (apply Zfloor.Zfloor_lub; simpl; nra).
    assert (Hf1 : (Zfloor.Zfloor (v * 255) <= 254)%Z).
    { pose proof (Zfloor.Zfloor_bound (v * 255)) as [Hb _].
      assert (IZR (Zfloor.Zfloor (v * 255)) < IZR 255)%R by (simpl; nra).
      apply lt_IZR in H. lia. }
    split; [|lia]. unfold Rtrunc.
    destruct (Rle_dec 0 (v * 255)) as [_|Hn]; [|exfalso; apply Hn; nra].
    rewrite int_range_some by (unfold INT_MIN, INT_MAX; simpl; lia).
    unfold clamp.
    destruct (Z.ltb_spec (Zfloor.Zfloor (v * 255)) 0); [lia|].
    destruct (Z.ltb_spec 255 (Zfloor.Zfloor (v * 255))); [lia|]. reflexivity.
  - intros v H1 H2. unfold Rtrunc.
    destruct (Rle_dec 0 (v * 255)) as [_|Hn]; [|exfalso; apply Hn; nra].
    assert (Hf0 : (255 <= Zfloor.Zfloor (v * 255))%Z) by (apply Zfloor.Zfloor_lub; nra).
    assert (Hf1 : (Zfloor.Zfloor (v * 255) < 2147483648)%Z).
    { pose proof (Zfloor.Zfloor_bound (v * 255)) as [Hb _].
      apply lt_IZR. lra. }
    rewrite int_range_some by (unfold INT_MIN, INT_MAX; simpl; lia).
    unfold clamp.
    destruct (Z.ltb_spec (Zfloor.Zfloor (v * 255)) 0); [lia|].
    destruct (Z.ltb_spec 255 (Zfloor.Zfloor (v * 255))); [reflexivity|].
    f_equal. lia.
  - intros v H1 H2.
    assert (Hle : (Rtrunc (v * 255) <= 0)%Z).
    { unfold Rtrunc. destruct (Rle_dec 0 (v * 255)).
      - pose proof (Zfloor.Zfloor_bound (v * 255)) as [Hb _].
        apply le_IZR. nra.
      - pose proof (Zfloor.Zceil_bound (v * 255)) as [Hb _].
        assert (IZR (Zfloor.Zceil (v * 255)) < IZR 1)%R by nra.
        apply lt_IZR in H. lia. }
    assert (Hge : (-2147483648 <= Rtrunc (v * 255))%Z).
    { unfold Rtrunc. destruct (Rle_dec 0 (v * 255)).
      - assert (0 <= Zfloor.Zfloor (v * 255))%Z by (apply Zfloor.Zfloor_lub; simpl; lra). lia.
      - pose proof (Zfloor.Zceil_bound (v * 255)) as [_ Hb].
        assert (IZR (-2147483649) < IZR (Zfloor.Zceil (v * 255)))%R by lra.
        apply lt_IZR in H. lia. }
    rewrite int_range_some by (unfold INT_MIN, INT_MAX; simpl; lia).
    unfold clamp.
    destruct (Z.ltb_spec (Rtrunc (v * 255)) 0); [reflexivity|].
    destruct (Z.ltb_spec 255 (Rtrunc (v * 255))); [lia|]. f_equal. lia.
  - intros v.
    destruct (int_range (Rtrunc (v * 255))) as [i|] eqn:Hi.
    + split; [discriminate|]. intros H. exfalso.
      apply int_range_inv in Hi. destruct Hi as [_ [Hlo Hhi]].
      unfold INT_MIN, INT_MAX in Hlo, Hhi. simpl in Hlo, Hhi.
      unfold Rtrunc in Hlo, Hhi.
      destruct (Rle_dec 0 (v * 255)) as [Hp|Hn].
      * destruct H as [H|H]; [lra|].
        assert (2147483648 <= Zfloor.Zfloor (v * 255))%Z by (apply Zfloor.Zfloor_lub; lra).
        lia.
      * destruct H as [H|H]; [|lra].
        pose proof (Zfloor.Zceil_bound (v * 255)) as [Hb _].
        apply IZR_le in Hlo. lra.
    + split; [intros _|reflexivity].
      apply int_range_none in Hi. unfold INT_MIN, INT_MAX in Hi. simpl in Hi.
      unfold Rtrunc in Hi.
      destruct (Rle_dec 0 (v * 255)) as [Hp|Hn].
      * right. destruct Hi as [Hi|Hi].
        -- assert (0 <= Zfloor.Zfloor (v * 255))%Z by (apply Zfloor.Zfloor_lub; simpl; lra). lia.
        -- pose proof (Zfloor.Zfloor_bound (v * 255)) as [Hb _].
           assert (2147483648 <= Zfloor.Zfloor (v * 255))%Z by lia.
           apply IZR_le in H. lra.
      * left. destruct Hi as [Hi|Hi].
        -- pose proof (Zfloor.Zceil_bound (v * 255)) as [_ Hb].
           assert (Zfloor.Zceil (v * 255) <= -2147483649)%Z by lia.
           apply IZR_le in H. lra.
        -- pose proof (Zfloor.Zceil_bound (v * 255)) as [Hb _].
           assert (2147483648 <= Zfloor.Zceil (v * 255))%Z by lia.
           apply IZR_le in H. lra.
  - intros v w a b Hvw.
    destruct (int_range (Rtrunc (v * 255))) as [i|] eqn:Hi; [|discriminate].
    destruct (int_range (Rtrunc (w * 255))) as [j|] eqn:Hj; [|discriminate].
    intros [= <-] [= <-].
    apply int_range_inv in Hi, Hj. destruct Hi as [-> _], Hj as [-> _].
    apply clamp_le. apply Rtrunc_le. nra.
Qed.

(** X12. [toRgbComponent] in binary32: the conversion is undefined for NaN
    and for the infinities, a zero of either sign gives 0, and a value whose
    sign bit is set never gives a positive component (it gives 0, or the
    conversion is undefined). *)
Theorem toRgbComponent_binary32
  (normalized32 : QVector3D Binary32.float -> QVector3D Binary32.float)
  (acos_in_domain : Binary32.float -> Binary32.float) (value : Binary32.float) :
  let component :=
    toRgbComponent (ops := Binary32.ops normalized32 acos_in_domain) (icast := cast32) in
  match value with
  | S754_nan | S754_infinity _ => component value = None
  | S754_zero _ => component value = Some 0%Z
  | S754_finite true _ _ => component value = Some 0%Z \/ component value = None
  | S754_finite false _ _ =>
      component value = None \/ exists c, component value = Some c /\ (0 <= c <= 255)%Z
  end.
Proof.
  intros component. unfold component, toRgbComponent.
  cbn [fmul of_int to_int Binary32.ops cast32].
  assert (H255 : Binary32.float_of_Z 255 = S754_finite false 16711680 (-16))
    by (vm_compute; reflexivity).
  rewrite H255.
  destruct value as [s|s| |s m e]; try reflexivity.
  - remember (SFmul Binary32.prec32 Binary32.emax32 (S754_finite s m e)
                (S754_finite false 16711680 (-16))) as p eqn:Hp.
    assert (Hs : nan_or_sign s p).
    { subst p. simpl. rewrite xorb_false_r. apply binary_round_aux_sign. }
    clear Hp.
    destruct p as [s'|s'| |s' m' e']; destruct s; simpl in Hs; subst;
      cbn [float_to_int cond_Zopp]; try (now left); try (now right).
    + right. exists 0%Z. split; [reflexivity|lia].
    + destruct (int_range (- Z.shiftl (Z.pos m') e')) as [i|] eqn:Hi; [|now right].
      left. apply int_range_inv in Hi. destruct Hi as [-> _].
      unfold clamp.
      assert (0 <= Z.shiftl (Z.pos m') e')%Z by (apply Z.shiftl_nonneg; lia).
      destruct (Z.ltb_spec (- Z.shiftl (Z.pos m') e') 0); [reflexivity|].
      destruct (Z.ltb_spec 255 (- Z.shiftl (Z.pos m') e')); [lia|]. f_equal. lia.
    + destruct (int_range (Z.shiftl (Z.pos m') e')) as [i|] eqn:Hi; [|now left].
      right. exists (clamp i 0 255). split; [reflexivity|apply clamp_range].
Qed.

Lemma quot2_bounds (b : Z) : (16 < b ÷ 2)%Z -> (b ÷ 2 < b)%Z.
Proof.
  intros H. assert (Hb : (0 <= b)%Z).
  { destruct (Z.le_gt_cases 0 b) as [Hb|Hb]; [exact Hb|].
    assert (Hq : (b ÷ 2 <= 0 ÷ 2)%Z) by (apply Z.quot_le_mono; lia).
    change (0 ÷ 2)%Z with 0%Z in Hq. lia. }
  assert (Hb0 : b <> 0%Z) by (intros ->; revert H; cbv; discriminate).
  rewrite Z.quot_div_nonneg in * by lia.
  apply Z.div_lt; lia.
Qed.

Lemma quot2_decreases (r : Z) : (16 < r)%Z -> (Z.to_nat (r ÷ 2) < Z.to_nat r)%nat.
Proof.
  intros H. rewrite Z.quot_div_nonneg by lia.
  assert (r / 2 < r)%Z by (apply Z.div_lt; lia).
  assert (0 <= r / 2)%Z by (apply Z.div_pos; lia). lia.
Qed.

Lemma resolutions_loop_spec (start : Z) (fuel : nat) :
  forall r acc,
    (Z.to_nat r < fuel)%nat -> resolutions_invariant start r acc ->
    exists l, resolutions_loop fuel r acc = Some l /\
      halving l /\
      match l with
      | [] => (start <= 16)%Z
      | a :: _ => (a ÷ 2 <= 16)%Z /\ last l 0%Z = start /\ (16 < start)%Z
      end.
Proof.
  induction fuel as [|fuel IH]; intros r acc Hfuel [Hh Hacc]; [lia|].
  simpl. destruct (Z.ltb_spec 16 r) as [Hr|Hr].
  - apply IH.
    + pose proof (quot2_decreases Hr). lia.
    + split.
      * simpl. split; [exact Hr|]. split; [|exact Hh].
        destruct acc as [|a t]; [exact I|].
        destruct Hacc as (Ha & _ & _). subst r. split; [reflexivity|].
        apply quot2_bounds. exact Hr.
      * split; [reflexivity|].
        destruct acc as [|a t].
        -- simpl. subst r. split; [reflexivity|exact Hr].
        -- destruct Hacc as (_ & Hl & Hs). split; [|exact Hs].
           rewrite <- Hl. reflexivity.
  - exists acc. split; [reflexivity|]. split; [exact Hh|].
    destruct acc as [|a t].
    + subst r. exact Hr.
    + destruct Hacc as (Ha & Hl & Hs). subst r. auto.
Qed.

(** X13. The loop of [main] that fills [resolutionsDownscaled] terminates for
    every starting resolution [resolutionPrefered * msaaMultiplier]; the list
    is empty exactly when that product is at most 16; otherwise it is
    strictly ascending, every element is more than 16 and is the truncated
    half of the next one, the first element's half is at most 16, and the
    last element (the resolution whose image is saved last) is the product
    itself. *)
Theorem resolutions_halving (resolutionPrefered msaaMultiplier : Z) :
  let start := (resolutionPrefered * msaaMultiplier)%Z in
  exists l, resolutions resolutionPrefered msaaMultiplier = Some l /\
    halving l /\
    (l = [] <-> (start <= 16)%Z) /\
    (forall a, hd_error l = Some a -> (a ÷ 2 <= 16)%Z) /\
    ((16 < start)%Z -> last l 0%Z = start).
Proof.
  intros start. unfold resolutions. fold start.
  destruct (@resolutions_loop_spec start (S (Z.to_nat start)) start [])
    as (l & Hl & Hh & Hm).
  - lia.
  - split; [exact I|reflexivity].
  - exists l. split; [exact Hl|]. split; [exact Hh|].
    destruct l as [|a t].
    + split; [tauto|]. split; [discriminate|]. lia.
    + destruct Hm as (Ha & Hlast & Hs). split; [|split].
      * split; [discriminate|lia].
      * intros a' [= <-]. exact Ha.
      * intros _. exact Hlast.
Qed.

(** The list of [main] itself: [resolutionPrefered = 512], [msaaMultiplier = 2]. *)
Lemma resolutions_main : resolutions 512 2 = Some [32; 64; 128; 256; 512; 1024]%Z.
Proof. vm_compute. reflexivity. Qed.

(** The pixel of [colorOnFullShade] of the scene in binary32: each component
    is [0.1f * 255] truncated, 25. *)
Lemma toRgb_scene :
  toRgb (ops := Binary32.ops_qt5) (icast := cast32) Scene.colorOnFullShade
    = Some (255 * 2 ^ 24 + 25 * 2 ^ 16 + 25 * 2 ^ 8 + 25)%Z.
Proof. vm_compute. reflexivity. Qed.

(** * The rays of main *)

Section PixelGrid.

Open Scope R_scope.

Lemma pixel_offset (cameraSize : R) (width x : Z) :
  0 < cameraSize -> (0 <= x < width)%Z ->
  IZR x / (IZR width / cameraSize) = IZR x * cameraSize / IZR width /\
  0 <= IZR x * cameraSize / IZR width < cameraSize.
Proof.
  intros Hs [Hx0 Hxw].
  assert (Hw : 0 < IZR width) by (apply IZR_lt; lia).
  assert (Hx : 0 <= IZR x) by (apply IZR_le; lia).
  assert (Hxw' : IZR x < IZR width) by (apply IZR_lt; lia).
  split; [field; split; lra|].
  split.
  - apply Rmult_le_pos; [nra|]. apply Rlt_le, Rinv_0_lt_compat, Hw.
  - apply Rmult_lt_reg_r with (IZR width); [exact Hw|].
    unfold Rdiv. rewrite Rmult_assoc, Rinv_l by lra. nra.
Qed.

(** X14.  The rays of [main] over the reals, for a positive [cameraSize] and
    a pixel [(x, y)] of a square image [width] pixels wide: every origin has
    the camera's first coordinate, its other two coordinates lie in the
    window from [cameraOrigin - cameraSize / 2] (reached at pixel 0) to
    [cameraOrigin + cameraSize / 2] (never reached), and neighbouring pixels
    are [cameraSize / width] apart, so that the window does not depend on the
    resolution. *)
Theorem pixel_origin_grid (cameraSize : R) (cameraOrigin : QVector3D R) (width x y : Z) :
  0 < cameraSize -> (0 <= x < width)%Z -> (0 <= y < width)%Z ->
  let o := pixel_origin cameraSize cameraOrigin width x y in
  xp o = xp cameraOrigin /\
  yp cameraOrigin - cameraSize / 2 <= yp o < yp cameraOrigin + cameraSize / 2 /\
  zp cameraOrigin - cameraSize / 2 <= zp o < zp cameraOrigin + cameraSize / 2 /\
  yp (pixel_origin cameraSize cameraOrigin width (x + 1) y) - yp o = cameraSize / IZR width /\
  zp (pixel_origin cameraSize cameraOrigin width x (y + 1)) - zp o = cameraSize / IZR width /\
  pixel_origin cameraSize cameraOrigin width 0 0 =
    vec3 (xp cameraOrigin) (yp cameraOrigin - cameraSize / 2)
      (zp cameraOrigin - cameraSize / 2).
Proof.
  intros Hs Hx Hy o. unfold o, pixel_origin. cbv zeta. simpl.
  destruct (pixel_offset Hs Hx) as [Hxe Hxb].
  destruct (pixel_offset Hs Hy) as [Hye Hyb].
  assert (Hw : 0 < IZR width) by (apply IZR_lt; lia).
  split; [reflexivity|]. split; [rewrite Hxe; lra|]. split; [rewrite Hye; lra|].
  split; [|split].
  - rewrite plus_IZR. field. split; lra.
  - rewrite plus_IZR. field. split; lra.
  - f_equal; field; split; lra.
Qed.

(** X14 at the first image of [main] (32 pixels wide), at the pixel (0, 16). *)
Lemma pixel_origin_grid_witness :
  let o := pixel_origin 30 (vec3 100 0 0) 32 0 16 in
  xp o = 100 /\
  0 - 30 / 2 <= yp o < 0 + 30 / 2 /\
  0 - 30 / 2 <= zp o < 0 + 30 / 2 /\
  yp (pixel_origin 30 (vec3 100 0 0) 32 (0 + 1) 16) - yp o = 30 / IZR 32 /\
  zp (pixel_origin 30 (vec3 100 0 0) 32 0 (16 + 1)) - zp o = 30 / IZR 32 /\
  pixel_origin 30 (vec3 100 0 0) 32 0 0 = vec3 100 (0 - 30 / 2) (0 - 30 / 2).
Proof.
  apply (@pixel_origin_grid 30 (vec3 100 0 0) 32 0 16); [lra|lia|lia].
Defined.

End PixelGrid.

(** * The further properties at the scenes *)

Section MoreSceneFacts.

Import Binary32 Scene.

#[local] Existing Instance ops_qt5.

(** X4 at the scene with [sphereB] taken away: the bulb is no longer blocked
    and has the power 1 at the hit; and at the mirror sphere alone, whose nested
    invocation sees no surface. *)
Lemma cast_single_surface_witness :
  cast_calls [sphereA] [bulb] rayOrigin rayDirection colorOnMiss colorOnFullShade
    = Some (vmul (Shape_color sphereA)
              (vadd colorOnFullShade (vscale (Light_color bulb) (float_of_Z 1))), []) /\
  cast_calls [mirrorA] [bulb] rayOrigin rayDirection colorOnMiss colorOnFullShade
    = Some (vmul (blend (Shape_color mirrorA) colorOnMiss (Shape_mirror mirrorA))
              (vadd colorOnFullShade (vscale (Light_color bulb) (float_of_Z 1))), [[]]).
Proof.
  pose (h := {| intersection := vec3_of_Z 3 4 0;
                normal := vec3 (S754_finite false 10066330 (-24))
                            (S754_finite false 13421773 (-24)) (S754_zero false);
                reflection := vec3 (S754_finite true 9395240 (-25))
                                (S754_finite false 16106128 (-24)) (S754_zero false) |}).
  split.
  - pose proof (@cast_single_surface _ _ ops_qt5 sphereA [bulb] rayOrigin rayDirection
                  colorOnMiss colorOnFullShade h) as H.
    cbv zeta in H. rewrite H; vm_compute; reflexivity.
  - pose proof (@cast_single_surface _ _ ops_qt5 mirrorA [bulb] rayOrigin rayDirection
                  colorOnMiss colorOnFullShade h) as H.
    cbv zeta in H. rewrite H; vm_compute; reflexivity.
Defined.

(** X9 at the scene: the state of the loop has the squared distance 49 of the
    only hit, the one on [sphereA]. *)
Lemma nearest_hit_is_nearest_witness :
  SFleb
    (shortestDistanceSquared
       (nearest_loop rayOrigin rayDirection 0 [sphereA; sphereB] nearest_init))
    (float_of_Z 49) = true.
Proof.
  pose (h := {| intersection := vec3_of_Z 3 4 0;
                normal := vec3 (S754_finite false 10066330 (-24))
                            (S754_finite false 13421773 (-24)) (S754_zero false);
                reflection := vec3 (S754_finite true 9395240 (-25))
                                (S754_finite false 16106128 (-24)) (S754_zero false) |}).
  change (float_of_Z 49) with (hit_distance rayOrigin h).
  refine (proj1 (proj1 nearest_hit_is_nearest normalized_qt5 no_libm [sphereA; sphereB]
                   rayOrigin rayDirection _ 0%nat sphereA h eq_refl _)).
  - intros s h' [<-|[<-|[]]] Hh; vm_compute in Hh; [|discriminate].
    injection Hh as <-. vm_compute. discriminate.
  - vm_compute. reflexivity.
Defined.

End MoreSceneFacts.

Section MoreSceneRFacts.

Import SceneR.

#[local] Existing Instance SceneR.ops.

Open Scope R_scope.




(** X7 at a ray from the centre. *)
Lemma Sphere_hit_from_inside_witness :
  exists h,
    Sphere_intersects center 1 center rayDirection = Some h /\ intersection h = center.
Proof.
  apply (@Sphere_hit_from_inside Exact.normalized_qt5 center 1 center rayDirection).
  unfold lengthSquared, dotProduct, vsub, center. simpl. lra.
Defined.


End MoreSceneRFacts.
